(** * OpenClaw IRC integration: a shallow embedding and its verification

    The development follows the TypeScript sources of the IRC channel:
    - [JS]       the string primitives of the host language the code relies on;
    - [RegExp]   the backtracking matcher for the regular expressions in use;
    - [Targets]  src/irc/targets.ts and channels/plugins/normalize/irc.ts;
    - [Accounts] src/irc/accounts.ts and src/irc/accounts-resolver.ts;
    - [Client]   src/irc/client.ts (the wrapper around the irc-framework client);
    - [Send]     src/irc/send.ts (the chunking delivery pipeline);
    - [Monitor]  src/irc/monitor.ts (event handlers, allowlist evaluation);
    - [Probe]    src/irc/probe.ts.

    Strings.  A JavaScript string is a sequence of UTF-16 code units.  The
    model is [list ascii]: the code units U+0000..U+00FF, on which
    [toLowerCase], [trim] and the character classes of the regular
    expressions are given exactly.  Strings with code units above U+00FF are
    outside the model. *)

From Stdlib Require Import Ascii String Numbers.DecimalString.
From Stdlib Require Import List Bool Arith ZArith Lia.
Import ListNotations.

Set Implicit Arguments.

(* ================================================================== *)
(** * Host-language primitives                                         *)
(* ================================================================== *)

Module JS.

Definition jsstring := list ascii.

Definition str (s : string) : jsstring := list_ascii_of_string s.

Definition code (c : ascii) : nat := nat_of_ascii c.

Definition inRange (lo hi : nat) (c : ascii) : bool :=
  (lo <=? code c) && (code c <=? hi).

(** LineTerminator of ECMAScript within U+0000..U+00FF: LF and CR. *)
Definition isLineTerminator (c : ascii) : bool :=
  (code c =? 10) || (code c =? 13).

(** What [trim], [trimStart] and [trimEnd] strip: WhiteSpace and
    LineTerminator, that is TAB, LF, VT, FF, CR, SP and NBSP. *)
Definition isWhiteSpace (c : ascii) : bool :=
  inRange 9 13 c || (code c =? 32) || (code c =? 160).

(** [String.prototype.toLowerCase] on one code unit: A-Z, and the
    Latin-1 capitals U+00C0..U+00DE except the multiplication sign. *)
Definition lowerChar (c : ascii) : ascii :=
  if inRange 65 90 c || (inRange 192 222 c && negb (code c =? 215))
  then ascii_of_nat (code c + 32)
  else c.

Definition toLowerCase (s : jsstring) : jsstring := map lowerChar s.

Definition eqb (a b : jsstring) : bool :=
  if list_eq_dec ascii_dec a b then true else false.

Fixpoint dropWhile (p : ascii -> bool) (s : jsstring) : jsstring :=
  match s with
  | [] => []
  | c :: s' => if p c then dropWhile p s' else s
  end.

Definition trimStart (s : jsstring) : jsstring := dropWhile isWhiteSpace s.

Definition trimEnd (s : jsstring) : jsstring :=
  rev (dropWhile isWhiteSpace (rev s)).

Definition trim (s : jsstring) : jsstring := trimEnd (trimStart s).

Fixpoint startsWith (s prefix : jsstring) : bool :=
  match prefix, s with
  | [], _ => true
  | p :: prefix', c :: s' => Ascii.eqb c p && startsWith s' prefix'
  | _ :: _, [] => false
  end.

(** [s.includes(c)] for a one-character search string. *)
Definition includes (s : jsstring) (c : ascii) : bool :=
  existsb (Ascii.eqb c) s.

(** [s.lastIndexOf(c, fromIndex)] for a one-character search string:
    the largest index [i <= fromIndex] with [s[i] = c], or [-1]. *)
Fixpoint lastIndexOfFrom (c : ascii) (s : jsstring) (i fromIndex found : Z) : Z :=
  match s with
  | [] => found
  | x :: s' =>
      if (i <=? fromIndex)%Z
      then lastIndexOfFrom c s' (i + 1)%Z fromIndex (if Ascii.eqb x c then i else found)
      else found
  end.

Definition lastIndexOf (s : jsstring) (c : ascii) (fromIndex : Z) : Z :=
  lastIndexOfFrom c s 0%Z fromIndex (-1)%Z.

(** Relative indices of [slice]: negative ones count from the end, and
    everything is clamped to the string. *)
Definition relIndex (len i : Z) : Z :=
  if (i <? 0)%Z then Z.max (len + i) 0 else Z.min i len.

Definition slice (s : jsstring) (start finish : Z) : jsstring :=
  let len := Z.of_nat (length s) in
  let from := relIndex len start in
  let to := relIndex len finish in
  firstn (Z.to_nat (to - from)) (skipn (Z.to_nat from) s).

(** [s.slice(start)] *)
Definition sliceFrom (s : jsstring) (start : Z) : jsstring :=
  slice s start (Z.of_nat (length s)).

(** [xs.join(sep)] *)
Fixpoint join (sep : jsstring) (xs : list jsstring) : jsstring :=
  match xs with
  | [] => []
  | [x] => x
  | x :: xs' => x ++ sep ++ join sep xs'
  end.

(** [s.replace(/\*/g, by)]: every star replaced. *)
Fixpoint replaceStars (by_ : jsstring) (s : jsstring) : jsstring :=
  match s with
  | [] => []
  | c :: s' =>
      if Ascii.eqb c "*" then by_ ++ replaceStars by_ s'
      else c :: replaceStars by_ s'
  end.

(** The decimal rendering of a non-negative integer in a template string;
    from 1e21 on a JS number prints in exponent form, which is outside the
    model. *)
Definition numberToString (n : N) : jsstring :=
  str (NilZero.string_of_uint (N.to_uint n)).

(** The double quote, which the messages of the code contain. *)
Definition dquote : ascii := ascii_of_nat 34.

(** Thrown values: [Error] objects, told apart by their constructor. *)
Inductive JsError :=
| Error (message : jsstring)
| TypeError (message : jsstring).

Definition message (e : JsError) : jsstring :=
  match e with Error m => m | TypeError m => m end.

(** A computation that returns or throws. *)
Inductive Result (A : Type) :=
| Ok (a : A)
| Throw (e : JsError).
Arguments Ok {A} a.
Arguments Throw {A} e.

Definition bind {A B} (m : Result A) (k : A -> Result B) : Result B :=
  match m with
  | Ok a => k a
  | Throw e => Throw e
  end.

(** A plain object used as a map, [Record<string, A>]: its own properties
    in the order [Object.keys] and [Object.entries] enumerate them.  Keys
    that name members of [Object.prototype] are outside the model. *)
Definition Dict (A : Type) := list (jsstring * A).

Fixpoint get {A} (d : Dict A) (key : jsstring) : option A :=
  match d with
  | [] => None
  | (k, v) :: d' => if eqb k key then Some v else get d' key
  end.

Definition keys {A} (d : Dict A) : list jsstring := map fst d.

(** V8's message for a property read on [null]. *)
Definition nullPropertyMessage (prop : jsstring) : jsstring :=
  str "Cannot read properties of null (reading '" ++ prop ++ str "')".

End JS.

Import JS.

Notation "x <- m ;; k" := (JS.bind m (fun x => k))
  (at level 61, m at next level, right associativity).


(* ================================================================== *)
(** * Regular expressions                                              *)
(* ================================================================== *)

(** The regular expressions of the sources use literals, [.], bracket
    classes, the anchors, greedy [*] and [+] on one-character matchers, and
    capture groups.  [RegExp] gives them the backtracking semantics of
    ECMAScript: a matcher takes a continuation, a greedy quantifier first
    tries to consume one more character and falls back on the continuation. *)

Module RegExp.

Inductive Atom :=
| Chr (c : ascii)
| Dot
| Class (negated : bool) (ranges : list (ascii * ascii)).

Definition inRanges (ranges : list (ascii * ascii)) (x : ascii) : bool :=
  existsb (fun r => inRange (code (fst r)) (code (snd r)) x) ranges.

Definition atomMatches (a : Atom) (x : ascii) : bool :=
  match a with
  | Chr c => Ascii.eqb x c
  | Dot => negb (isLineTerminator x)
  | Class negated ranges => xorb negated (inRanges ranges x)
  end.

Inductive Regex :=
| Empty
| Bol
| Eol
| One (a : Atom)
| Star (a : Atom)
| Plus (a : Atom)
| Seq (r1 r2 : Regex)
| Group (n : nat) (r : Regex).

Definition Captures := list (nat * jsstring).

Record MatchResult := { endIndex : nat; captures : Captures }.

Definition Continuation := nat -> jsstring -> Captures -> option MatchResult.

(** Greedy repetition of a one-character matcher at position [pos], where
    [rest] is the input from [pos] on. *)
Fixpoint star (a : Atom) (k : Continuation) (pos : nat) (rest : jsstring)
    (caps : Captures) {struct rest} : option MatchResult :=
  match rest with
  | x :: rest' =>
      if atomMatches a x then
        match star a k (S pos) rest' caps with
        | Some res => Some res
        | None => k pos rest caps
        end
      else k pos rest caps
  | [] => k pos rest caps
  end.

Fixpoint matcher (r : Regex) (k : Continuation) (pos : nat) (rest : jsstring)
    (caps : Captures) {struct r} : option MatchResult :=
  match r with
  | Empty => k pos rest caps
  | Bol => if pos =? 0 then k pos rest caps else None
  | Eol => match rest with [] => k pos rest caps | _ :: _ => None end
  | One a =>
      match rest with
      | x :: rest' => if atomMatches a x then k (S pos) rest' caps else None
      | [] => None
      end
  | Star a => star a k pos rest caps
  | Plus a =>
      match rest with
      | x :: rest' => if atomMatches a x then star a k (S pos) rest' caps else None
      | [] => None
      end
  | Seq r1 r2 =>
      matcher r1 (fun pos' rest' caps' => matcher r2 k pos' rest' caps') pos rest caps
  | Group n r1 =>
      matcher r1
        (fun pos' rest' caps' => k pos' rest' ((n, firstn (pos' - pos) rest) :: caps'))
        pos rest caps
  end.

Definition accept : Continuation :=
  fun pos _ caps => Some {| endIndex := pos; captures := caps |}.

(** [RegExp.prototype.exec] without the sticky or global flag: the match is
    tried at every start index from the left. *)
Fixpoint execFrom (r : Regex) (pos : nat) (rest : jsstring) : option MatchResult :=
  match matcher r accept pos rest [] with
  | Some res => Some res
  | None =>
      match rest with
      | [] => None
      | _ :: rest' => execFrom r (S pos) rest'
      end
  end.

Definition exec (r : Regex) (input : jsstring) : option MatchResult :=
  execFrom r 0 input.

Definition test (r : Regex) (input : jsstring) : bool :=
  match exec r input with Some _ => true | None => false end.

(** [match[n]] *)
Fixpoint group (n : nat) (caps : Captures) : option jsstring :=
  match caps with
  | [] => None
  | (i, s) :: caps' => if i =? n then Some s else group n caps'
  end.

Fixpoint lit (s : jsstring) : Regex :=
  match s with
  | [] => Empty
  | c :: s' => Seq (One (Chr c)) (lit s')
  end.

(** SyntaxCharacter of the pattern grammar. *)
Definition isSyntaxCharacter (c : ascii) : bool :=
  existsb (Ascii.eqb c) (str "^$\.*+?()[]{}|").

(** [new RegExp(source)] for the sources built from ordinary characters,
    [.], the anchors and the greedy quantifiers [*] and [+] on a character.
    [None] stands for every other source (groups, classes, escapes,
    alternation, lazy quantifiers, and the sources the constructor refuses):
    those are not modelled. *)
Fixpoint compile (source : jsstring) : option Regex :=
  match source with
  | [] => Some Empty
  | c :: source' =>
      if Ascii.eqb c "^" then option_map (Seq Bol) (compile source')
      else if Ascii.eqb c "$" then option_map (Seq Eol) (compile source')
      else
        match (if Ascii.eqb c "." then Some Dot
               else if isSyntaxCharacter c then None
               else Some (Chr c)) with
        | None => None
        | Some a =>
            match source' with
            | q :: source'' =>
                if Ascii.eqb q "*" then option_map (Seq (Star a)) (compile source'')
                else if Ascii.eqb q "+" then option_map (Seq (Plus a)) (compile source'')
                else option_map (Seq (One a)) (compile source')
            | [] => option_map (Seq (One a)) (compile source')
            end
        end
  end.

End RegExp.

(* ================================================================== *)
(** * Target keys (src/irc/targets.ts, normalize/irc.ts)               *)
(* ================================================================== *)

Module Targets.

Import RegExp.

Definition notColon : Atom := Class true [(":"%char, ":"%char)].

(** [[a-zA-Z_\-\[\]\\^{}|`]] *)
Definition nickFirst : Atom :=
  Class false
    [("a", "z"); ("A", "Z"); ("_", "_"); ("-", "-"); ("[", "["); ("]", "]");
     ("\", "\"); ("^", "^"); ("{", "{"); ("}", "}"); ("|", "|"); ("`", "`")]%char.

(** [[a-zA-Z0-9_\-\[\]\\^{}|`]] *)
Definition nickRest : Atom :=
  Class false
    [("a", "z"); ("A", "Z"); ("0", "9"); ("_", "_"); ("-", "-"); ("[", "[");
     ("]", "]"); ("\", "\"); ("^", "^"); ("{", "{"); ("}", "}"); ("|", "|");
     ("`", "`")]%char.

(** [/^irc:([^:]+):(.+)$/] *)
Definition targetKeyRegex : Regex :=
  Seq Bol (Seq (lit (str "irc:"))
    (Seq (Group 1 (Plus notColon))
      (Seq (One (Chr ":")) (Seq (Group 2 (Plus Dot)) Eol)))).

(** [/^irc:[^:]+:.+/] *)
Definition prefixedRegex : Regex :=
  Seq Bol (Seq (lit (str "irc:"))
    (Seq (Plus notColon) (Seq (One (Chr ":")) (Plus Dot)))).

(** [/^[a-zA-Z_\-\[\]\\^{}|`][a-zA-Z0-9_\-\[\]\\^{}|`]*$/] *)
Definition nickRegex : Regex :=
  Seq Bol (Seq (One nickFirst) (Seq (Star nickRest) Eol)).

Definition buildIrcTargetKey (accountId : option jsstring) (target : jsstring)
    : jsstring :=
  let accountId := match accountId with Some a => a | None => str "default" end in
  str "irc:" ++ accountId ++ str ":" ++ toLowerCase target.

Record ParsedTargetKey := { accountId : jsstring; target : jsstring }.

Definition groupOrEmpty (n : nat) (m : MatchResult) : jsstring :=
  match group n (captures m) with Some s => s | None => [] end.

Definition parseIrcTargetKey (key : jsstring) : option ParsedTargetKey :=
  match exec targetKeyRegex key with
  | None => None
  | Some m => Some {| accountId := groupOrEmpty 1 m; target := groupOrEmpty 2 m |}
  end.

Definition normalizeIrcMessagingTarget (raw : jsstring) : option jsstring :=
  let trimmed := trim raw in
  match trimmed with
  | [] => None
  | _ :: _ =>
      if test prefixedRegex trimmed then Some (toLowerCase trimmed)
      else if startsWith trimmed (str "#") then Some (buildIrcTargetKey None trimmed)
      else if test nickRegex trimmed then Some (buildIrcTargetKey None trimmed)
      else None
  end.

End Targets.

(* ================================================================== *)
(** * Configuration types (src/irc/types.ts)                           *)
(* ================================================================== *)

(** Optional properties are [option]s: [None] is [undefined]. *)

Module IrcServerConfig.
Record t := {
  host : jsstring;
  port : option N;
  tls : option bool;
  password : option jsstring;
  nick : jsstring;
  username : option jsstring;
  gecos : option jsstring
}.
End IrcServerConfig.

Module IrcChannelConfig.
Record t := {
  allow : option bool;
  requireMention : option bool;
  enabled : option bool;
  users : option (list jsstring)
}.
End IrcChannelConfig.

Module IrcNetworkEntry.
Record t := {
  requireMention : option bool;
  users : option (list jsstring);
  channels : option (Dict IrcChannelConfig.t)
}.
End IrcNetworkEntry.

Module IrcAccountConfig.
(** The type declares [server] as required; the resolvers read the
    configuration as loosely typed and test it, so it is optional here. *)
Record t := {
  enabled : option bool;
  server : option IrcServerConfig.t;
  networks : option (Dict IrcNetworkEntry.t)
}.
End IrcAccountConfig.

Module OpenClawConfig.
(** [cfg.channels?.irc]: the top-level block is itself an account
    configuration (single-account mode) and may carry an [accounts] map
    (multi-account mode). *)
Record IrcSection := {
  top : IrcAccountConfig.t;
  accounts : option (Dict IrcAccountConfig.t)
}.
Record t := { irc : option IrcSection }.
End OpenClawConfig.

Module ResolvedIrcAccount.
Record t := {
  accountId : jsstring;
  config : IrcAccountConfig.t;
  serverConfig : option IrcServerConfig.t
}.
End ResolvedIrcAccount.

(* ================================================================== *)
(** * Account resolution                                               *)
(* ================================================================== *)

(** [DEFAULT_ACCOUNT_ID] and [normalizeAccountId] come from
    routing/session-key.ts, which is not part of the sources at hand: both
    resolvers are parametrised by them.  [normalizeAccountId] may return
    [undefined], which [??] replaces by the identifier itself. *)

Definition accountNotFoundMessage (accountId : jsstring) (available : list jsstring)
    : jsstring :=
  str "IRC account " ++ [dquote] ++ accountId ++ [dquote]
    ++ str " not found. Available: " ++ join (str ", ") available.

Definition missingServerMessage (accountId : jsstring) : jsstring :=
  str "IRC account " ++ [dquote] ++ accountId ++ [dquote]
    ++ str " missing server configuration".

Definition onlyDefaultMessage (accountId : jsstring) : jsstring :=
  str "IRC account " ++ [dquote] ++ accountId ++ [dquote]
    ++ str " requested but only default account is configured".

Definition isSome {A} (o : option A) : bool :=
  match o with Some _ => true | None => false end.

(** [enabled !== false] *)
Definition notDisabled (enabled : option bool) : bool :=
  match enabled with Some false => false | _ => true end.

(** src/irc/accounts.ts *)
Module Accounts.
Section WithSessionKey.

Variable DEFAULT_ACCOUNT_ID : jsstring.
Variable normalizeAccountId : jsstring -> option jsstring.

Definition normalized (accountId : jsstring) : jsstring :=
  match normalizeAccountId accountId with Some a => a | None => accountId end.

Definition notConfiguredMessage : jsstring :=
  str "IRC is not configured. Set channels.irc.server".

Definition listIrcAccountIds (cfg : OpenClawConfig.t) : list jsstring :=
  match OpenClawConfig.irc cfg with
  | None => []
  | Some ircCfg =>
      match OpenClawConfig.accounts ircCfg with
      | Some accounts =>
          map (fun entry => normalized (fst entry))
            (filter (fun entry => notDisabled (IrcAccountConfig.enabled (snd entry)))
               accounts)
      | None =>
          if notDisabled (IrcAccountConfig.enabled (OpenClawConfig.top ircCfg))
             && isSome (IrcAccountConfig.server (OpenClawConfig.top ircCfg))
          then [DEFAULT_ACCOUNT_ID]
          else []
      end
  end.

Definition listEnabledIrcAccounts (cfg : OpenClawConfig.t) : list jsstring :=
  match OpenClawConfig.irc cfg with
  | None => []
  | Some ircCfg =>
      match OpenClawConfig.accounts ircCfg with
      | Some accounts => keys accounts
      | None =>
          if isSome (IrcAccountConfig.server (OpenClawConfig.top ircCfg))
          then [DEFAULT_ACCOUNT_ID]
          else []
      end
  end.

Definition resolveDefaultIrcAccountId (cfg : OpenClawConfig.t) : jsstring :=
  match listIrcAccountIds cfg with
  | [] => DEFAULT_ACCOUNT_ID
  | [id] => id
  | _ => DEFAULT_ACCOUNT_ID
  end.

Definition resolveIrcAccount (cfg : OpenClawConfig.t) (inputAccountId : option jsstring)
    : Result ResolvedIrcAccount.t :=
  match OpenClawConfig.irc cfg with
  | None => Throw (Error notConfiguredMessage)
  | Some ircCfg =>
      match IrcAccountConfig.server (OpenClawConfig.top ircCfg) with
      | None => Throw (Error notConfiguredMessage)
      | Some _ =>
          let accountId :=
            match inputAccountId with
            | Some (c :: id) => normalized (c :: id)
            | _ => resolveDefaultIrcAccountId cfg
            end in
          match OpenClawConfig.accounts ircCfg with
          | Some accounts =>
              match get accounts accountId with
              | None =>
                  Throw (Error (accountNotFoundMessage accountId (keys accounts)))
              | Some account =>
                  match IrcAccountConfig.server account with
                  | None => Throw (Error (missingServerMessage accountId))
                  | Some server =>
                      Ok {| ResolvedIrcAccount.accountId := accountId;
                            ResolvedIrcAccount.config := account;
                            ResolvedIrcAccount.serverConfig := Some server |}
                  end
              end
          | None =>
              if negb (eqb accountId DEFAULT_ACCOUNT_ID)
              then Throw (Error (onlyDefaultMessage accountId))
              else Ok {| ResolvedIrcAccount.accountId := DEFAULT_ACCOUNT_ID;
                         ResolvedIrcAccount.config := OpenClawConfig.top ircCfg;
                         ResolvedIrcAccount.serverConfig :=
                           IrcAccountConfig.server (OpenClawConfig.top ircCfg) |}
          end
      end
  end.

End WithSessionKey.
End Accounts.

(** src/irc/accounts-resolver.ts *)
Module AccountsResolver.
Section WithSessionKey.

Variable DEFAULT_ACCOUNT_ID : jsstring.
Variable normalizeAccountId : jsstring -> option jsstring.

Definition notConfiguredMessage : jsstring :=
  str "IRC is not configured. Set channels.irc.server or channels.irc.accounts".

Definition resolveIrcAccount (cfg : OpenClawConfig.t) (inputAccountId : option jsstring)
    : Result ResolvedIrcAccount.t :=
  match OpenClawConfig.irc cfg with
  | None => Throw (Error notConfiguredMessage)
  | Some ircCfg =>
      if negb (isSome (IrcAccountConfig.server (OpenClawConfig.top ircCfg)))
         && negb (isSome (OpenClawConfig.accounts ircCfg))
      then Throw (Error notConfiguredMessage)
      else
        let accountId :=
          match inputAccountId with
          | Some (c :: id) => Accounts.normalized normalizeAccountId (c :: id)
          | _ => DEFAULT_ACCOUNT_ID
          end in
        match OpenClawConfig.accounts ircCfg with
        | Some accounts =>
            match get accounts accountId with
            | None =>
                Throw (Error (accountNotFoundMessage accountId (keys accounts)))
            | Some account =>
                match IrcAccountConfig.server account with
                | None => Throw (Error (missingServerMessage accountId))
                | Some server =>
                    Ok {| ResolvedIrcAccount.accountId := accountId;
                          ResolvedIrcAccount.config := account;
                          ResolvedIrcAccount.serverConfig := Some server |}
                end
            end
        | None =>
            if negb (eqb accountId DEFAULT_ACCOUNT_ID)
            then Throw (Error (onlyDefaultMessage accountId))
            else Ok {| ResolvedIrcAccount.accountId := DEFAULT_ACCOUNT_ID;
                       ResolvedIrcAccount.config := OpenClawConfig.top ircCfg;
                       ResolvedIrcAccount.serverConfig :=
                         IrcAccountConfig.server (OpenClawConfig.top ircCfg) |}
        end
  end.

End WithSessionKey.
End AccountsResolver.

(* ================================================================== *)
(** * The client wrapper (src/irc/client.ts)                           *)
(* ================================================================== *)

Module Client.

(** Method calls on the irc-framework client. *)
Inductive IrcCall :=
| Connect
| Quit (reason : jsstring)
| Say (target message : jsstring)
| Notice (target message : jsstring)
| Action (target message : jsstring)
| Join (channel : jsstring)
| Part (channel : jsstring) (reason : option jsstring)
| CtcpRequest (target type : jsstring) (params : option jsstring)
| CtcpResponse (target type : jsstring) (params : option jsstring)
| RemoveAllListeners.

(** The irc-framework client, an external object: the calls it has
    received, oldest first, and the nick the server assigned to it. *)
Record IrcClientLike := {
  calls : list IrcCall;
  assignedNick : option jsstring
}.

Definition called (call : IrcCall) (lib : IrcClientLike) : IrcClientLike :=
  {| calls := calls lib ++ [call]; assignedNick := assignedNick lib |}.

Record IrcClientOptions := {
  server : option IrcServerConfig.t;
  autoReconnect : option bool
}.

Record IrcClient := {
  options : IrcClientOptions;
  client : option IrcClientLike;
  connected : bool;
  registered : bool
}.

(** [new IrcClient(options)] *)
Definition new (options : IrcClientOptions) : IrcClient :=
  {| options := options; client := None; connected := false; registered := false |}.

Definition createIrcClient (config : IrcAccountConfig.t) : IrcClient :=
  new {| server := IrcAccountConfig.server config; autoReconnect := Some true |}.

Definition notConnected : JsError := Error (str "IRC client not connected").

(** [connect()].  [library] is the outcome of importing irc-framework and
    constructing its [Client]: the new object, or the rejection. *)
Definition connect (library : Result IrcClientLike) (c : IrcClient) : Result IrcClient :=
  if connected c then Throw (Error (str "IRC client already connected"))
  else
    lib <- library ;;
    Ok {| options := options c;
          client := Some (called Connect lib);
          connected := true;
          registered := registered c |}.

Definition disconnect (reason : option jsstring) (c : IrcClient) : IrcClient :=
  match connected c, client c with
  | true, Some lib =>
      let reason :=
        match reason with
        | Some (x :: r) => x :: r
        | _ => str "Bot shutting down"
        end in
      {| options := options c;
         client := Some (called (Quit reason) lib);
         connected := false;
         registered := false |}
  | _, _ => c
  end.

Definition isConnected (c : IrcClient) : bool := connected c.

Definition isRegistered (c : IrcClient) : bool := registered c.

(** The shape shared by [join], [part], [say], [notice], [action] and the
    CTCP methods: throw without a library client, forward otherwise. *)
Definition forward (call : IrcCall) (c : IrcClient) : Result IrcClient :=
  match client c with
  | None => Throw notConnected
  | Some lib =>
      Ok {| options := options c;
            client := Some (called call lib);
            connected := connected c;
            registered := registered c |}
  end.

Definition join (channel : jsstring) := forward (Join channel).
Definition part (channel : jsstring) (reason : option jsstring) :=
  forward (Part channel reason).
Definition say (target message : jsstring) := forward (Say target message).
Definition notice (target message : jsstring) := forward (Notice target message).
Definition action (target message : jsstring) := forward (Action target message).
Definition ctcpResponse (target type : jsstring) (params : option jsstring) :=
  forward (CtcpResponse target type params).

(** The handler [setupEventHandlers] installs for [registered]. *)
Definition onRegistered (c : IrcClient) : IrcClient :=
  {| options := options c;
     client := client c;
     connected := connected c;
     registered := true |}.

(** The calls the library client has received so far. *)
Definition callLog (c : IrcClient) : list IrcCall :=
  match client c with Some lib => calls lib | None => [] end.

End Client.

(* ================================================================== *)
(** * The delivery pipeline (src/irc/send.ts)                          *)
(* ================================================================== *)

Module Send.

Import Client.

Record SendOptions := {
  action : option bool;
  notice : option bool;
  split : option bool;
  splitPrefix : option jsstring
}.

Definition noOptions : SendOptions :=
  {| action := None; notice := None; split := None; splitPrefix := None |}.

Definition truthy (b : option bool) : bool :=
  match b with Some true => true | _ => false end.

Definition MAX_LENGTH : Z := 400.

Definition newline : ascii := ascii_of_nat 10.

(** [" ..."], appended to every chunk but the last. *)
Definition continuation : jsstring := str " ...".

(** The kind of call the options select. *)
Definition emit (o : SendOptions) (target message : jsstring) (c : IrcClient)
    : Result IrcClient :=
  if truthy (action o) then Client.action target message c
  else if truthy (notice o) then Client.notice target message c
  else Client.say target message c.

(** Which boundary the [while] loop cuts at: the branch [splitIndex] takes. *)
Inductive Cut := AtNewline | AtSpace | AtPunctuation | HardCut.

Definition lastPunctuation (remaining : jsstring) : Z :=
  Z.max (lastIndexOf remaining "." MAX_LENGTH)
    (Z.max (lastIndexOf remaining "," MAX_LENGTH)
       (Z.max (lastIndexOf remaining ";" MAX_LENGTH)
          (Z.max (lastIndexOf remaining "!" MAX_LENGTH)
             (lastIndexOf remaining "?" MAX_LENGTH)))).

Definition cutKind (remaining : jsstring) : Cut :=
  if (lastIndexOf remaining newline MAX_LENGTH >? MAX_LENGTH - 100)%Z then AtNewline
  else if (lastIndexOf remaining " " MAX_LENGTH >? MAX_LENGTH - 50)%Z then AtSpace
  else if (lastPunctuation remaining >? MAX_LENGTH - 50)%Z then AtPunctuation
  else HardCut.

(** The body of the [while] loop up to the choice of [splitIndex]. *)
Definition splitIndex (remaining : jsstring) : Z :=
  let lastNewline := lastIndexOf remaining newline MAX_LENGTH in
  if (lastNewline >? MAX_LENGTH - 100)%Z then (lastNewline + 1)%Z
  else
    let lastSpace := lastIndexOf remaining " " MAX_LENGTH in
    if (lastSpace >? MAX_LENGTH - 50)%Z then (lastSpace + 1)%Z
    else
      let lastPunct := lastPunctuation remaining in
      if (lastPunct >? MAX_LENGTH - 50)%Z then (lastPunct + 1)%Z
      else MAX_LENGTH.

(** The [while] loop; [None] when the fuel runs out before the loop ends. *)
Fixpoint splitLoop (fuel : nat) (chunks : list jsstring) (remaining : jsstring)
    : option (list jsstring * jsstring) :=
  if (Z.of_nat (length remaining) >? MAX_LENGTH)%Z then
    match fuel with
    | O => None
    | S fuel' =>
        let i := splitIndex remaining in
        splitLoop fuel'
          (chunks ++ [trimEnd (slice remaining 0 i)])
          (trimStart (sliceFrom remaining i))
    end
  else Some (chunks, remaining).

(** The chunks of a text, with the [if (remaining)] after the loop. *)
Definition chunksOf (text : jsstring) : option (list jsstring) :=
  match splitLoop (length text) [] text with
  | None => None
  | Some (chunks, []) => Some chunks
  | Some (chunks, c :: remaining) => Some (chunks ++ [c :: remaining])
  end.

(** The message sent for [chunks[i]] out of [total] chunks. *)
Definition decorate (o : SendOptions) (i total : nat) (chunk : jsstring) : jsstring :=
  let message :=
    match splitPrefix o with
    | Some (p :: prefix) => if i =? 0 then chunk else (p :: prefix) ++ str " " ++ chunk
    | _ => chunk
    end in
  if i =? total - 1 then message else message ++ continuation.

(** The [for] loop from index [i] on; the pacing delay between two chunks
    has no effect on the calls made and is left out. *)
Fixpoint sendChunks (o : SendOptions) (target : jsstring) (total i : nat)
    (chunks : list jsstring) (c : IrcClient) : Result IrcClient :=
  match chunks with
  | [] => Ok c
  | chunk :: chunks' =>
      c' <- emit o target (decorate o i total chunk) c ;;
      sendChunks o target total (S i) chunks' c'
  end.

(** [sendMessageIrc(client, target, text, options)]; [None] only if the
    chunking loop ran out of fuel. *)
Definition sendMessageIrc (c : IrcClient) (target text : jsstring) (o : SendOptions)
    : option (Result IrcClient) :=
  if negb (isConnected c) then Some (Throw notConnected)
  else if (Z.of_nat (length text) <=? MAX_LENGTH)%Z || negb (truthy (split o))
  then Some (emit o target text c)
  else
    match chunksOf text with
    | None => None
    | Some chunks => Some (sendChunks o target (length chunks) 0 chunks c)
    end.

End Send.

(* ================================================================== *)
(** * The monitor (src/irc/monitor.ts)                                 *)
(* ================================================================== *)

Module Monitor.

Import Client.

(** What the handlers do besides calling the client. *)
Inductive Payload :=
| NoPayload
| MessageEvent (nick target message : jsstring)
| NoticeEvent (nick message : jsstring)
| ErrorEvent (message : jsstring).

Inductive Effect :=
| RuntimeLog (line : jsstring)
| RuntimeError (line : jsstring)
| LoggerDebug (line : jsstring)
| Forwarded (event : jsstring) (payload : Payload).

(** The variables the handlers close over: the [stopped] flag, the client,
    the events for which [client.on] stored an external handler in
    [internalHandlers], and the effects so far, oldest first. *)
Record MonitorState := {
  stopped : bool;
  client : IrcClient;
  internalHandlers : list jsstring;
  effects : list Effect
}.

Record MonitorEnv := {
  serverConfig : IrcServerConfig.t;
  config : IrcAccountConfig.t
}.

Definition withEffect (e : Effect) (st : MonitorState) : MonitorState :=
  {| stopped := stopped st;
     client := client st;
     internalHandlers := internalHandlers st;
     effects := effects st ++ [e] |}.

Definition withClient (c : IrcClient) (st : MonitorState) : MonitorState :=
  {| stopped := stopped st;
     client := c;
     internalHandlers := internalHandlers st;
     effects := effects st |}.

(** The replaced [client.on]: the handler is stored, not registered. *)
Definition on (event : jsstring) (st : MonitorState) : MonitorState :=
  {| stopped := stopped st;
     client := client st;
     internalHandlers := event :: internalHandlers st;
     effects := effects st |}.

(** [const handler = internalHandlers.get(event); if (handler) handler(..)] *)
Definition callExternal (event : jsstring) (payload : Payload) (st : MonitorState)
    : MonitorState :=
  if existsb (eqb event) (internalHandlers st)
  then withEffect (Forwarded event payload) st
  else st.

Definition channelsToJoin (networks : Dict IrcNetworkEntry.t) : list jsstring :=
  flat_map
    (fun network =>
       let channels :=
         match IrcNetworkEntry.channels (snd network) with
         | Some channels => channels
         | None => []
         end in
       map (fun channel =>
              if startsWith (fst channel) (str "#") then fst channel
              else str "#" ++ fst channel)
         (filter (fun channel => notDisabled (IrcChannelConfig.enabled (snd channel)))
            channels))
    networks.

Fixpoint joinAll (channels : list jsstring) (c : IrcClient) : Result IrcClient :=
  match channels with
  | [] => Ok c
  | channel :: channels' => c' <- Client.join channel c ;; joinAll channels' c'
  end.

Definition connectedLine (server : IrcServerConfig.t) : jsstring :=
  let port :=
    match IrcServerConfig.port server with
    | Some 0%N | None => 6697%N
    | Some p => p
    end in
  str "[irc] Connected to " ++ IrcServerConfig.host server ++ str ":"
    ++ numberToString port ++ str " as " ++ IrcServerConfig.nick server.

Definition onRegistered (env : MonitorEnv) (st : MonitorState) : Result MonitorState :=
  let st := withEffect (RuntimeLog (connectedLine (serverConfig env))) st in
  let networks :=
    match IrcAccountConfig.networks (config env) with
    | Some networks => networks
    | None => []
    end in
  c <- joinAll (channelsToJoin networks) (client st) ;;
  Ok (callExternal (str "registered") NoPayload (withClient c st)).

Definition onMessage (nick target message : jsstring) (st : MonitorState)
    : MonitorState :=
  if stopped st then st
  else
    let st :=
      withEffect
        (LoggerDebug (str "[irc] <" ++ nick ++ str "> " ++ message)) st in
    callExternal (str "message") (MessageEvent nick target message) st.

Definition onNotice (nick message : jsstring) (st : MonitorState) : MonitorState :=
  if stopped st then st
  else
    let st :=
      withEffect
        (LoggerDebug (str "[irc] Notice from " ++ nick ++ str ": " ++ message)) st in
    callExternal (str "notice") (NoticeEvent nick message) st.

Definition onError (message : jsstring) (st : MonitorState) : MonitorState :=
  let st := withEffect (RuntimeError (str "[irc] Error: " ++ message)) st in
  callExternal (str "error") (ErrorEvent message) st.

Definition onClose (st : MonitorState) : MonitorState :=
  let st :=
    if negb (stopped st)
    then withEffect (RuntimeLog (str "[irc] Connection closed, reconnecting...")) st
    else st in
  callExternal (str "close") NoPayload st.

(** The [stop] of the returned handle. *)
Definition stop (st : MonitorState) : MonitorState :=
  {| stopped := true;
     client := disconnect (Some (str "Monitoring stopped")) (client st);
     internalHandlers := internalHandlers st;
     effects := effects st |}.

(** The events of the library client the monitor listens to. *)
Inductive Event :=
| Registered
| Message (nick target message : jsstring)
| NoticeEv (nick message : jsstring)
| ErrorEv (message : jsstring)
| Close.

Definition handle (env : MonitorEnv) (ev : Event) (st : MonitorState)
    : Result MonitorState :=
  match ev with
  | Registered => onRegistered env st
  | Message nick target message => Ok (onMessage nick target message st)
  | NoticeEv nick message => Ok (onNotice nick message st)
  | ErrorEv message => Ok (onError message st)
  | Close => Ok (onClose st)
  end.

(** [monitorIrcProvider] with the configuration given.  The handlers are
    registered on [(client as any).client], read before [connect()] has
    created the library client. *)
Definition monitorIrcProvider (DEFAULT_ACCOUNT_ID : jsstring)
    (normalizeAccountId : jsstring -> option jsstring)
    (library : Result IrcClientLike)
    (cfg : OpenClawConfig.t) (accountId : option jsstring) : Result MonitorState :=
  account <- Accounts.resolveIrcAccount DEFAULT_ACCOUNT_ID normalizeAccountId
               cfg accountId ;;
  let client := createIrcClient (ResolvedIrcAccount.config account) in
  match Client.client client with
  | None => Throw (TypeError (nullPropertyMessage (str "on")))
  | Some _ =>
      c <- connect library client ;;
      Ok {| stopped := false; client := c; internalHandlers := []; effects := [] |}
  end.

(** The configuration [isUserAllowed] receives: a network entry, a channel
    configuration, or nothing. *)
Inductive PolicyConfig :=
| OfNetwork (network : IrcNetworkEntry.t)
| OfChannel (channel : IrcChannelConfig.t).

(** [config?.users || []] *)
Definition usersOf (config : option PolicyConfig) : list jsstring :=
  match config with
  | Some (OfNetwork n) =>
      match IrcNetworkEntry.users n with Some us => us | None => [] end
  | Some (OfChannel c) =>
      match IrcChannelConfig.users c with Some us => us | None => [] end
  | None => []
  end.

(** The source handed to [new RegExp] for an entry with a star. *)
Definition wildcardSource (pattern : jsstring) : jsstring :=
  str "^" ++ replaceStars (str ".*") pattern ++ str "$".

(** The second [users.some(...)]; [None] when an entry that is reached has a
    source outside what [RegExp.compile] models. *)
Fixpoint someHostMatches (hostLower : jsstring) (users : list jsstring) : option bool :=
  match users with
  | [] => Some false
  | u :: users' =>
      let pattern := toLowerCase u in
      if includes pattern "*" then
        match RegExp.compile (wildcardSource pattern) with
        | None => None
        | Some regex =>
            if RegExp.test regex hostLower then Some true
            else someHostMatches hostLower users'
        end
      else if eqb hostLower pattern then Some true
      else someHostMatches hostLower users'
  end.

Definition isUserAllowed (nick hostname : jsstring) (config : option PolicyConfig)
    : option bool :=
  let users := usersOf config in
  match users with
  | [] => Some true
  | _ :: _ =>
      if existsb (fun u => eqb (toLowerCase u) (toLowerCase nick)) users
      then Some true
      else
        match hostname with
        | [] => Some false
        | _ :: _ => someHostMatches (toLowerCase hostname) users
        end
  end.

End Monitor.

(* ================================================================== *)
(** * The connectivity probe (src/irc/probe.ts)                        *)
(* ================================================================== *)

Module Probe.

Import Client.

Record IrcProbeResult := {
  ok : bool;
  connected : option bool;
  error : option jsstring;
  host : jsstring;
  port : N;
  nick : option jsstring
}.

(** The [connection] promise: settled once, later calls of [resolve] and
    [reject] are ignored. *)
Inductive Promise :=
| Pending
| Resolved
| Rejected (e : JsError).

Definition settle (outcome : Promise) (p : Promise) : Promise :=
  match p with Pending => outcome | _ => p end.

(** The state the executor and its handlers share: the [result] object,
    the wrapper, the object read from [(client as any).client] on which the
    listeners are registered, whether these listeners are still in place,
    the [connection] promise, and how often [cleanup] has run. *)
Record ProbeState := {
  result : IrcProbeResult;
  wrapper : IrcClient;
  internalClient : option IrcClientLike;
  listening : bool;
  connection : Promise;
  cleanups : nat
}.

Definition setResult (r : IrcProbeResult) (st : ProbeState) : ProbeState :=
  {| result := r; wrapper := wrapper st; internalClient := internalClient st;
     listening := listening st; connection := connection st;
     cleanups := cleanups st |}.

Definition setConnection (p : Promise) (st : ProbeState) : ProbeState :=
  {| result := result st; wrapper := wrapper st; internalClient := internalClient st;
     listening := listening st; connection := p; cleanups := cleanups st |}.

Definition withError (message : jsstring) (r : IrcProbeResult) : IrcProbeResult :=
  {| ok := ok r; connected := connected r; error := Some message;
     host := host r; port := port r; nick := nick r |}.

(** [cleanup]: [internalClient.removeAllListeners()] and
    [client.disconnect("Probe complete")]. *)
Definition cleanup (st : ProbeState) : ProbeState :=
  {| result := result st;
     wrapper := disconnect (Some (str "Probe complete")) (wrapper st);
     internalClient := option_map (called RemoveAllListeners) (internalClient st);
     listening := false;
     connection := connection st;
     cleanups := S (cleanups st) |}.

Definition onRegistered (serverNick : jsstring) (st : ProbeState) : ProbeState :=
  let r := result st in
  let assigned :=
    match internalClient st with
    | Some lib =>
        match assignedNick lib with
        | Some (c :: n) => c :: n
        | _ => serverNick
        end
    | None => serverNick
    end in
  let st :=
    setResult {| ok := true; connected := Some true; error := error r;
                 host := host r; port := port r; nick := Some assigned |} st in
  setConnection (settle Resolved (connection st)) (cleanup st).

Definition onError (e : JsError) (st : ProbeState) : ProbeState :=
  let st := setResult (withError (message e) (result st)) st in
  let st := cleanup st in
  setConnection (settle (Rejected e) (connection st)) st.

Definition closedMessage : jsstring := str "Connection closed".

Definition onClose (st : ProbeState) : ProbeState :=
  let st :=
    if negb (ok (result st))
    then setResult (withError closedMessage (result st)) st
    else st in
  let st := cleanup st in
  let reason :=
    match error (result st) with
    | Some (c :: m) => c :: m
    | _ => closedMessage
    end in
  setConnection (settle (Rejected (Error reason)) (connection st)) st.

(** The [catch] on [client.connect()]. *)
Definition onConnectRejected (e : JsError) (st : ProbeState) : ProbeState :=
  onError e st.

(** What can happen before the timer fires: an event of the object the
    listeners are on, or the end of [client.connect()]. *)
Inductive ProbeEvent :=
| EvRegistered
| EvError (e : JsError)
| EvClose
| EvConnected (library : Result IrcClientLike).

Definition step (serverNick : jsstring) (ev : ProbeEvent) (st : ProbeState)
    : ProbeState :=
  match ev with
  | EvRegistered => if listening st then onRegistered serverNick st else st
  | EvError e => if listening st then onError e st else st
  | EvClose => if listening st then onClose st else st
  | EvConnected library =>
      match connect library (wrapper st) with
      | Ok c =>
          {| result := result st; wrapper := c; internalClient := internalClient st;
             listening := listening st; connection := connection st;
             cleanups := cleanups st |}
      | Throw e => onConnectRejected e st
      end
  end.

Definition timeoutMessage (timeoutMs : N) : jsstring :=
  str "IRC probe timeout after " ++ numberToString timeoutMs ++ str "ms".

(** [await Promise.race([connection, timeout])] and the [catch]: the events
    that arrive before the timer are handled in order until [connection]
    settles; if it has not when they are over, the timer fires. *)
Fixpoint race (serverNick : jsstring) (timeoutMs : N) (events : list ProbeEvent)
    (st : ProbeState) : ProbeState :=
  match connection st with
  | Resolved => st
  | Rejected e => setResult (withError (message e) (result st)) st
  | Pending =>
      match events with
      | [] => setResult (withError (timeoutMessage timeoutMs) (result st)) st
      | ev :: events' => race serverNick timeoutMs events' (step serverNick ev st)
      end
  end.

(** The executor of the [connection] promise.  Its listeners go on the
    object read from [(client as any).client]; reading [on] from [null]
    throws, and an exception in the executor rejects the promise. *)
Definition executor (st : ProbeState) : ProbeState :=
  match internalClient st with
  | None =>
      setConnection
        (settle (Rejected (TypeError (nullPropertyMessage (str "on"))))
           (connection st)) st
  | Some _ =>
      {| result := result st; wrapper := wrapper st;
         internalClient := internalClient st; listening := true;
         connection := connection st; cleanups := cleanups st |}
  end.

(** [probeIrc(serverConfig, timeoutMs)]: the returned [result] together
    with the final state, for what the probe did to the client. *)
Definition probeIrc (serverConfig : IrcServerConfig.t) (timeoutMs : N)
    (events : list ProbeEvent) : ProbeState :=
  let result :=
    {| ok := false;
       connected := None;
       error := None;
       host := IrcServerConfig.host serverConfig;
       port := match IrcServerConfig.port serverConfig with
               | Some p => p
               | None => 6697%N
               end;
       nick := Some (IrcServerConfig.nick serverConfig) |} in
  let client :=
    createIrcClient
      {| IrcAccountConfig.enabled := Some true;
         IrcAccountConfig.server := Some serverConfig;
         IrcAccountConfig.networks := Some [] |} in
  let st :=
    executor
      {| result := result; wrapper := client; internalClient := Client.client client;
         listening := false; connection := Pending; cleanups := 0 |} in
  race (IrcServerConfig.nick serverConfig) timeoutMs events st.

End Probe.

(* ================================================================== *)
(** * Target resolution (src/irc/targets.ts, continued)                *)
(* ================================================================== *)

Module TargetResolution.

Import RegExp Targets.

Inductive TargetType := channel | dm.

Record IrcTarget := {
  type : TargetType;
  target : jsstring;
  network : option jsstring;
  server : option jsstring
}.

(** V8's message for a property read on [undefined]. *)
Definition undefinedPropertyMessage (prop : jsstring) : jsstring :=
  str "Cannot read properties of undefined (reading '" ++ prop ++ str "')".

Definition hashOrColon : list (ascii * ascii) := [("#", "#"); (":", ":")]%char.

(** [/^([^#:]+)[#:](.+)$/] *)
Definition networkRegex : Regex :=
  Seq Bol
    (Seq (Group 1 (Plus (Class true hashOrColon)))
       (Seq (One (Class false hashOrColon)) (Seq (Group 2 (Plus Dot)) Eol))).

(** [config.server.host]: the read throws when the account has no server
    block. *)
Definition serverHost (config : IrcAccountConfig.t) : Result jsstring :=
  match IrcAccountConfig.server config with
  | Some s => Ok (IrcServerConfig.host s)
  | None => Throw (TypeError (undefinedPropertyMessage (str "host")))
  end.

Definition resolveIrcTarget (input : jsstring) (config : IrcAccountConfig.t)
    : Result (option IrcTarget) :=
  let trimmed := trim input in
  match trimmed with
  | [] => Ok None
  | _ :: _ =>
      if startsWith trimmed (str "#") then
        host <- serverHost config ;;
        Ok (Some {| type := channel; target := toLowerCase trimmed;
                    network := None; server := Some host |})
      else if negb (includes trimmed " ") && test nickRegex trimmed then
        host <- serverHost config ;;
        Ok (Some {| type := dm; target := trimmed;
                    network := None; server := Some host |})
      else
        match exec networkRegex trimmed with
        | Some m =>
            let network := groupOrEmpty 1 m in
            let channelName := groupOrEmpty 2 m in
            Ok (Some {| type := channel;
                        target :=
                          if startsWith channelName (str "#")
                          then toLowerCase channelName
                          else str "#" ++ toLowerCase channelName;
                        network := Some network;
                        server := None |})
        | None => Ok None
        end
  end.

Definition formatIrcTarget (t : IrcTarget) : jsstring :=
  match type t with
  | dm => target t
  | channel => target t
  end.

Definition isIrcChannel (target : jsstring) : bool := startsWith target (str "#").

(** [/^[a-zA-Z_\-\[\]\\^{}|`]/] *)
Definition nickStartRegex : Regex := Seq Bol (One nickFirst).

Definition isIrcDm (target : jsstring) : bool :=
  negb (startsWith target (str "#")) && test nickStartRegex target.

End TargetResolution.

(* ================================================================== *)
(** * The other senders (src/irc/send.ts, continued)                   *)
(* ================================================================== *)

Module SendHelpers.

Import Client Send.

Definition sendActionIrc (c : IrcClient) (target text : jsstring)
    : option (Result IrcClient) :=
  sendMessageIrc c target text
    {| action := Some true; notice := None; split := None; splitPrefix := None |}.

Definition sendNoticeIrc (c : IrcClient) (target text : jsstring)
    : option (Result IrcClient) :=
  sendMessageIrc c target text
    {| action := None; notice := Some true; split := None; splitPrefix := None |}.

Definition reactMessageIrc (c : IrcClient) (target emote : jsstring)
    : Result IrcClient :=
  Client.action target emote c.

Definition editMessageIrc (c : IrcClient) (target originalText newText : jsstring)
    : option (Result IrcClient) :=
  sendMessageIrc c target
    (originalText ++ str " (Correction: " ++ newText ++ str ")") noOptions.

End SendHelpers.

(* ================================================================== *)
(** * The client wrapper, continued (src/irc/client.ts)                *)
(* ================================================================== *)

Module ClientEvents.

Import Client.

Fixpoint joinChannels (channels : list jsstring) (c : IrcClient) : Result IrcClient :=
  match channels with
  | [] => Ok c
  | channel :: channels' => c' <- join channel c ;; joinChannels channels' c'
  end.

Record CtcpRequest := {
  nick : jsstring;
  type : jsstring;
  params : option jsstring
}.

(** The handler [setupEventHandlers] installs for [ctcp request]; [now]
    is [new Date().toString()] at the time of the request. *)
Definition onCtcpRequest (now : jsstring) (event : CtcpRequest) (c : IrcClient)
    : Result IrcClient :=
  if eqb (type event) (str "VERSION") then
    ctcpResponse (nick event) (str "VERSION") (Some (str "OpenClaw IRC Bot v1.0")) c
  else if eqb (type event) (str "PING") then
    match params event with
    | Some (x :: p) => ctcpResponse (nick event) (str "PING") (Some (x :: p)) c
    | _ => Ok c
    end
  else if eqb (type event) (str "TIME") then
    ctcpResponse (nick event) (str "TIME") (Some now) c
  else if eqb (type event) (str "SOURCE") then
    ctcpResponse (nick event) (str "SOURCE")
      (Some (str "https://github.com/openclaw/openclaw")) c
  else Ok c.

(** [getChannels()]; [channelList] is what the library client answers:
    the keys of its channel map, or [None] when it has no such method or
    the method returns [undefined]. *)
Definition getChannels (channelList : option (list jsstring)) (c : IrcClient)
    : list jsstring :=
  match client c, channelList with
  | Some _, Some names => names
  | _, _ => []
  end.

Definition inChannel (channelList : option (list jsstring)) (c : IrcClient)
    (channel : jsstring) : bool :=
  existsb (eqb (toLowerCase channel)) (getChannels channelList c).

End ClientEvents.

(* ================================================================== *)
(** * Configuration helpers (src/irc/config-helpers.ts)                *)
(* ================================================================== *)

Module ConfigHelpers.

(** Truthiness of a string and of an optional number. *)
Definition nonEmpty (s : jsstring) : bool :=
  match s with [] => false | _ :: _ => true end.

Definition truthyNumber (n : option N) : bool :=
  match n with
  | Some n => negb (N.eqb n 0)
  | None => false
  end.

(** [Boolean(server && server.host && server.nick &&
    (server.port || (server.tls !== false && 6697) || (!server.tls && 6667)))],
    with [server = serverConfig || account.server]. *)
Definition isAccountConfigured (account : IrcAccountConfig.t)
    (serverConfig : option IrcServerConfig.t) : bool :=
  let server :=
    match serverConfig with
    | Some s => Some s
    | None => IrcAccountConfig.server account
    end in
  match server with
  | None => false
  | Some server =>
      nonEmpty (IrcServerConfig.host server) &&
      nonEmpty (IrcServerConfig.nick server) &&
      (truthyNumber (IrcServerConfig.port server)
       || (notDisabled (IrcServerConfig.tls server) && truthyNumber (Some 6697%N))
       || (negb (match IrcServerConfig.tls server with Some true => true | _ => false end)
           && truthyNumber (Some 6667%N)))
  end.

Definition isAccountEnabled (account : IrcAccountConfig.t) : bool :=
  notDisabled (IrcAccountConfig.enabled account).

Record AccountDescription := {
  accountId : jsstring;
  enabled : bool;
  configured : bool
}.

Definition describeAccount (DEFAULT_ACCOUNT_ID : jsstring) (account : IrcAccountConfig.t)
    : AccountDescription :=
  {| accountId := DEFAULT_ACCOUNT_ID;
     enabled := isAccountEnabled account;
     configured := isAccountConfigured account (IrcAccountConfig.server account) |}.

Definition formatAllowFrom (allowFrom : list jsstring) : list jsstring :=
  map toLowerCase (filter nonEmpty (map trim allowFrom)).

Record AccountStatus := {
  statusAccountId : jsstring;
  statusConfigured : option bool
}.

Definition issueFor (accountId : jsstring) : jsstring :=
  accountId ++ str ": IRC not configured (missing server config)".

Definition collectStatusIssues (accounts : list AccountStatus) : list jsstring :=
  flat_map
    (fun account =>
       match statusConfigured account with
       | Some true => []
       | _ => [issueFor (statusAccountId account)]
       end)
    accounts.

End ConfigHelpers.

(* ================================================================== *)
(** * Channel lookup (src/irc/monitor.ts, continued)                   *)
(* ================================================================== *)

Module NetworkConfig.

Fixpoint findChannel (networks : Dict IrcNetworkEntry.t) (target : jsstring)
    : option IrcChannelConfig.t :=
  match networks with
  | [] => None
  | (_, networkConfig) :: networks' =>
      let channels :=
        match IrcNetworkEntry.channels networkConfig with
        | Some channels => channels
        | None => []
        end in
      match get channels target with
      | Some channelConfig => Some channelConfig
      | None => findChannel networks' target
      end
  end.

Definition resolveIrcNetworkConfig (config : IrcAccountConfig.t) (target : jsstring)
    : option IrcChannelConfig.t :=
  if negb (startsWith target (str "#")) then None
  else
    findChannel
      (match IrcAccountConfig.networks config with
       | Some networks => networks
       | None => []
       end)
      target.

End NetworkConfig.

(* ================================================================== *)
(** * The high-level sender (src/irc/send-wrapper.ts)                  *)
(* ================================================================== *)

Module SendWrapper.

Import Client.

Record IrcSendOpts := {
  accountId : option jsstring;
  action : option bool;
  notice : option bool
}.

(** The environment of the module: the session-key constants, what
    [loadConfig()] returns where [getIrcClient] calls it and where
    [monitorIrcProvider] calls it, and the outcome of loading the library. *)
Record Env := {
  DEFAULT_ACCOUNT_ID : jsstring;
  normalizeAccountId : jsstring -> option jsstring;
  loadedConfig : OpenClawConfig.t;
  monitorConfig : OpenClawConfig.t;
  library : Result IrcClientLike
}.

(** [activeClients], a [Map] from account identifier to client. *)
Definition Registry := Dict IrcClient.

Definition getIrcClient (env : Env) (activeClients : Registry)
    (accountId : option jsstring) : Result (IrcClient * Registry) :=
  account <- AccountsResolver.resolveIrcAccount (DEFAULT_ACCOUNT_ID env)
               (normalizeAccountId env) (loadedConfig env) accountId ;;
  let key := ResolvedIrcAccount.accountId account in
  match get activeClients key with
  | Some client => Ok (client, activeClients)
  | None =>
      handle <- Monitor.monitorIrcProvider (DEFAULT_ACCOUNT_ID env)
                  (normalizeAccountId env) (library env) (monitorConfig env)
                  accountId ;;
      Ok (Monitor.client handle, activeClients ++ [(key, Monitor.client handle)])
  end.

Record Sent := {
  target : jsstring;
  text : jsstring
}.

(** [sendMessageIrc(to, text, opts)]: what it returns, the client after the
    call and the registry after the call. *)
Definition sendMessageIrc (env : Env) (activeClients : Registry)
    (to text : jsstring) (opts : IrcSendOpts)
    : Result (Sent * IrcClient * Registry) :=
  found <- getIrcClient env activeClients (accountId opts) ;;
  let target := if startsWith to (str "#") then toLowerCase to else to in
  client' <-
    (if Send.truthy (action opts) then Client.action target text (fst found)
     else if Send.truthy (notice opts) then Client.notice target text (fst found)
     else Client.say target text (fst found)) ;;
  Ok ({| target := target; text := text |}, client', snd found).

End SendWrapper.

(* ================================================================== *)
(** * The plugin's resolver (extensions/irc/index.ts)                  *)
(* ================================================================== *)

Module Plugin.

Record ChannelResolveResult := {
  input : jsstring;
  resolved : bool;
  id : option jsstring;
  note : option jsstring
}.

Definition invalidTargetNote : jsstring :=
  str "Invalid IRC target (use #channel or nick)".

Definition resolveOne (input : jsstring) : ChannelResolveResult :=
  match Targets.normalizeIrcMessagingTarget input with
  | Some (c :: key) =>
      {| input := input; resolved := true; id := Some (c :: key); note := None |}
  | _ =>
      {| input := input; resolved := false; id := None;
         note := Some invalidTargetNote |}
  end.

(** [resolver.resolveTargets]: the loop pushes one result per input. *)
Definition resolveTargets (inputs : list jsstring) : list ChannelResolveResult :=
  map resolveOne inputs.

End Plugin.

(* ================================================================== *)
(** * Vocabulary of the statements                                     *)
(* ================================================================== *)

Module Spec.

Import Client Send.

(** A string of whitespace only. *)
Definition blank (w : jsstring) : bool := forallb isWhiteSpace w.

(** A string without whitespace. *)
Definition solid (s : jsstring) : bool := forallb (fun c => negb (isWhiteSpace c)) s.

Definition isPunctuation (c : ascii) : bool :=
  existsb (Ascii.eqb c) (str ".,;!?").

Definition endsWithPunctuation (chunk : jsstring) : bool :=
  match rev chunk with
  | c :: _ => isPunctuation c
  | [] => false
  end.

(** A chunk is within the budget, unless the cut fell right after a
    punctuation mark at index 400. *)
Definition chunkOk (chunk : jsstring) : Prop :=
  length chunk <= 400 \/ endsWithPunctuation chunk = true.


(** The chunks with the whitespace dropped between them put back. *)
Definition interleave (chunks gaps : list jsstring) : jsstring :=
  concat (map (fun p => fst p ++ snd p) (combine chunks gaps)).

(** The messages of the [for] loop for a list of chunks, in order. *)
Definition messagesFor (o : SendOptions) (chunks : list jsstring) : list jsstring :=
  map (fun ic => decorate o (fst ic) (length chunks) (snd ic))
    (combine (seq 0 (length chunks)) chunks).

(** The library call a message is sent with. *)
Definition callFor (o : SendOptions) (target message : jsstring) : IrcCall :=
  if truthy (action o) then Action target message
  else if truthy (notice o) then Notice target message
  else Say target message.

(** A chunk behind the split prefix and a space, when there is a prefix. *)
Definition prefixed (o : SendOptions) (chunk : jsstring) : jsstring :=
  match splitPrefix o with
  | Some (p :: prefix) => (p :: prefix) ++ str " " ++ chunk
  | _ => chunk
  end.

(** What a message can carry besides its chunk: the split prefix and a
    space in front, the continuation marker behind. *)
Definition overhead (o : SendOptions) : nat :=
  match splitPrefix o with
  | Some prefix => length prefix + 1
  | None => 0
  end + length continuation.

(** The longest prefix of characters that satisfy [p], and what follows. *)
Fixpoint takeWhile (p : ascii -> bool) (s : jsstring) : jsstring :=
  match s with
  | [] => []
  | c :: s' => if p c then c :: takeWhile p s' else []
  end.

Definition isColon (c : ascii) : bool := Ascii.eqb c ":".

(** A string of the shape [irc:<account>:<first><more>]: a non-empty
    account without colon, and after the second colon a character that is
    not a line terminator. *)
Definition hasKeyShape (t : jsstring) : bool :=
  startsWith t (str "irc:") &&
  let rest := skipn 4 t in
  match takeWhile (fun c => negb (isColon c)) rest,
        dropWhile (fun c => negb (isColon c)) rest with
  | _ :: _, _ :: x :: _ => negb (isLineTerminator x)
  | _, _ => false
  end.

(** The characters of [[a-z0-9_-]]. *)
Definition isAccountChar (c : ascii) : bool :=
  inRange 97 122 c || inRange 48 57 c || Ascii.eqb c "_" || Ascii.eqb c "-".

(** The nick grammar: a letter or one of the special characters, then
    letters, digits and special characters. *)
Definition isNickSpecial (c : ascii) : bool :=
  existsb (Ascii.eqb c) (str "_-[]\^{}|`").

Definition isLetter (c : ascii) : bool := inRange 97 122 c || inRange 65 90 c.

Definition isDigit (c : ascii) : bool := inRange 48 57 c.

Definition isNick (t : jsstring) : bool :=
  match t with
  | [] => false
  | c :: t' =>
      (isLetter c || isNickSpecial c) &&
      forallb (fun x => isLetter x || isDigit x || isNickSpecial x) t'
  end.

(** Wildcard matching anchored at both ends: a star stands for any run
    of characters that satisfy [run], every other character for itself. *)
Fixpoint anyRun (run : ascii -> bool) (k : jsstring -> bool) (s : jsstring) : bool :=
  k s ||
  match s with
  | x :: s' => run x && anyRun run k s'
  | [] => false
  end.

Fixpoint wildcardMatch (run : ascii -> bool) (pattern s : jsstring) : bool :=
  match pattern with
  | [] => match s with [] => true | _ :: _ => false end
  | c :: pattern' =>
      if Ascii.eqb c "*" then anyRun run (wildcardMatch run pattern') s
      else
        match s with
        | x :: s' => Ascii.eqb x c && wildcardMatch run pattern' s'
        | [] => false
        end
  end.

(** The expression a plain pattern stands for, behind the [^]. *)
Fixpoint wildcardBody (pattern : jsstring) : RegExp.Regex :=
  match pattern with
  | [] => RegExp.Seq RegExp.Eol RegExp.Empty
  | c :: pattern' =>
      if Ascii.eqb c "*"
      then RegExp.Seq (RegExp.Star RegExp.Dot) (wildcardBody pattern')
      else RegExp.Seq (RegExp.One (RegExp.Chr c)) (wildcardBody pattern')
  end.

Definition nickListed (nick : jsstring) (allowlist : list jsstring) : bool :=
  existsb (fun u => eqb (toLowerCase u) (toLowerCase nick)) allowlist.

(** [isAllowed] as C4 words it: open for the empty list; otherwise the
    nick is listed, or the hostname matches an entry, the star standing for
    any run of characters. *)
Definition isAllowedAsStated (nick hostname : jsstring) (allowlist : list jsstring)
    : bool :=
  match allowlist with
  | [] => true
  | _ :: _ =>
      nickListed nick allowlist ||
      existsb (fun u => wildcardMatch (fun _ => true) u hostname) allowlist
  end.

(** An entry whose only pattern character is the star. *)
Definition plainChar (c : ascii) : bool :=
  Ascii.eqb c "*" || negb (RegExp.isSyntaxCharacter c).

Definition plainEntry (u : jsstring) : bool := forallb plainChar u.

(** A channel configuration with the given allowlist. *)
Definition channelWith (allowlist : list jsstring) : option Monitor.PolicyConfig :=
  Some (Monitor.OfChannel
          {| IrcChannelConfig.allow := None;
             IrcChannelConfig.requireMention := None;
             IrcChannelConfig.enabled := None;
             IrcChannelConfig.users := Some allowlist |}).

(** What [isUserAllowed] computes on plain entries: the comparison is on
    the lower-cased strings, an empty hostname matches nothing, and a star
    stands for a run without line terminators. *)
Definition isAllowedAmended (nick hostname : jsstring) (allowlist : list jsstring)
    : bool :=
  match allowlist with
  | [] => true
  | _ :: _ =>
      nickListed nick allowlist ||
      (match hostname with [] => false | _ :: _ => true end &&
       existsb (fun u => wildcardMatch (fun c => negb (isLineTerminator c))
                           (toLowerCase u) (toLowerCase hostname))
         allowlist)
  end.

(** A server block, an account with it, and a configuration that has an
    [accounts] map with that account but no top-level server block. *)
Definition libera : IrcServerConfig.t :=
  {| IrcServerConfig.host := str "irc.libera.chat";
     IrcServerConfig.port := None;
     IrcServerConfig.tls := None;
     IrcServerConfig.password := None;
     IrcServerConfig.nick := str "claw";
     IrcServerConfig.username := None;
     IrcServerConfig.gecos := None |}.

Definition workAccount : IrcAccountConfig.t :=
  {| IrcAccountConfig.enabled := None;
     IrcAccountConfig.server := Some libera;
     IrcAccountConfig.networks := None |}.

Definition accountsOnly : OpenClawConfig.t :=
  {| OpenClawConfig.irc :=
       Some {| OpenClawConfig.top :=
                 {| IrcAccountConfig.enabled := None;
                    IrcAccountConfig.server := None;
                    IrcAccountConfig.networks := None |};
               OpenClawConfig.accounts := Some [(str "work", workAccount)] |} |}.

(** The identifier the resolvers look up: the normalised input, or the
    default when the input is absent or empty. *)
Definition requestedId (normalizeAccountId : jsstring -> option jsstring)
    (fallback : jsstring) (inputAccountId : option jsstring) : jsstring :=
  match inputAccountId with
  | Some (c :: id) => Accounts.normalized normalizeAccountId (c :: id)
  | _ => fallback
  end.

(** A connected client and the options of a caller who asks for splitting,
    used to run the pipeline on concrete texts. *)
Definition readyClient : IrcClient :=
  {| options := {| server := None; autoReconnect := Some true |};
     client := Some {| calls := []; assignedNick := None |};
     connected := true;
     registered := true |}.

Definition splitting : SendOptions :=
  {| action := None; notice := None; split := Some true; splitPrefix := None |}.

Definition opsNetwork : Dict IrcNetworkEntry.t :=
  [(str "libera",
    {| IrcNetworkEntry.requireMention := None;
       IrcNetworkEntry.users := None;
       IrcNetworkEntry.channels :=
         Some [(str "ops",
                {| IrcChannelConfig.allow := None;
                   IrcChannelConfig.requireMention := None;
                   IrcChannelConfig.enabled := None;
                   IrcChannelConfig.users := None |})] |})].

Definition opsEnv : Monitor.MonitorEnv :=
  {| Monitor.serverConfig := libera;
     Monitor.config :=
       {| IrcAccountConfig.enabled := None;
          IrcAccountConfig.server := Some libera;
          IrcAccountConfig.networks := Some opsNetwork |} |}.

(** The probe with its listeners in place on a library client [lib]: the
    state the executor would leave if [(client as any).client] held one. *)
Definition listeningProbe (lib : IrcClientLike) : Probe.ProbeState :=
  Probe.executor
    {| Probe.result :=
         {| Probe.ok := false; Probe.connected := None; Probe.error := None;
            Probe.host := IrcServerConfig.host libera; Probe.port := 6697%N;
            Probe.nick := Some (IrcServerConfig.nick libera) |};
       Probe.wrapper :=
         {| options := {| server := Some libera; autoReconnect := Some true |};
            client := Some lib; connected := true; registered := false |};
       Probe.internalClient := Some lib;
       Probe.listening := false;
       Probe.connection := Probe.Pending;
       Probe.cleanups := 0 |}.

End Spec.

(* ================================================================== *)
(** * Vocabulary of the amended statements                             *)
(* ================================================================== *)

Module SpecAmended.

Import Client Send Spec.

(** The continuation marker. *)
Definition marker : jsstring := str " ...".

(** The messages of a list of chunks, in the order of the chunks: the
    first chunk as it is, every later chunk behind the split prefix and a
    space, and the marker behind every message but the last. *)
Fixpoint framedFrom (o : SendOptions) (first : bool) (chunks : list jsstring)
    : list jsstring :=
  match chunks with
  | [] => []
  | chunk :: rest =>
      let message := if first then chunk else prefixed o chunk in
      match rest with
      | [] => [message]
      | _ :: _ => (message ++ marker) :: framedFrom o false rest
      end
  end.

Definition framed (o : SendOptions) (chunks : list jsstring) : list jsstring :=
  framedFrom o true chunks.

(** The number of whitespace characters a string starts with, and the
    length of the longest run of whitespace characters in a string. *)
Definition leadingBlanks (s : jsstring) : nat := length (takeWhile isWhiteSpace s).

Fixpoint longestBlankRun (s : jsstring) : nat :=
  match s with
  | [] => 0
  | c :: s' => Nat.max (leadingBlanks (c :: s')) (longestBlankRun s')
  end.

(** An entry that, if it has a star, has no other pattern character: the
    entries without a star are compared as they are. *)
Definition starredPlain (u : jsstring) : bool :=
  negb (includes u "*") || plainEntry u.

(** The prefix [irc:], when the string has it in some letter case, is
    written in lower case. *)
Definition prefixInLowerCase (t : jsstring) : bool :=
  negb (startsWith (toLowerCase t) (str "irc:")) || startsWith t (str "irc:").

(** [normalize] in the words of C6, with whitespace as the code treats it:
    trim; a string of the key shape, whatever the case of its prefix, is
    lower-cased; anything that starts with [#], and any nick, becomes a key
    of the default account; the rest is refused. *)
Definition normalizeAmended (raw : jsstring) : option jsstring :=
  let t := trim raw in
  if hasKeyShape (toLowerCase t) then Some (toLowerCase t)
  else if startsWith t (str "#") || isNick t
  then Some (str "irc:default:" ++ toLowerCase t)
  else None.

(** A text of 1000 characters with two runs of 99 blanks. *)
Definition twoLongRuns : jsstring :=
  repeat "a"%char 400 ++ str "." ++ repeat " "%char 99
    ++ repeat "b"%char 400 ++ str "." ++ repeat " "%char 99.


(** A configuration in single-account mode: the top-level block carries
    the server. *)
Definition singleAccount : OpenClawConfig.t :=
  {| OpenClawConfig.irc :=
       Some {| OpenClawConfig.top := workAccount;
               OpenClawConfig.accounts := None |} |}.

End SpecAmended.

(* ================================================================== *)
(** * Vocabulary of the further statements                             *)
(* ================================================================== *)

Module SpecMore.

Import Client Send Spec.

Definition isHash (c : ascii) : bool := Ascii.eqb c "#".

(** Neither [#] nor [:]. *)
Definition plainNameChar (c : ascii) : bool := negb (isHash c) && negb (isColon c).

(** The channel name [resolveIrcTarget] gives for the part after the
    network. *)
Definition hashed (channelName : jsstring) : jsstring :=
  if startsWith channelName (str "#") then toLowerCase channelName
  else str "#" ++ toLowerCase channelName.

(** A text without whitespace and without the five punctuation marks: one
    that can only be cut hard. *)
Definition unbreakable (s : jsstring) : bool :=
  forallb (fun c => negb (isWhiteSpace c) && negb (isPunctuation c)) s.

Definition startsBlank (s : jsstring) : bool :=
  match s with c :: _ => isWhiteSpace c | [] => false end.

Definition endsBlank (s : jsstring) : bool := startsBlank (rev s).

(** A configuration with a top-level server block and one account. *)
Definition withTopServer : OpenClawConfig.t :=
  {| OpenClawConfig.irc :=
       Some {| OpenClawConfig.top := workAccount;
               OpenClawConfig.accounts := Some [(str "work", workAccount)] |} |}.

(** Two accounts, the first of them disabled. *)
Definition oneDisabled : OpenClawConfig.t :=
  {| OpenClawConfig.irc :=
       Some {| OpenClawConfig.top := workAccount;
               OpenClawConfig.accounts :=
                 Some [(str "old",
                        {| IrcAccountConfig.enabled := Some false;
                           IrcAccountConfig.server := Some libera;
                           IrcAccountConfig.networks := None |});
                       (str "work", workAccount)] |} |}.

(** An account whose only channel is stored under [#ops], with an
    allowlist. *)
Definition hashedOps : IrcAccountConfig.t :=
  {| IrcAccountConfig.enabled := None;
     IrcAccountConfig.server := Some libera;
     IrcAccountConfig.networks :=
       Some [(str "libera",
              {| IrcNetworkEntry.requireMention := None;
                 IrcNetworkEntry.users := None;
                 IrcNetworkEntry.channels :=
                   Some [(str "#ops",
                          {| IrcChannelConfig.allow := None;
                             IrcChannelConfig.requireMention := None;
                             IrcChannelConfig.enabled := None;
                             IrcChannelConfig.users := Some [str "alice"] |})] |})] |}.

(** The keys of all channel maps of a configuration. *)
Definition channelKeys (networks : Dict IrcNetworkEntry.t) : list jsstring :=
  flat_map
    (fun network =>
       match IrcNetworkEntry.channels (snd network) with
       | Some channels => keys channels
       | None => []
       end)
    networks.

End SpecMore.

(* ================================================================== *)
(** * Facts about the string primitives                                *)
(* ================================================================== *)

Module JSFacts.

Lemma eqb_eq (a b : jsstring) : eqb a b = true <-> a = b.
Proof.
  unfold eqb. destruct (list_eq_dec ascii_dec a b); split; congruence.
Qed.

Lemma eqb_refl (a : jsstring) : eqb a a = true.
Proof. now apply eqb_eq. Qed.

Lemma eqb_neq (a b : jsstring) : eqb a b = false <-> a <> b.
Proof.
  unfold eqb. destruct (list_eq_dec ascii_dec a b); split; congruence.
Qed.

Lemma dropWhile_split (p : ascii -> bool) (s : jsstring) :
  exists w, forallb p w = true /\ s = w ++ dropWhile p s.
Proof.
  induction s as [|c s IH]; simpl.
  - now exists [].
  - destruct (p c) eqn:Hc.
    + destruct IH as (w & Hw & Hs).
      exists (c :: w). simpl. rewrite Hc, Hw. split; [reflexivity|].
      now rewrite <- Hs.
    + now exists [].
Qed.

Lemma dropWhile_length (p : ascii -> bool) (s : jsstring) :
  length (dropWhile p s) <= length s.
Proof.
  destruct (dropWhile_split p s) as (w & _ & Hs).
  rewrite Hs at 2. rewrite length_app. lia.
Qed.

Lemma dropWhile_head (p : ascii -> bool) (s : jsstring) (c : ascii) (t : jsstring) :
  dropWhile p s = c :: t -> p c = false.
Proof.
  induction s as [|x s IH]; simpl; [discriminate|].
  destruct (p x) eqn:Hx; [exact IH|].
  intros H. now inversion H; subst.
Qed.

Lemma dropWhile_id (p : ascii -> bool) (c : ascii) (s : jsstring) :
  p c = false -> dropWhile p (c :: s) = c :: s.
Proof. intros H. simpl. now rewrite H. Qed.

Lemma forallb_rev (p : ascii -> bool) (w : jsstring) :
  forallb p (rev w) = forallb p w.
Proof.
  induction w as [|c w IH]; simpl; [reflexivity|].
  rewrite forallb_app, IH. simpl. rewrite andb_true_r. apply andb_comm.
Qed.

Lemma trimStart_split (s : jsstring) :
  exists w, forallb isWhiteSpace w = true /\ s = w ++ trimStart s.
Proof. apply dropWhile_split. Qed.

Lemma trimEnd_split (s : jsstring) :
  exists w, forallb isWhiteSpace w = true /\ s = trimEnd s ++ w.
Proof.
  unfold trimEnd.
  destruct (dropWhile_split isWhiteSpace (rev s)) as (w & Hw & Hs).
  exists (rev w). split.
  - now rewrite forallb_rev.
  - rewrite <- rev_app_distr, <- Hs. now rewrite rev_involutive.
Qed.

Lemma trimEnd_length (s : jsstring) : length (trimEnd s) <= length s.
Proof.
  destruct (trimEnd_split s) as (w & _ & Hs).
  rewrite Hs at 2. rewrite length_app. lia.
Qed.

Lemma trimStart_length (s : jsstring) : length (trimStart s) <= length s.
Proof. apply dropWhile_length. Qed.

Lemma trimEnd_snoc_ws (s : jsstring) (c : ascii) :
  isWhiteSpace c = true -> trimEnd (s ++ [c]) = trimEnd s.
Proof.
  intros H. unfold trimEnd. rewrite rev_app_distr. simpl. now rewrite H.
Qed.

Lemma trimEnd_snoc_other (s : jsstring) (c : ascii) :
  isWhiteSpace c = false -> trimEnd (s ++ [c]) = s ++ [c].
Proof.
  intros H. unfold trimEnd. rewrite rev_app_distr. simpl. rewrite H.
  simpl. now rewrite rev_involutive.
Qed.

Lemma trimStart_id (s : jsstring) :
  forallb (fun c => negb (isWhiteSpace c)) s = true -> trimStart s = s.
Proof.
  destruct s as [|c s]; [reflexivity|]. simpl.
  intros H. apply andb_true_iff in H as [H _].
  unfold trimStart. simpl. now destruct (isWhiteSpace c).
Qed.

Lemma trimEnd_id (s : jsstring) :
  forallb (fun c => negb (isWhiteSpace c)) s = true -> trimEnd s = s.
Proof.
  intros H. destruct (rev s) as [|c r] eqn:Hr.
  - unfold trimEnd. rewrite Hr. simpl.
    apply (f_equal (@rev ascii)) in Hr. now rewrite rev_involutive in Hr.
  - assert (Hs : s = rev r ++ [c]).
    { apply (f_equal (@rev ascii)) in Hr. now rewrite rev_involutive in Hr. }
    rewrite Hs in *. rewrite forallb_app in H. apply andb_true_iff in H as [_ H].
    simpl in H. apply trimEnd_snoc_other. now destruct (isWhiteSpace c).
Qed.

(** [lastIndexOf] returns [-1] or an index at most [fromIndex] that holds
    the character searched. *)
Lemma lastIndexOfFrom_spec (c : ascii) (s : jsstring) :
  forall i fromIndex found,
    let r := lastIndexOfFrom c s i fromIndex found in
    r = found \/
    ((i <= r <= fromIndex)%Z /\ (r < i + Z.of_nat (length s))%Z /\
     nth_error s (Z.to_nat (r - i)) = Some c).
Proof.
  induction s as [|x s IH]; intros i fromIndex found; simpl.
  - now left.
  - destruct (i <=? fromIndex)%Z eqn:Hi; [|now left].
    apply Z.leb_le in Hi.
    destruct (IH (i + 1)%Z fromIndex (if Ascii.eqb x c then i else found))
      as [H | (H1 & H2 & H3)].
    + rewrite H. destruct (Ascii.eqb x c) eqn:Hx; [|now left].
      right. apply Ascii.eqb_eq in Hx. subst x.
      rewrite Z.sub_diag. simpl. repeat split; lia.
    + right. repeat split; try lia.
      replace (Z.to_nat (lastIndexOfFrom c s (i + 1) fromIndex
                 (if Ascii.eqb x c then i else found) - i))
        with (S (Z.to_nat (lastIndexOfFrom c s (i + 1) fromIndex
                 (if Ascii.eqb x c then i else found) - (i + 1)))) by lia.
      exact H3.
Qed.

Lemma lastIndexOf_spec (s : jsstring) (c : ascii) (fromIndex : Z) :
  lastIndexOf s c fromIndex = (-1)%Z \/
  ((0 <= lastIndexOf s c fromIndex <= fromIndex)%Z /\
   (lastIndexOf s c fromIndex < Z.of_nat (length s))%Z /\
   nth_error s (Z.to_nat (lastIndexOf s c fromIndex)) = Some c).
Proof.
  unfold lastIndexOf.
  destruct (lastIndexOfFrom_spec c s 0 fromIndex (-1)) as [H | (H1 & H2 & H3)].
  - now left.
  - right. rewrite Z.sub_0_r in H3. repeat split; try lia. exact H3.
Qed.

Lemma lastIndexOfFrom_absent (c : ascii) (s : jsstring) :
  forallb (fun x => negb (Ascii.eqb x c)) s = true ->
  forall i fromIndex found, lastIndexOfFrom c s i fromIndex found = found.
Proof.
  induction s as [|x s IH]; intros H i fromIndex found; simpl; [reflexivity|].
  simpl in H. apply andb_true_iff in H as [Hx Hs].
  destruct (i <=? fromIndex)%Z; [|reflexivity].
  rewrite IH by exact Hs. now destruct (Ascii.eqb x c).
Qed.

Lemma lastIndexOf_absent (s : jsstring) (c : ascii) (fromIndex : Z) :
  forallb (fun x => negb (Ascii.eqb x c)) s = true ->
  lastIndexOf s c fromIndex = (-1)%Z.
Proof. intros H. now apply lastIndexOfFrom_absent. Qed.

Lemma startsWith_app (p x : jsstring) : startsWith (p ++ x) p = true.
Proof.
  induction p as [|c p IH]; simpl; [now destruct x|].
  now rewrite Ascii.eqb_refl, IH.
Qed.

Lemma relIndex_inside (len i : Z) :
  (0 <= i <= len)%Z -> relIndex len i = i.
Proof.
  intros H. unfold relIndex.
  destruct (i <? 0)%Z eqn:Hi; [apply Z.ltb_lt in Hi; lia|].
  apply Z.min_l. lia.
Qed.

Lemma slice_prefix (s : jsstring) (i : Z) :
  (0 <= i <= Z.of_nat (length s))%Z ->
  slice s 0 i = firstn (Z.to_nat i) s.
Proof.
  intros H. unfold slice.
  rewrite !relIndex_inside by lia.
  simpl. now rewrite Z.sub_0_r.
Qed.

Lemma sliceFrom_suffix (s : jsstring) (i : Z) :
  (0 <= i <= Z.of_nat (length s))%Z ->
  sliceFrom s i = skipn (Z.to_nat i) s.
Proof.
  intros H. unfold sliceFrom, slice.
  rewrite !relIndex_inside by lia.
  apply firstn_all2. rewrite length_skipn. lia.
Qed.

End JSFacts.

(* ================================================================== *)
(** * Facts about the delivery pipeline                                *)
(* ================================================================== *)

Module SendFacts.

Import Client Send Spec JSFacts.

Lemma firstn_snoc (s : jsstring) (n : nat) (c : ascii) :
  nth_error s n = Some c -> firstn (S n) s = firstn n s ++ [c].
Proof.
  revert n. induction s as [|x s IH]; intros [|n] H; simpl in *; try discriminate.
  - now inversion H.
  - now rewrite (IH n H).
Qed.

Lemma punctuation_not_blank (c : ascii) :
  isPunctuation c = true -> isWhiteSpace c = false.
Proof.
  unfold isPunctuation. simpl. rewrite !orb_true_iff.
  intros [H|[H|[H|[H|[H|H]]]]]; try discriminate;
    apply Ascii.eqb_eq in H; subst; reflexivity.
Qed.

Lemma lastPunctuation_spec (r : jsstring) :
  lastPunctuation r = (-1)%Z \/
  ((0 <= lastPunctuation r <= MAX_LENGTH)%Z /\
   (lastPunctuation r < Z.of_nat (length r))%Z /\
   exists c, isPunctuation c = true /\
             nth_error r (Z.to_nat (lastPunctuation r)) = Some c).
Proof.
  unfold lastPunctuation.
  pose proof (lastIndexOf_spec r "." MAX_LENGTH) as H1.
  pose proof (lastIndexOf_spec r "," MAX_LENGTH) as H2.
  pose proof (lastIndexOf_spec r ";" MAX_LENGTH) as H3.
  pose proof (lastIndexOf_spec r "!" MAX_LENGTH) as H4.
  pose proof (lastIndexOf_spec r "?" MAX_LENGTH) as H5.
  set (a1 := lastIndexOf r "." MAX_LENGTH) in *.
  set (a2 := lastIndexOf r "," MAX_LENGTH) in *.
  set (a3 := lastIndexOf r ";" MAX_LENGTH) in *.
  set (a4 := lastIndexOf r "!" MAX_LENGTH) in *.
  set (a5 := lastIndexOf r "?" MAX_LENGTH) in *.
  set (m := Z.max a1 (Z.max a2 (Z.max a3 (Z.max a4 a5)))).
  assert (Hmax : m = a1 \/ m = a2 \/ m = a3 \/ m = a4 \/ m = a5)
    by (subst m; lia).
  destruct Hmax as [E|[E|[E|[E|E]]]]; rewrite E;
    [destruct H1 as [H|(Ha & Hb & Hc)] | destruct H2 as [H|(Ha & Hb & Hc)]
    |destruct H3 as [H|(Ha & Hb & Hc)] | destruct H4 as [H|(Ha & Hb & Hc)]
    |destruct H5 as [H|(Ha & Hb & Hc)]];
    try (now left);
    right; (split; [exact Ha|]); (split; [exact Hb|]);
    eexists; (split; [|exact Hc]); reflexivity.
Qed.

(** A cut right after an index that holds a blank or a punctuation mark. *)
Lemma cut_after (r : jsstring) (j : Z) (c : ascii) :
  (300 < j <= MAX_LENGTH)%Z ->
  (j < Z.of_nat (length r))%Z ->
  nth_error r (Z.to_nat j) = Some c ->
  isWhiteSpace c = true \/ isPunctuation c = true ->
  (302 <= j + 1 <= Z.of_nat (length r))%Z /\
  ((j + 1 <= MAX_LENGTH)%Z \/
   (j + 1 = MAX_LENGTH + 1)%Z /\
   exists c, nth_error r 400 = Some c /\
             (isWhiteSpace c = true \/ isPunctuation c = true)).
Proof.
  unfold MAX_LENGTH. intros Hj Hlen Hnth Hc. split; [lia|].
  destruct (Z.eq_dec j 400) as [E|E]; [|left; lia].
  right. split; [lia|]. exists c. subst j. now split.
Qed.

(** [cutKind] names the branch [splitIndex] takes. *)
Lemma splitIndex_by_cutKind (r : jsstring) :
  splitIndex r =
  match cutKind r with
  | AtNewline => (lastIndexOf r newline MAX_LENGTH + 1)%Z
  | AtSpace => (lastIndexOf r " " MAX_LENGTH + 1)%Z
  | AtPunctuation => (lastPunctuation r + 1)%Z
  | HardCut => MAX_LENGTH
  end.
Proof.
  unfold splitIndex, cutKind.
  destruct (lastIndexOf r newline MAX_LENGTH >? MAX_LENGTH - 100)%Z; [reflexivity|].
  destruct (lastIndexOf r " " MAX_LENGTH >? MAX_LENGTH - 50)%Z; [reflexivity|].
  now destruct (lastPunctuation r >? MAX_LENGTH - 50)%Z.
Qed.

(** The index the loop cuts at, when the remainder exceeds the budget. *)
Lemma splitIndex_spec (r : jsstring) :
  (Z.of_nat (length r) > MAX_LENGTH)%Z ->
  (302 <= splitIndex r <= Z.of_nat (length r))%Z /\
  ((splitIndex r <= MAX_LENGTH)%Z \/
   (splitIndex r = MAX_LENGTH + 1)%Z /\
   exists c, nth_error r 400 = Some c /\
             (isWhiteSpace c = true \/ isPunctuation c = true)).
Proof.
  intros Hlen. unfold splitIndex.
  destruct (lastIndexOf r newline MAX_LENGTH >? MAX_LENGTH - 100)%Z eqn:Hn.
  { apply Z.gtb_lt in Hn.
    destruct (lastIndexOf_spec r newline MAX_LENGTH) as [H | (H1 & H2 & H3)];
      [unfold MAX_LENGTH in *; lia|].
    apply cut_after with (c := newline);
      [unfold MAX_LENGTH in *; lia | lia | exact H3 | now left]. }
  destruct (lastIndexOf r " " MAX_LENGTH >? MAX_LENGTH - 50)%Z eqn:Hs.
  { apply Z.gtb_lt in Hs.
    destruct (lastIndexOf_spec r " " MAX_LENGTH) as [H | (H1 & H2 & H3)];
      [unfold MAX_LENGTH in *; lia|].
    apply cut_after with (c := " "%char);
      [unfold MAX_LENGTH in *; lia | lia | exact H3 | now left]. }
  destruct (lastPunctuation r >? MAX_LENGTH - 50)%Z eqn:Hp.
  { apply Z.gtb_lt in Hp.
    destruct (lastPunctuation_spec r) as [H | (H1 & H2 & c & Hc & H3)];
      [unfold MAX_LENGTH in *; lia|].
    apply cut_after with (c := c);
      [unfold MAX_LENGTH in *; lia | lia | exact H3 | now right]. }
  unfold MAX_LENGTH in *. lia.
Qed.

Lemma chunk_bound (r : jsstring) :
  (Z.of_nat (length r) > MAX_LENGTH)%Z ->
  chunkOk (trimEnd (slice r 0 (splitIndex r))).
Proof.
  intros Hlen. destruct (splitIndex_spec r Hlen) as (Hi & Hcase).
  rewrite slice_prefix by lia. unfold chunkOk.
  destruct Hcase as [Hle | (E & c & Hnth & Hc)].
  - left. etransitivity; [apply trimEnd_length|].
    rewrite length_firstn. unfold MAX_LENGTH in *. lia.
  - rewrite E. change (Z.to_nat (MAX_LENGTH + 1)) with 401.
    rewrite (firstn_snoc _ _ Hnth).
    destruct (isWhiteSpace c) eqn:Hws.
    + left. rewrite trimEnd_snoc_ws by exact Hws.
      etransitivity; [apply trimEnd_length|]. rewrite length_firstn. lia.
    + right. rewrite trimEnd_snoc_other by exact Hws.
      unfold endsWithPunctuation. rewrite rev_app_distr. simpl.
      destruct Hc as [Hc|Hc]; [congruence | exact Hc].
Qed.

(** One turn of the loop splits the remainder into the chunk, the
    whitespace dropped, and a strictly shorter remainder. *)
Lemma step_split (r : jsstring) :
  (Z.of_nat (length r) > MAX_LENGTH)%Z ->
  exists gap,
    blank gap = true /\
    r = trimEnd (slice r 0 (splitIndex r)) ++ gap
          ++ trimStart (sliceFrom r (splitIndex r)) /\
    length (trimStart (sliceFrom r (splitIndex r))) < length r.
Proof.
  intros Hlen. destruct (splitIndex_spec r Hlen) as (Hi & _).
  rewrite slice_prefix, sliceFrom_suffix by lia.
  set (n := Z.to_nat (splitIndex r)).
  destruct (trimEnd_split (firstn n r)) as (w1 & Hw1 & H1).
  destruct (trimStart_split (skipn n r)) as (w2 & Hw2 & H2).
  exists (w1 ++ w2). split; [|split].
  - unfold blank in *. now rewrite forallb_app, Hw1, Hw2.
  - rewrite <- app_assoc, (app_assoc _ w1), <- H1, <- H2.
    symmetry. apply firstn_skipn.
  - eapply Nat.le_lt_trans; [apply trimStart_length|].
    rewrite length_skipn. subst n. lia.
Qed.

Lemma interleave_cons (chunk gap : jsstring) (chunks gaps : list jsstring) :
  interleave (chunk :: chunks) (gap :: gaps) = chunk ++ gap ++ interleave chunks gaps.
Proof. unfold interleave. simpl. now rewrite <- app_assoc. Qed.

Lemma interleave_app (chunks gaps chunks' gaps' : list jsstring) :
  length chunks = length gaps ->
  interleave (chunks ++ chunks') (gaps ++ gaps')
  = interleave chunks gaps ++ interleave chunks' gaps'.
Proof.
  revert gaps. induction chunks as [|c chunks IH]; intros [|g gaps] H;
    simpl in H; try discriminate; [reflexivity|].
  simpl app. rewrite !interleave_cons, IH by lia. now rewrite !app_assoc.
Qed.

(** The loop ends within [length r] turns, and what it returns. *)
Lemma splitLoop_spec (fuel : nat) :
  forall chunks r,
    length r <= fuel ->
    exists new gaps rest,
      splitLoop fuel chunks r = Some (chunks ++ new, rest) /\
      length new = length gaps /\
      Forall (fun gap => blank gap = true) gaps /\
      r = interleave new gaps ++ rest /\
      Forall chunkOk new /\
      length rest <= 400 /\
      (400 < length r -> new <> []).
Proof.
  induction fuel as [|fuel IH]; intros chunks r Hfuel.
  - exists [], [], r. destruct r; [|simpl in Hfuel; lia].
    simpl. rewrite app_nil_r. repeat split; auto; simpl; lia.
  - simpl. destruct (Z.of_nat (length r) >? MAX_LENGTH)%Z eqn:Hgt.
    + apply Z.gtb_lt in Hgt. apply Z.lt_gt in Hgt.
      destruct (step_split r Hgt) as (gap & Hgap & Hr & Hlt).
      pose proof (chunk_bound r Hgt) as Hchunk.
      set (chunk := trimEnd (slice r 0 (splitIndex r))) in *.
      set (r' := trimStart (sliceFrom r (splitIndex r))) in *.
      destruct (IH (chunks ++ [chunk]) r') as
        (new & gaps & rest & Hloop & Hlen & Hgaps & Hr' & Hnew & Hrest & _);
        [lia|].
      exists (chunk :: new), (gap :: gaps), rest.
      rewrite Hloop, <- app_assoc. simpl app.
      repeat split; auto.
      * simpl. now rewrite Hlen.
      * rewrite interleave_cons, <- !app_assoc, <- Hr'. exact Hr.
      * discriminate.
    + exists [], [], r. rewrite app_nil_r.
      assert (~ (Z.of_nat (length r) > MAX_LENGTH)%Z) as Hle.
      { intros H. apply Z.gt_lt, Z.gtb_lt in H. congruence. }
      unfold MAX_LENGTH in Hle. repeat split; auto; simpl; lia.
Qed.

(** The chunks of a text: the loop never runs out of fuel, every chunk is
    within the budget (or ends with the punctuation mark of index 400), and
    the text is the chunks in order with blanks between them. *)
Lemma chunksOf_spec (text : jsstring) :
  exists chunks gaps,
    chunksOf text = Some chunks /\
    length chunks = length gaps /\
    Forall (fun gap => blank gap = true) gaps /\
    text = interleave chunks gaps /\
    Forall chunkOk chunks /\
    (400 < length text -> chunks <> []).
Proof.
  unfold chunksOf.
  destruct (splitLoop_spec [] text (le_n _)) as
    (new & gaps & rest & Hloop & Hlen & Hgaps & Htext & Hnew & Hrest & Hne).
  rewrite Hloop. simpl app. destruct rest as [|c rest].
  - exists new, gaps. rewrite app_nil_r in Htext. repeat split; auto.
  - exists (new ++ [c :: rest]), (gaps ++ [[]]). repeat split.
    + rewrite !length_app, Hlen. reflexivity.
    + apply Forall_app. split; [exact Hgaps | now constructor].
    + rewrite interleave_app by exact Hlen.
      unfold interleave at 2. simpl. now rewrite !app_nil_r.
    + apply Forall_app. split; [exact Hnew|]. constructor; [|constructor].
      now left.
    + intros _ H. now destruct new.
Qed.

Lemma emit_ok (o : SendOptions) (target message : jsstring) (c : IrcClient)
    (lib : IrcClientLike) :
  client c = Some lib ->
  emit o target message c
  = Ok {| options := options c;
          client := Some (called (callFor o target message) lib);
          connected := connected c;
          registered := registered c |}.
Proof.
  intros H. unfold emit, callFor, Client.action, Client.notice, Client.say, forward.
  rewrite H. now destruct (truthy (action o)), (truthy (notice o)).
Qed.

(** The [for] loop makes one call per chunk, in the order of the chunks. *)
Lemma sendChunks_log (o : SendOptions) (target : jsstring) (total : nat) :
  forall chunks i c lib,
    client c = Some lib ->
    exists c',
      sendChunks o target total i chunks c = Ok c' /\
      callLog c' =
        calls lib ++
        map (fun ic => callFor o target (decorate o (fst ic) total (snd ic)))
          (combine (seq i (length chunks)) chunks) /\
      connected c' = connected c /\ registered c' = registered c.
Proof.
  induction chunks as [|chunk chunks IH]; intros i c lib Hc.
  - exists c. simpl. unfold callLog. rewrite Hc, app_nil_r. auto.
  - simpl. rewrite (@emit_ok o target _ c lib Hc). simpl.
    destruct (IH (S i)
                {| options := options c;
                   client := Some (called (callFor o target
                                             (decorate o i total chunk)) lib);
                   connected := connected c;
                   registered := registered c |}
                (called (callFor o target (decorate o i total chunk)) lib)
                eq_refl)
      as (c' & Hsend & Hlog & Hconn & Hreg).
    exists c'. rewrite Hsend, Hlog. simpl. rewrite <- app_assoc.
    repeat split; auto.
Qed.


End SendFacts.

(* ================================================================== *)
(** * The delivery pipeline: budget and order                          *)
(* ================================================================== *)

Module SendClaims.

Import Client Send Spec SpecAmended JSFacts SendFacts.

Lemma decorate_length (o : SendOptions) (i total : nat) (chunk : jsstring) :
  length (decorate o i total chunk) <= length chunk + overhead o.
Proof.
  unfold decorate, overhead.
  destruct (splitPrefix o) as [[|p prefix]|];
    destruct (i =? 0); destruct (i =? total - 1);
    repeat rewrite length_app; simpl; lia.
Qed.

Lemma decorated_Forall2 (R : jsstring -> jsstring -> Prop) (f : nat -> jsstring -> jsstring) :
  (forall i chunk, R chunk (f i chunk)) ->
  forall chunks i,
    Forall2 R chunks
      (map (fun ic => f (fst ic) (snd ic)) (combine (seq i (length chunks)) chunks)).
Proof.
  intros Hf. induction chunks as [|chunk chunks IH]; intros i; simpl.
  - constructor.
  - constructor; [apply Hf | apply IH].
Qed.

(** What the [for] loop builds for the chunk of index [i], by whether it
    is the last. *)
Lemma decorate_last (o : SendOptions) (i : nat) (chunk : jsstring) :
  decorate o i (i + 1) chunk = if i =? 0 then chunk else prefixed o chunk.
Proof.
  unfold decorate, prefixed. replace (i + 1 - 1) with i by lia.
  rewrite Nat.eqb_refl. now destruct (splitPrefix o) as [[|p prefix]|], (i =? 0).
Qed.

Lemma decorate_inner (o : SendOptions) (i more : nat) (chunk : jsstring) :
  decorate o i (i + S (S more)) chunk
  = (if i =? 0 then chunk else prefixed o chunk) ++ marker.
Proof.
  unfold decorate, prefixed.
  replace (i =? i + S (S more) - 1) with false by (symmetry; apply Nat.eqb_neq; lia).
  now destruct (splitPrefix o) as [[|p prefix]|], (i =? 0).
Qed.

(** The messages of the loop are the framed chunks. *)
Lemma decorated_framed (o : SendOptions) (total : nat) :
  forall chunks i,
    total = i + length chunks ->
    map (fun ic => decorate o (fst ic) total (snd ic))
      (combine (seq i (length chunks)) chunks)
    = framedFrom o (i =? 0) chunks.
Proof.
  induction chunks as [|chunk chunks IH]; intros i Htotal; [reflexivity|].
  cbn [length seq combine map fst snd framedFrom].
  destruct chunks as [|next chunks].
  - cbn [length] in Htotal. subst total. cbn [length seq combine map].
    now rewrite decorate_last.
  - rewrite (IH (S i)) by (cbn [length] in *; lia).
    cbn [length] in Htotal. subst total. now rewrite decorate_inner.
Qed.

Lemma messagesFor_framed (o : SendOptions) (chunks : list jsstring) :
  messagesFor o chunks = framed o chunks.
Proof. unfold messagesFor, framed. now rewrite (decorated_framed o). Qed.

(** C1, as amended.  With splitting enabled, [sendMessageIrc] returns after
    one call per chunk, made in the order of the chunks: the message of the
    first chunk is the chunk, the message of every later chunk is the split
    prefix, a space and the chunk, and every message but the last is
    followed by the continuation marker, so that a message is at most the
    prefix, the space and the marker longer than its chunk.  Each chunk is
    at most 400 characters long unless it ends with a punctuation mark, and
    the text is the chunks in their order with only whitespace between
    them. *)
Theorem sendMessageIrc_chunks_ordered_within_budget
    (c : IrcClient) (lib : IrcClientLike) (target text : jsstring) (o : SendOptions) :
  isConnected c = true ->
  client c = Some lib ->
  truthy (split o) = true ->
  exists chunks gaps c',
    sendMessageIrc c target text o = Some (Ok c') /\
    callLog c' = calls lib ++ map (callFor o target) (framed o chunks) /\
    Forall chunkOk chunks /\
    Forall2 (fun chunk message => length message <= length chunk + overhead o)
      chunks (framed o chunks) /\
    length chunks = length gaps /\
    Forall (fun gap => blank gap = true) gaps /\
    text = interleave chunks gaps.
Proof.
  intros Hconn Hlib Hsplit. unfold sendMessageIrc.
  rewrite Hconn, Hsplit. simpl.
  destruct (Z.of_nat (length text) <=? MAX_LENGTH)%Z eqn:Hfit.
  - apply Z.leb_le in Hfit. unfold MAX_LENGTH in Hfit.
    exists [text], [[]].
    eexists. rewrite (@emit_ok o target text c lib Hlib).
    split; [reflexivity|]. unfold callLog. simpl client.
    repeat split.
    + constructor; [left; lia | constructor].
    + constructor; [lia | constructor].
    + constructor; [reflexivity | constructor].
    + unfold interleave. simpl. now rewrite !app_nil_r.
  - destruct (chunksOf_spec text) as
      (chunks & gaps & Hchunks & Hlen & Hgaps & Htext & Hok & _).
    rewrite Hchunks.
    destruct (@sendChunks_log o target (length chunks) chunks 0 c lib Hlib)
      as (c' & Hsend & Hlog & _).
    exists chunks, gaps, c'. rewrite Hsend. repeat split; auto.
    + rewrite Hlog, <- messagesFor_framed. unfold messagesFor. now rewrite map_map.
    + rewrite <- messagesFor_framed. unfold messagesFor.
      apply (decorated_Forall2
               (fun chunk message => length message <= length chunk + overhead o)
               (fun i chunk => decorate o i (length chunks) chunk)).
      intros i chunk. apply decorate_length.
Qed.

(** On a text of 399 letters, a space and ten more letters nothing has to be
    cut hard, and the first of the two messages is 403 characters long. *)
Lemma sendMessageIrc_chunks_ordered_within_budget_witness :
  exists chunks gaps c',
    sendMessageIrc readyClient (str "#ops")
      (repeat "a"%char 399 ++ str " " ++ repeat "b"%char 10) splitting
      = Some (Ok c') /\
    callLog c' = [] ++ map (callFor splitting (str "#ops")) (framed splitting chunks) /\
    Forall chunkOk chunks /\
    Forall2 (fun chunk message => length message <= length chunk + overhead splitting)
      chunks (framed splitting chunks) /\
    length chunks = length gaps /\
    Forall (fun gap => blank gap = true) gaps /\
    repeat "a"%char 399 ++ str " " ++ repeat "b"%char 10 = interleave chunks gaps.
Proof.
  apply (@sendMessageIrc_chunks_ordered_within_budget readyClient
           {| calls := []; assignedNick := None |}); reflexivity.
Defined.

(** C1 as stated fails: the only cut of this text is at a space, no run
    without a boundary is longer than the budget, and yet the first message
    passed to [say] has 403 characters. *)
Lemma message_over_budget_without_hard_cut :
  let text := repeat "a"%char 399 ++ str " " ++ repeat "b"%char 10 in
  cutKind text = AtSpace /\
  chunksOf text = Some [repeat "a"%char 399; repeat "b"%char 10] /\
  exists c',
    sendMessageIrc readyClient (str "#ops") text splitting = Some (Ok c') /\
    callLog c' =
      [Say (str "#ops") (repeat "a"%char 399 ++ str " ...");
       Say (str "#ops") (repeat "b"%char 10)] /\
    400 < length (repeat "a"%char 399 ++ str " ...").
Proof.
  cbv zeta. split; [vm_compute; reflexivity|].
  split; [vm_compute; reflexivity|].
  eexists. split; [vm_compute; reflexivity|].
  split; [vm_compute; reflexivity|].
  vm_compute. lia.
Qed.

Lemma solid_firstn (n : nat) (s : jsstring) :
  solid s = true -> solid (firstn n s) = true.
Proof.
  unfold solid. intros H. rewrite <- (firstn_skipn n s), forallb_app in H.
  now apply andb_true_iff in H.
Qed.

Lemma solid_skipn (n : nat) (s : jsstring) :
  solid s = true -> solid (skipn n s) = true.
Proof.
  unfold solid. intros H. rewrite <- (firstn_skipn n s), forallb_app in H.
  now apply andb_true_iff in H.
Qed.














(** The bound of 98 cannot be raised: a text of 1000 characters without
    newline whose runs of whitespace are 99 long can make two calls. *)
Lemma runs_of_99_make_two_calls :
  length twoLongRuns = 1000 /\
  includes twoLongRuns newline = false /\
  longestBlankRun twoLongRuns = 99 /\
  exists c',
    sendMessageIrc readyClient (str "#ops") twoLongRuns splitting = Some (Ok c') /\
    callLog c' =
      [Say (str "#ops") (repeat "a"%char 400 ++ str "." ++ str " ...");
       Say (str "#ops") (repeat "b"%char 400 ++ str ".")].
Proof.
  split; [vm_compute; reflexivity|]. split; [vm_compute; reflexivity|].
  split; [vm_compute; reflexivity|].
  eexists. split; vm_compute; reflexivity.
Qed.

End SendClaims.

(* ================================================================== *)
(** * Facts about the matcher                                          *)
(* ================================================================== *)

Module RegExpFacts.

Import RegExp Spec JSFacts.

Lemma takeWhile_dropWhile (p : ascii -> bool) (s : jsstring) :
  takeWhile p s ++ dropWhile p s = s.
Proof.
  induction s as [|c s IH]; simpl; [reflexivity|].
  destruct (p c); simpl; [now rewrite IH | reflexivity].
Qed.

Lemma takeWhile_ext (p q : ascii -> bool) (s : jsstring) :
  (forall c, p c = q c) -> takeWhile p s = takeWhile q s.
Proof.
  intros H. induction s as [|c s IH]; simpl; [reflexivity|].
  now rewrite H, IH.
Qed.

Lemma dropWhile_ext (p q : ascii -> bool) (s : jsstring) :
  (forall c, p c = q c) -> dropWhile p s = dropWhile q s.
Proof.
  intros H. induction s as [|c s IH]; simpl; [reflexivity|].
  now rewrite H, IH.
Qed.

Lemma takeWhile_all (p : ascii -> bool) (u v : jsstring) :
  forallb p u = true ->
  match v with [] => True | x :: _ => p x = false end ->
  takeWhile p (u ++ v) = u /\ dropWhile p (u ++ v) = v.
Proof.
  intros Hu Hv. induction u as [|c u IH]; simpl in *.
  - destruct v as [|x v]; simpl; [auto|]. now rewrite Hv.
  - apply andb_true_iff in Hu as [Hc Hu]. rewrite Hc.
    destruct (IH Hu) as [H1 H2]. now rewrite H1, H2.
Qed.

Lemma dropWhile_nil_iff (p : ascii -> bool) (s : jsstring) :
  dropWhile p s = [] <-> forallb p s = true.
Proof.
  induction s as [|c s IH]; simpl; [tauto|].
  destruct (p c); simpl; [exact IH|]. split; discriminate.
Qed.

(** When what follows a greedy repetition cannot start with a character of
    the repetition, the repetition takes the whole run and never gives a
    character back. *)
Lemma star_possessive (a : Atom) (k : Continuation) :
  (forall pos x rest caps, atomMatches a x = true -> k pos (x :: rest) caps = None) ->
  forall s pos caps,
    star a k pos s caps
    = k (pos + length (takeWhile (atomMatches a) s))
        (dropWhile (atomMatches a) s) caps.
Proof.
  intros Hk. induction s as [|x s IH]; intros pos caps; simpl.
  - now rewrite Nat.add_0_r.
  - destruct (atomMatches a x) eqn:Hx.
    + rewrite (Hk pos x s caps Hx), IH. simpl.
      rewrite Nat.add_succ_r.
      now destruct (k (S (pos + length (takeWhile (atomMatches a) s)))
                      (dropWhile (atomMatches a) s) caps).
    + simpl. now rewrite Nat.add_0_r.
Qed.

(** A repetition followed by nothing always matches. *)
Lemma star_accept (a : Atom) (s : jsstring) :
  forall pos caps, exists res, star a accept pos s caps = Some res.
Proof.
  induction s as [|x s IH]; intros pos caps; simpl.
  - eexists. reflexivity.
  - destruct (atomMatches a x).
    + destruct (IH (S pos) caps) as (res & H). rewrite H. now exists res.
    + eexists. reflexivity.
Qed.

Lemma matcher_lit (l : jsstring) (k : Continuation) :
  forall s pos caps,
    matcher (lit l) k pos s caps
    = if startsWith s l then k (pos + length l) (skipn (length l) s) caps else None.
Proof.
  induction l as [|c l IH]; intros s pos caps; simpl.
  - rewrite Nat.add_0_r. now destruct s.
  - destruct s as [|x s]; [reflexivity|].
    simpl. unfold atomMatches.
    destruct (Ascii.eqb x c); simpl; [|reflexivity].
    rewrite IH. now rewrite Nat.add_succ_r.
Qed.

(** A pattern that begins with [^] matches at index 0 or nowhere. *)
Lemma execFrom_anchored (r : Regex) (rest : jsstring) :
  forall pos, 0 < pos -> execFrom (Seq Bol r) pos rest = None.
Proof.
  induction rest as [|x rest IH]; intros pos Hpos; simpl;
    destruct pos; try lia; simpl; [reflexivity|].
  apply IH. lia.
Qed.

Lemma exec_anchored (r : Regex) (s : jsstring) :
  exec (Seq Bol r) s = matcher r accept 0 s [].
Proof.
  unfold exec. destruct s as [|x s]; simpl.
  - now destruct (matcher r accept 0 [] []).
  - destruct (matcher r accept 0 (x :: s) []); [reflexivity|].
    apply execFrom_anchored. lia.
Qed.

End RegExpFacts.

(* ================================================================== *)
(** * Target keys: round trip and normalisation                        *)
(* ================================================================== *)

Module TargetsClaims.

Import RegExp Targets Spec JSFacts RegExpFacts.

(** Facts on single characters are settled by running through the 256
    code units. *)
Ltac by_code_units c := destruct c as [[] [] [] [] [] [] [] []]; reflexivity.

Lemma notColon_matches (x : ascii) : atomMatches notColon x = negb (isColon x).
Proof. by_code_units x. Qed.

Lemma nickFirst_matches (x : ascii) :
  atomMatches nickFirst x = isLetter x || isNickSpecial x.
Proof. by_code_units x. Qed.

Lemma nickRest_matches (x : ascii) :
  atomMatches nickRest x = isLetter x || isDigit x || isNickSpecial x.
Proof. by_code_units x. Qed.

Lemma lowerChar_colon (c : ascii) : isColon (lowerChar c) = isColon c.
Proof. by_code_units c. Qed.

Lemma lowerChar_lineTerminator (c : ascii) :
  isLineTerminator (lowerChar c) = isLineTerminator c.
Proof. by_code_units c. Qed.

Lemma accountChar_notColon (c : ascii) :
  isAccountChar c = true -> negb (isColon c) = true.
Proof. destruct c as [[] [] [] [] [] [] [] []]; intros H; try reflexivity; discriminate H. Qed.

Lemma nickChar_solid (c : ascii) :
  isLetter c || isDigit c || isNickSpecial c = true -> negb (isWhiteSpace c) = true.
Proof. destruct c as [[] [] [] [] [] [] [] []]; intros H; try reflexivity; discriminate H. Qed.

Lemma forallb_impl (p q : ascii -> bool) (s : jsstring) :
  (forall c, p c = true -> q c = true) -> forallb p s = true -> forallb q s = true.
Proof.
  intros H. rewrite !forallb_forall. auto.
Qed.

Lemma forallb_lower (p : ascii -> bool) (s : jsstring) :
  (forall c, p (lowerChar c) = p c) ->
  forallb p (toLowerCase s) = forallb p s.
Proof.
  intros H. unfold toLowerCase. induction s as [|c s IH]; simpl; [reflexivity|].
  now rewrite H, IH.
Qed.

Lemma forallb_ext_nick (t : jsstring) :
  forallb (atomMatches nickRest) t
  = forallb (fun x => isLetter x || isDigit x || isNickSpecial x) t.
Proof.
  induction t as [|c t IH]; cbn [forallb]; [reflexivity|].
  now rewrite nickRest_matches, IH.
Qed.

(** [+] on a character class, followed by something that cannot start with
    a character of the class. *)
Lemma plus_possessive (a : Atom) (k : Continuation) :
  (forall pos x rest caps, atomMatches a x = true -> k pos (x :: rest) caps = None) ->
  forall u v pos caps,
    u <> [] ->
    forallb (atomMatches a) u = true ->
    match v with [] => True | x :: _ => atomMatches a x = false end ->
    matcher (Plus a) k pos (u ++ v) caps = k (pos + length u) v caps.
Proof.
  intros Hk [|x u] v pos caps Hne Hu Hv; [congruence|].
  simpl in Hu. apply andb_true_iff in Hu as [Hx Hu].
  simpl. rewrite Hx, (star_possessive a k Hk).
  destruct (takeWhile_all (atomMatches a) u v Hu Hv) as [H1 H2].
  rewrite H1, H2. now rewrite Nat.add_succ_r.
Qed.

Lemma plus_possessive_all (a : Atom) (k : Continuation) :
  (forall pos x rest caps, atomMatches a x = true -> k pos (x :: rest) caps = None) ->
  forall u pos caps,
    u <> [] ->
    forallb (atomMatches a) u = true ->
    matcher (Plus a) k pos u caps = k (pos + length u) [] caps.
Proof.
  intros Hk u pos caps Hne Hu.
  rewrite <- (app_nil_r u) at 1. now apply plus_possessive.
Qed.

Lemma matcher_seq (r1 r2 : Regex) (k : Continuation) pos s caps :
  matcher (Seq r1 r2) k pos s caps
  = matcher r1 (fun pos' rest' caps' => matcher r2 k pos' rest' caps') pos s caps.
Proof. reflexivity. Qed.

Lemma matcher_group (n : nat) (r : Regex) (k : Continuation) pos s caps :
  matcher (Group n r) k pos s caps
  = matcher r (fun pos' rest' caps' => k pos' rest' ((n, firstn (pos' - pos) s) :: caps'))
      pos s caps.
Proof. reflexivity. Qed.

Lemma matcher_one (a : Atom) (k : Continuation) pos x s caps :
  matcher (One a) k pos (x :: s) caps
  = if atomMatches a x then k (S pos) s caps else None.
Proof. reflexivity. Qed.

Lemma matcher_eol (k : Continuation) pos caps :
  matcher Eol k pos [] caps = k pos [] caps.
Proof. reflexivity. Qed.

(** The match of [/^irc:([^:]+):(.+)$/] on an assembled key. *)
Lemma exec_targetKey (account tl : jsstring) :
  account <> [] ->
  forallb (fun c => negb (isColon c)) account = true ->
  tl <> [] ->
  forallb (fun c => negb (isLineTerminator c)) tl = true ->
  exists e,
    exec targetKeyRegex (str "irc:" ++ account ++ str ":" ++ tl)
    = Some {| endIndex := e; captures := [(2, tl); (1, account)] |}.
Proof.
  intros Ha Hcolon Ht Hlt.
  unfold targetKeyRegex. rewrite exec_anchored.
  rewrite matcher_seq, matcher_lit, startsWith_app.
  change (skipn (length (str "irc:")) (str "irc:" ++ account ++ str ":" ++ tl))
    with (account ++ str ":" ++ tl).
  rewrite matcher_seq, matcher_group.
  rewrite plus_possessive.
  - replace (0 + length (str "irc:") + length account - (0 + length (str "irc:")))
      with (length account + 0) by lia.
    rewrite firstn_app_2. simpl firstn. rewrite app_nil_r.
    rewrite matcher_seq. change (str ":" ++ tl) with (":"%char :: tl).
    rewrite matcher_one. cbn [atomMatches]. rewrite Ascii.eqb_refl.
    rewrite matcher_seq, matcher_group.
    rewrite plus_possessive_all.
    + rewrite matcher_eol. unfold accept.
      match goal with
      | |- context [firstn ?n tl] => replace n with (length tl) by lia
      end.
      rewrite firstn_all. eexists. reflexivity.
    + intros pos x rest caps _. reflexivity.
    + exact Ht.
    + exact Hlt.
  - intros pos x rest caps Hx. rewrite matcher_seq, matcher_one.
    cbn [atomMatches]. rewrite notColon_matches in Hx. unfold isColon in Hx.
    apply negb_true_iff in Hx. now rewrite Hx.
  - exact Ha.
  - eapply forallb_impl; [|exact Hcolon].
    intros c Hc. now rewrite notColon_matches.
  - reflexivity.
Qed.

(** C2, as amended.  For an account identifier of [[a-z0-9_-]+] and a
    target that is not empty and holds neither a colon nor a line
    terminator, parsing the key built from them gives the account and the
    lower-cased target back. *)
Theorem parse_build_roundtrip (account target : jsstring) :
  account <> [] ->
  forallb isAccountChar account = true ->
  target <> [] ->
  forallb (fun c => negb (isColon c)) target = true ->
  forallb (fun c => negb (isLineTerminator c)) target = true ->
  parseIrcTargetKey (buildIrcTargetKey (Some account) target)
  = Some {| accountId := account; Targets.target := toLowerCase target |}.
Proof.
  intros Ha Hacc Ht _ Hlt.
  unfold parseIrcTargetKey, buildIrcTargetKey.
  destruct (@exec_targetKey account (toLowerCase target)) as (e & He).
  - exact Ha.
  - eapply forallb_impl; [|exact Hacc]. apply accountChar_notColon.
  - destruct target; [congruence | discriminate].
  - rewrite forallb_lower; [exact Hlt|].
    intros c. now rewrite lowerChar_lineTerminator.
  - rewrite He. reflexivity.
Qed.

Lemma parse_build_roundtrip_witness :
  parseIrcTargetKey (buildIrcTargetKey (Some (str "work-2")) (str "#General"))
  = Some {| accountId := str "work-2"; Targets.target := toLowerCase (str "#General") |}.
Proof.
  apply parse_build_roundtrip; (discriminate || reflexivity).
Defined.

(** C2 as stated fails: the empty target has no colon, and so has a target
    of two lines, yet the keys built from them do not parse. *)
Lemma roundtrip_fails_on_empty_target :
  forallb isAccountChar (str "work") = true /\
  includes [] ":" = false /\
  parseIrcTargetKey (buildIrcTargetKey (Some (str "work")) []) = None /\
  includes [ascii_of_nat 98; ascii_of_nat 10; ascii_of_nat 99] ":" = false /\
  parseIrcTargetKey
    (buildIrcTargetKey (Some (str "work"))
       [ascii_of_nat 98; ascii_of_nat 10; ascii_of_nat 99]) = None.
Proof. repeat split; vm_compute; reflexivity. Qed.

Lemma matcher_plus (a : Atom) (k : Continuation) pos x s caps :
  matcher (Plus a) k pos (x :: s) caps
  = if atomMatches a x then star a k (S pos) s caps else None.
Proof. reflexivity. Qed.

(** [/^irc:[^:]+:.+/] tests the key shape. *)
Lemma test_prefixedRegex (t : jsstring) : test prefixedRegex t = hasKeyShape t.
Proof.
  unfold test, prefixedRegex, hasKeyShape. rewrite exec_anchored.
  rewrite matcher_seq, matcher_lit.
  destruct (startsWith t (str "irc:")); [|reflexivity].
  change (length (str "irc:")) with 4. cbn [andb].
  rewrite matcher_seq.
  destruct (skipn 4 t) as [|x rest]; [reflexivity|].
  rewrite matcher_plus. cbn [takeWhile dropWhile].
  rewrite <- notColon_matches.
  destruct (atomMatches notColon x); [|reflexivity].
  rewrite star_possessive.
  - rewrite (dropWhile_ext (fun c => negb (isColon c)) (atomMatches notColon))
      by (intros c; now rewrite notColon_matches).
    destruct (dropWhile (atomMatches notColon) rest) as [|y v] eqn:Hv;
      [reflexivity|].
    apply dropWhile_head in Hv. rewrite notColon_matches in Hv.
    apply negb_false_iff in Hv. unfold isColon in Hv.
    rewrite matcher_seq, matcher_one. cbn [atomMatches]. rewrite Hv.
    destruct v as [|z v]; [reflexivity|].
    rewrite matcher_plus. cbn [atomMatches].
    destruct (negb (isLineTerminator z)); [|reflexivity].
    match goal with
    | |- context [star Dot accept ?p v ?c] =>
        destruct (star_accept Dot v p c) as (res & Hres); now rewrite Hres
    end.
  - intros pos y rest' caps Hy. rewrite matcher_seq, matcher_one.
    cbn [atomMatches]. rewrite notColon_matches in Hy. unfold isColon in Hy.
    apply negb_true_iff in Hy. now rewrite Hy.
Qed.

(** The nick pattern tests the nick grammar. *)
Lemma test_nickRegex (t : jsstring) : test nickRegex t = isNick t.
Proof.
  unfold test, nickRegex, isNick. rewrite exec_anchored.
  rewrite matcher_seq. destruct t as [|c t]; [reflexivity|].
  rewrite matcher_one, nickFirst_matches.
  destruct (isLetter c || isNickSpecial c); [|reflexivity].
  cbn [andb]. rewrite matcher_seq. cbn [matcher].
  rewrite star_possessive by (intros; reflexivity).
  rewrite <- (forallb_ext_nick t).
  destruct (dropWhile (atomMatches nickRest) t) eqn:Hd.
  - apply dropWhile_nil_iff in Hd. now rewrite Hd.
  - destruct (forallb (atomMatches nickRest) t) eqn:Hall; [|reflexivity].
    apply dropWhile_nil_iff in Hall. congruence.
Qed.

Lemma isNick_solid (t : jsstring) : isNick t = true -> solid t = true.
Proof.
  destruct t as [|c t]; [discriminate|]. unfold isNick, solid. cbn [forallb].
  rewrite !andb_true_iff. intros [Hc Ht]. split.
  - apply nickChar_solid. apply orb_true_iff in Hc as [Hc|Hc]; rewrite Hc;
      [reflexivity | apply orb_true_r].
  - eapply forallb_impl; [|exact Ht]. apply nickChar_solid.
Qed.

(** C6 as stated fails: a channel name with a space inside is accepted. *)
Lemma normalize_accepts_whitespace :
  normalizeIrcMessagingTarget (str "#foo bar") = Some (str "irc:default:#foo bar") /\
  includes (str "#foo bar") " " = true.
Proof. repeat split; vm_compute; reflexivity. Qed.

(** The pattern for keys has no [i] flag: a key whose prefix is in upper
    case is refused. *)
Lemma upper_case_prefix_is_refused :
  normalizeIrcMessagingTarget (str "IRC:acct:target") = None.
Proof. vm_compute. reflexivity. Qed.

End TargetsClaims.

(* ================================================================== *)
(** * The allowlist                                                    *)
(* ================================================================== *)

Module AllowlistClaims.

Import RegExp Monitor Spec SpecAmended JSFacts RegExpFacts.

Lemma lowerChar_plain (c : ascii) : plainChar (lowerChar c) = plainChar c.
Proof. destruct c as [[] [] [] [] [] [] [] []]; reflexivity. Qed.

Lemma plainEntry_lower (u : jsstring) :
  plainEntry (toLowerCase u) = plainEntry u.
Proof.
  unfold plainEntry, toLowerCase. induction u as [|c u IH]; simpl; [reflexivity|].
  now rewrite lowerChar_plain, IH.
Qed.

(** What [compile] does with one plain character, by the character that
    follows it. *)
Lemma compile_plain (c q : ascii) (source : jsstring) :
  plainChar c = true -> Ascii.eqb c "*" = false ->
  Ascii.eqb q "*" = false -> Ascii.eqb q "+" = false ->
  compile (c :: q :: source) = option_map (Seq (One (Chr c))) (compile (q :: source)).
Proof.
  intros Hplain Hstar Hq1 Hq2.
  unfold plainChar in Hplain. rewrite Hstar in Hplain. simpl in Hplain.
  apply negb_true_iff in Hplain.
  assert (Hc : Ascii.eqb c "^" = false /\ Ascii.eqb c "$" = false /\
               Ascii.eqb c "." = false).
  { unfold isSyntaxCharacter in Hplain. simpl in Hplain.
    repeat (apply orb_false_iff in Hplain; destruct Hplain as [? Hplain]).
    auto. }
  destruct Hc as (H1 & H2 & H3).
  cbn [compile]. now rewrite H1, H2, H3, Hplain, Hq1, Hq2.
Qed.

Lemma compile_dot_star (source : jsstring) :
  compile ("."%char :: "*"%char :: source)
  = option_map (Seq (Star Dot)) (compile source).
Proof. reflexivity. Qed.

Lemma compile_bol (source : jsstring) :
  compile ("^"%char :: source) = option_map (Seq Bol) (compile source).
Proof. reflexivity. Qed.

Lemma replaced_head (pattern : jsstring) :
  plainEntry pattern = true ->
  exists q rest,
    replaceStars (str ".*") pattern ++ str "$" = q :: rest /\
    Ascii.eqb q "*" = false /\ Ascii.eqb q "+" = false.
Proof.
  destruct pattern as [|d pattern]; intros H.
  - exists "$"%char, []. auto.
  - simpl in H. apply andb_true_iff in H as [Hd _].
    cbn [replaceStars]. destruct (Ascii.eqb d "*") eqn:Hstar.
    + exists "."%char. eexists. split; [reflexivity|]. auto.
    + exists d. eexists. split; [reflexivity|]. split; [exact Hstar|].
      unfold plainChar in Hd. rewrite Hstar in Hd. simpl in Hd.
      apply negb_true_iff in Hd. unfold isSyntaxCharacter in Hd. simpl in Hd.
      repeat (apply orb_false_iff in Hd; destruct Hd as [? Hd]). assumption.
Qed.

(** The source built for a plain entry compiles to the expression
    [wildcardBody] gives. *)
Lemma compile_replaced (pattern : jsstring) :
  plainEntry pattern = true ->
  compile (replaceStars (str ".*") pattern ++ str "$") = Some (wildcardBody pattern).
Proof.
  induction pattern as [|c pattern IH]; intros H; [reflexivity|].
  pose proof H as Hall. simpl in H. apply andb_true_iff in H as [Hc Hp].
  cbn [replaceStars wildcardBody].
  destruct (Ascii.eqb c "*") eqn:Hstar.
  - change (str ".*" ++ replaceStars (str ".*") pattern)
      with ("."%char :: "*"%char :: replaceStars (str ".*") pattern).
    cbn [app]. now rewrite compile_dot_star, (IH Hp).
  - destruct (replaced_head pattern Hp) as (q & rest & Hq & Hq1 & Hq2).
    cbn [app]. rewrite Hq, compile_plain by assumption.
    rewrite <- Hq, (IH Hp). reflexivity.
Qed.

Lemma compile_wildcardSource (pattern : jsstring) :
  plainEntry pattern = true ->
  compile (wildcardSource pattern) = Some (Seq Bol (wildcardBody pattern)).
Proof.
  intros H. unfold wildcardSource.
  change (str "^" ++ replaceStars (str ".*") pattern ++ str "$")
    with ("^"%char :: (replaceStars (str ".*") pattern ++ str "$")).
  now rewrite compile_bol, compile_replaced.
Qed.

(** A greedy repetition succeeds when its continuation succeeds after some
    run of matching characters. *)
Lemma star_anyRun (a : Atom) (k : Continuation) (k' : jsstring -> bool) :
  (forall pos s caps, isSome (k pos s caps) = k' s) ->
  forall s pos caps,
    isSome (star a k pos s caps) = anyRun (atomMatches a) k' s.
Proof.
  intros Hk. induction s as [|x s IH]; intros pos caps; simpl.
  - now rewrite Hk, orb_false_r.
  - destruct (atomMatches a x) eqn:Hx; simpl.
    + rewrite <- (IH (S pos) caps), <- (Hk pos (x :: s) caps).
      destruct (star a k (S pos) s caps); simpl;
        [now rewrite orb_true_r | now rewrite orb_false_r].
    + now rewrite Hk, orb_false_r.
Qed.

(** The expression of a plain pattern matches what the pattern matches as a
    wildcard pattern. *)
Lemma wildcardBody_matches (pattern : jsstring) :
  forall s pos caps,
    isSome (matcher (wildcardBody pattern) accept pos s caps)
    = wildcardMatch (fun c => negb (isLineTerminator c)) pattern s.
Proof.
  induction pattern as [|c pattern IH]; intros s pos caps.
  - destruct s; reflexivity.
  - cbn [wildcardBody wildcardMatch]. destruct (Ascii.eqb c "*").
    + change (matcher (Seq (Star Dot) (wildcardBody pattern)) accept pos s caps)
        with (star Dot (fun pos' rest' caps' =>
                matcher (wildcardBody pattern) accept pos' rest' caps') pos s caps).
      rewrite (star_anyRun Dot _
                 (wildcardMatch (fun c => negb (isLineTerminator c)) pattern)).
      * reflexivity.
      * intros. apply IH.
    + destruct s as [|x s]; [reflexivity|].
      change (matcher (Seq (One (Chr c)) (wildcardBody pattern)) accept pos (x :: s) caps)
        with (if Ascii.eqb x c
              then matcher (wildcardBody pattern) accept (S pos) s caps
              else None).
      destruct (Ascii.eqb x c); [apply IH | reflexivity].
Qed.

Lemma test_wildcardBody (pattern s : jsstring) :
  test (Seq Bol (wildcardBody pattern)) s
  = wildcardMatch (fun c => negb (isLineTerminator c)) pattern s.
Proof.
  unfold test. rewrite exec_anchored, <- (wildcardBody_matches pattern s 0 []).
  now destruct (matcher (wildcardBody pattern) accept 0 s []).
Qed.

(** Without a star, a pattern matches itself only. *)
Lemma wildcardMatch_literal (run : ascii -> bool) (pattern : jsstring) :
  includes pattern "*" = false ->
  forall s, wildcardMatch run pattern s = eqb s pattern.
Proof.
  unfold includes.
  induction pattern as [|c pattern IH]; intros H s.
  - destruct s; reflexivity.
  - cbn [existsb] in H. apply orb_false_iff in H as [Hc Hp].
    cbn [wildcardMatch]. rewrite Ascii.eqb_sym in Hc. rewrite Hc.
    destruct s as [|x s]; [reflexivity|].
    rewrite (IH Hp). destruct (Ascii.eqb x c) eqn:Hx; simpl.
    + apply Ascii.eqb_eq in Hx. subst x.
      destruct (eqb s pattern) eqn:E.
      * apply eqb_eq in E. subst. symmetry. apply eqb_refl.
      * symmetry. apply eqb_neq. apply eqb_neq in E. congruence.
    + symmetry. apply eqb_neq. apply Ascii.eqb_neq in Hx. congruence.
Qed.

Lemma includes_lower_star (u : jsstring) :
  includes (toLowerCase u) "*" = includes u "*".
Proof.
  unfold includes, toLowerCase. induction u as [|c u IH]; [reflexivity|].
  cbn [map existsb]. rewrite IH. f_equal.
  destruct c as [[] [] [] [] [] [] [] []]; reflexivity.
Qed.

(** The second [some]: an entry without a star is compared as it is, an
    entry with a star is compiled, and compiles when it is plain. *)
Lemma someHostMatches_plain (hostLower : jsstring) (users : list jsstring) :
  forallb starredPlain users = true ->
  someHostMatches hostLower users
  = Some (existsb (fun u => wildcardMatch (fun c => negb (isLineTerminator c))
                              (toLowerCase u) hostLower) users).
Proof.
  induction users as [|u users IH]; intros H; [reflexivity|].
  simpl in H. apply andb_true_iff in H as [Hu Hus].
  cbn [someHostMatches existsb].
  destruct (includes (toLowerCase u) "*") eqn:Hstar.
  - unfold starredPlain in Hu. rewrite <- includes_lower_star, Hstar in Hu.
    cbn [negb orb] in Hu.
    rewrite compile_wildcardSource by (now rewrite plainEntry_lower).
    rewrite test_wildcardBody.
    destruct (wildcardMatch _ (toLowerCase u) hostLower); [reflexivity|].
    now apply IH.
  - rewrite (wildcardMatch_literal _ _ Hstar).
    destruct (eqb hostLower (toLowerCase u)); [reflexivity|]. now apply IH.
Qed.

(** C4, as amended.  [isUserAllowed] is open for an empty allowlist.  For
    an allowlist in which every entry that has a star holds no other
    pattern character, it allows exactly when the nick equals an entry, case
    ignored, or the hostname is not empty and matches an entry, case
    ignored, the star standing for any run of characters without line
    terminators, every other character for itself, the whole hostname being
    matched.  Entries without a star may hold any character. *)
Theorem isUserAllowed_on_plain_entries
    (nick hostname : jsstring) (config : option PolicyConfig) :
  forallb starredPlain (usersOf config) = true ->
  isUserAllowed nick hostname config
  = Some (isAllowedAmended nick hostname (usersOf config)).
Proof.
  intros Hplain. unfold isUserAllowed, isAllowedAmended.
  destruct (usersOf config) as [|u users] eqn:Husers; [reflexivity|].
  fold (nickListed nick (u :: users)).
  destruct (nickListed nick (u :: users)); [reflexivity|].
  destruct hostname as [|h hostname]; [reflexivity|].
  now rewrite someHostMatches_plain.
Qed.

Lemma isUserAllowed_on_plain_entries_witness :
  isUserAllowed (str "bob") (str "Bob@Example.com")
    (channelWith [str "10.0.0.1"; str "bob@example.com"; str "*@example-*"])
  = Some (isAllowedAmended (str "bob") (str "Bob@Example.com")
            [str "10.0.0.1"; str "bob@example.com"; str "*@example-*"]).
Proof.
  apply (@isUserAllowed_on_plain_entries (str "bob") (str "Bob@Example.com")
           (channelWith [str "10.0.0.1"; str "bob@example.com"; str "*@example-*"])).
  reflexivity.
Defined.

(** Entries with a dot and no star are compared character by character:
    the hostname that differs in the place of the dot is refused, and the
    starred entry still matches by its star. *)
Lemma literal_entries_match_themselves :
  isUserAllowed (str "eve") (str "Bob@Example.com")
    (channelWith [str "10.0.0.1"; str "bob@example.com"; str "*@example-*"])
  = Some true /\
  isUserAllowed (str "eve") (str "bob@exampleXcom")
    (channelWith [str "10.0.0.1"; str "bob@example.com"; str "*@example-*"])
  = Some false /\
  isUserAllowed (str "eve") (str "eve@Example-Host")
    (channelWith [str "10.0.0.1"; str "bob@example.com"; str "*@example-*"])
  = Some true.
Proof. repeat split; vm_compute; reflexivity. Qed.

(** C4 as stated fails: with an empty hostname the entry [*] allows nobody,
    although a star matches the empty run; and the hostname is compared
    with case ignored. *)
Lemma isUserAllowed_differs_from_statement :
  isUserAllowed (str "bob") [] (channelWith [str "*"]) = Some false /\
  isAllowedAsStated (str "bob") [] [str "*"] = true /\
  isUserAllowed (str "bob") (str "HOST-7") (channelWith [str "host-7"]) = Some true /\
  isAllowedAsStated (str "bob") (str "HOST-7") [str "host-7"] = false.
Proof. repeat split; vm_compute; reflexivity. Qed.

(** An entry with a dot: the dot reaches [new RegExp] unescaped and matches
    any character. *)
Lemma isUserAllowed_dot_matches_any_character :
  isUserAllowed (str "bob") (str "bob@exampleXcom") (channelWith [str "*@example.com"])
  = Some true /\
  isAllowedAsStated (str "bob") (str "bob@exampleXcom") [str "*@example.com"] = false.
Proof. split; vm_compute; reflexivity. Qed.

(** C10.  With the empty hostname and a non-empty allowlist, the user is
    allowed exactly when an entry equals the nick, case ignored: the
    hostname patterns are not looked at. *)
Theorem isUserAllowed_empty_hostname (nick : jsstring) (config : option PolicyConfig) :
  usersOf config <> [] ->
  isUserAllowed nick [] config = Some (nickListed nick (usersOf config)).
Proof.
  intros Hne. unfold isUserAllowed.
  destruct (usersOf config) as [|u users]; [congruence|].
  fold (nickListed nick (u :: users)).
  now destruct (nickListed nick (u :: users)).
Qed.

Lemma isUserAllowed_empty_hostname_witness :
  isUserAllowed (str "Bob") [] (channelWith [str "*"; str "bob"]) = Some true /\
  isUserAllowed (str "eve") [] (channelWith [str "*"; str "bob"]) = Some false.
Proof.
  split.
  - apply (@isUserAllowed_empty_hostname (str "Bob")
             (channelWith [str "*"; str "bob"])).
    discriminate.
  - apply (@isUserAllowed_empty_hostname (str "eve")
             (channelWith [str "*"; str "bob"])).
    discriminate.
Defined.

End AllowlistClaims.

(* ================================================================== *)
(** * Account resolution                                               *)
(* ================================================================== *)

Module AccountsClaims.

Import Spec JSFacts.

Section WithSessionKey.

Variable DEFAULT_ACCOUNT_ID : jsstring.
Variable normalizeAccountId : jsstring -> option jsstring.

(** C3 at the configuration with an [accounts] map and no top-level server
    block, the account "work" requested: [resolveIrcAccount] of accounts.ts
    reports that IRC is not configured, whatever the default identifier and
    the normalisation are; [resolveIrcAccount] of accounts-resolver.ts
    returns the entry. *)
Theorem accounts_map_without_top_server :
  Accounts.resolveIrcAccount DEFAULT_ACCOUNT_ID normalizeAccountId
    accountsOnly (Some (str "work"))
  = Throw (Error Accounts.notConfiguredMessage) /\
  AccountsResolver.resolveIrcAccount DEFAULT_ACCOUNT_ID (fun _ => None)
    accountsOnly (Some (str "work"))
  = Ok {| ResolvedIrcAccount.accountId := str "work";
          ResolvedIrcAccount.config := workAccount;
          ResolvedIrcAccount.serverConfig := Some libera |}.
Proof. split; reflexivity. Qed.

(** [resolveIrcAccount] of accounts-resolver.ts does what C3 says: it
    reports that IRC is not configured exactly when there is no IRC block or
    the block has neither a server nor an accounts map; *)
Lemma resolver_notConfigured_iff (cfg : OpenClawConfig.t) (input : option jsstring) :
  AccountsResolver.resolveIrcAccount DEFAULT_ACCOUNT_ID normalizeAccountId cfg input
  = Throw (Error AccountsResolver.notConfiguredMessage)
  <->
  match OpenClawConfig.irc cfg with
  | None => True
  | Some ircCfg =>
      IrcAccountConfig.server (OpenClawConfig.top ircCfg) = None /\
      OpenClawConfig.accounts ircCfg = None
  end.
Proof.
  unfold AccountsResolver.resolveIrcAccount.
  destruct (OpenClawConfig.irc cfg) as [ircCfg|]; [|tauto].
  destruct (IrcAccountConfig.server (OpenClawConfig.top ircCfg)) as [srv|] eqn:Hsrv;
    destruct (OpenClawConfig.accounts ircCfg) as [accounts|] eqn:Hacc; simpl.
  - split; [|intros [H _]; discriminate].
    destruct (get accounts _) as [account|]; [|discriminate].
    destruct (IrcAccountConfig.server account); discriminate.
  - split; [|intros [H _]; discriminate].
    destruct (eqb _ DEFAULT_ACCOUNT_ID); simpl; [discriminate|].
    intros H. inversion H.
  - split; [|intros [_ H]; discriminate].
    destruct (get accounts _) as [account|]; [|discriminate].
    destruct (IrcAccountConfig.server account); discriminate.
  - tauto.
Qed.

(** an entry of the accounts map with a server block is returned, with or
    without a top-level server block; *)
Lemma resolver_returns_entry (cfg : OpenClawConfig.t) (ircCfg : OpenClawConfig.IrcSection)
    (accounts : Dict IrcAccountConfig.t) (input : option jsstring)
    (account : IrcAccountConfig.t) (server : IrcServerConfig.t) :
  OpenClawConfig.irc cfg = Some ircCfg ->
  OpenClawConfig.accounts ircCfg = Some accounts ->
  get accounts (requestedId normalizeAccountId DEFAULT_ACCOUNT_ID input) = Some account ->
  IrcAccountConfig.server account = Some server ->
  AccountsResolver.resolveIrcAccount DEFAULT_ACCOUNT_ID normalizeAccountId cfg input
  = Ok {| ResolvedIrcAccount.accountId :=
            requestedId normalizeAccountId DEFAULT_ACCOUNT_ID input;
          ResolvedIrcAccount.config := account;
          ResolvedIrcAccount.serverConfig := Some server |}.
Proof.
  intros Hirc Hacc Hget Hsrv. unfold AccountsResolver.resolveIrcAccount.
  rewrite Hirc, Hacc. simpl. rewrite andb_false_r.
  fold (requestedId normalizeAccountId DEFAULT_ACCOUNT_ID input).
  now rewrite Hget, Hsrv.
Qed.

(** and an identifier that is not in the accounts map is named in the
    error, together with the identifiers that are. *)
Lemma resolver_names_missing_account (cfg : OpenClawConfig.t)
    (ircCfg : OpenClawConfig.IrcSection) (accounts : Dict IrcAccountConfig.t)
    (input : option jsstring) :
  OpenClawConfig.irc cfg = Some ircCfg ->
  OpenClawConfig.accounts ircCfg = Some accounts ->
  get accounts (requestedId normalizeAccountId DEFAULT_ACCOUNT_ID input) = None ->
  AccountsResolver.resolveIrcAccount DEFAULT_ACCOUNT_ID normalizeAccountId cfg input
  = Throw (Error (accountNotFoundMessage
                    (requestedId normalizeAccountId DEFAULT_ACCOUNT_ID input)
                    (keys accounts))).
Proof.
  intros Hirc Hacc Hget. unfold AccountsResolver.resolveIrcAccount.
  rewrite Hirc, Hacc. simpl. rewrite andb_false_r.
  fold (requestedId normalizeAccountId DEFAULT_ACCOUNT_ID input).
  now rewrite Hget.
Qed.

(** In accounts.ts the accounts map is only reached behind the test for a
    top-level server block. *)
Lemma accounts_needs_top_server (cfg : OpenClawConfig.t)
    (ircCfg : OpenClawConfig.IrcSection) (input : option jsstring) :
  OpenClawConfig.irc cfg = Some ircCfg ->
  IrcAccountConfig.server (OpenClawConfig.top ircCfg) = None ->
  Accounts.resolveIrcAccount DEFAULT_ACCOUNT_ID normalizeAccountId cfg input
  = Throw (Error Accounts.notConfiguredMessage).
Proof.
  intros Hirc Hsrv. unfold Accounts.resolveIrcAccount. now rewrite Hirc, Hsrv.
Qed.

End WithSessionKey.

End AccountsClaims.

(* ================================================================== *)
(** * Connection and registration                                      *)
(* ================================================================== *)

Module ClientClaims.

Import Client Send Spec SendFacts.



(** A send between [connect()] and the registration, on the client
    [createIrcClient] gives: the text reaches the library client. *)
Lemma send_before_registration :
  exists c' c'',
    connect (Ok {| calls := []; assignedNick := None |}) (createIrcClient workAccount)
    = Ok c' /\
    isRegistered c' = false /\
    sendMessageIrc c' (str "#ops") (str "hello") noOptions = Some (Ok c'') /\
    callLog c'' = [Connect; Say (str "#ops") (str "hello")].
Proof. eexists. eexists. repeat split; vm_compute; reflexivity. Qed.

End ClientClaims.

(* ================================================================== *)
(** * The monitor                                                      *)
(* ================================================================== *)

Module MonitorClaims.

Import Client Monitor Spec SpecAmended.

Lemma disconnect_idempotent (reason : option jsstring) (c : IrcClient) :
  disconnect reason (disconnect reason c) = disconnect reason c.
Proof.
  unfold disconnect. destruct (connected c) eqn:Hc.
  - destruct (Client.client c) eqn:Hl; simpl; [reflexivity | now rewrite Hc, Hl].
  - simpl. now rewrite Hc.
Qed.

Lemma handle_keeps_stopped (env : MonitorEnv) (ev : Event) (st st' : MonitorState) :
  handle env ev st = Ok st' -> stopped st' = stopped st.
Proof.
  destruct ev; simpl.
  - unfold onRegistered.
    destruct (joinAll _ _) as [c|e]; simpl; [|discriminate].
    intros H. inversion H. unfold callExternal.
    match goal with
    | |- context [if ?b then _ else _] => destruct b
    end; reflexivity.
  - intros H. inversion H. unfold onMessage, callExternal.
    destruct (stopped st) eqn:Hs; [exact Hs|].
    match goal with
    | |- context [if ?b then _ else _] => destruct b
    end; simpl; exact Hs.
  - intros H. inversion H. unfold onNotice, callExternal.
    destruct (stopped st) eqn:Hs; [exact Hs|].
    match goal with
    | |- context [if ?b then _ else _] => destruct b
    end; simpl; exact Hs.
  - intros H. inversion H. unfold onError, callExternal.
    match goal with
    | |- context [if ?b then _ else _] => destruct b
    end; reflexivity.
  - intros H. inversion H. unfold onClose, callExternal.
    destruct (stopped st) eqn:Hs; simpl;
      match goal with
      | |- context [if ?b then _ else _] => destruct b
      end; simpl; exact Hs.
Qed.

(** The handler bodies, as functions of the variables they close over.
    With the flag set, the [message] and [notice] handlers return at once;
    the [error] handler, which has no such test, still logs, and so does the
    [registered] handler when its joins succeed. *)
Lemma guard_only_in_message_and_notice (env : MonitorEnv) (st : MonitorState) :
  stopped st = true ->
  (forall nick target message, onMessage nick target message st = st) /\
  (forall nick message, onNotice nick message st = st) /\
  (forall message, exists rest,
      effects (onError message st)
      = effects st ++ RuntimeError (str "[irc] Error: " ++ message) :: rest) /\
  (forall st', onRegistered env st = Ok st' ->
      exists rest,
        effects st' = effects st ++ RuntimeLog (connectedLine (serverConfig env)) :: rest).
Proof.
  intros Hs. split; [|split; [|split]].
  - intros. unfold onMessage. now rewrite Hs.
  - intros. unfold onNotice. now rewrite Hs.
  - intros message. unfold onError, callExternal.
    match goal with
    | |- context [if ?b then _ else _] => destruct b
    end; cbn [effects withEffect].
    + rewrite <- app_assoc. eexists. reflexivity.
    + eexists. reflexivity.
  - intros st'. unfold onRegistered.
    destruct (joinAll _ _) as [c|e]; cbn [bind]; [|discriminate].
    intros H. inversion H. unfold callExternal.
    match goal with
    | |- context [if ?b then _ else _] => destruct b
    end; cbn [effects withEffect withClient].
    + rewrite <- app_assoc. eexists. reflexivity.
    + eexists. reflexivity.
Qed.

(** The handlers are registered on [(client as any).client], which is still
    [null] when [monitorIrcProvider] reads it: once the account is
    resolved, the call throws before it connects. *)
Lemma monitorIrcProvider_throws (DEFAULT_ACCOUNT_ID : jsstring)
    (normalizeAccountId : jsstring -> option jsstring)
    (library : Result IrcClientLike) (cfg : OpenClawConfig.t)
    (accountId : option jsstring) :
  exists e, monitorIrcProvider DEFAULT_ACCOUNT_ID normalizeAccountId library cfg accountId
            = Throw e.
Proof.
  unfold monitorIrcProvider.
  destruct (Accounts.resolveIrcAccount _ _ cfg accountId) as [account|e]; simpl;
    eexists; reflexivity.
Qed.

(** C8 on every input.  [monitorIrcProvider] returns no handle: once the
    account is resolved it throws the [TypeError] of reading [on] from
    [null], before a handler is registered and before [connect()]; otherwise
    it throws the error of the resolution.  There is no [stop()] to call and
    no handler to consult the flag. *)
Theorem monitorIrcProvider_returns_no_handle
    (DEFAULT_ACCOUNT_ID : jsstring) (normalizeAccountId : jsstring -> option jsstring)
    (library : Result IrcClientLike) (cfg : OpenClawConfig.t)
    (accountId : option jsstring) :
  monitorIrcProvider DEFAULT_ACCOUNT_ID normalizeAccountId library cfg accountId
  = match Accounts.resolveIrcAccount DEFAULT_ACCOUNT_ID normalizeAccountId cfg accountId with
    | Ok _ => Throw (TypeError (nullPropertyMessage (str "on")))
    | Throw e => Throw e
    end /\
  forall handle,
    monitorIrcProvider DEFAULT_ACCOUNT_ID normalizeAccountId library cfg accountId
    <> Ok handle.
Proof.
  unfold monitorIrcProvider.
  destruct (Accounts.resolveIrcAccount _ _ cfg accountId) as [account|e];
    cbn [bind createIrcClient new Client.client]; split;
    try reflexivity; intros handle H; discriminate H.
Qed.

(** On a configuration with one account and its server block. *)
Lemma monitor_fails_on_single_account :
  monitorIrcProvider (str "default") (fun _ => None)
    (Ok {| calls := []; assignedNick := None |}) singleAccount None
  = Throw (TypeError (nullPropertyMessage (str "on"))).
Proof. reflexivity. Qed.

End MonitorClaims.

(* ================================================================== *)
(** * The probe                                                        *)
(* ================================================================== *)

Module ProbeClaims.

Import Client Probe Spec.

(** C7 on every input.  [probeIrc] returns, with [ok:false] and an error;
    but the error is the [TypeError] of reading [on] from [null], whatever
    happens on the network and whenever the timer fires, and [cleanup] has
    not run: no listener was removed and [quit] was not called. *)
Theorem probeIrc_fails_before_connecting
    (serverConfig : IrcServerConfig.t) (timeoutMs : N) (events : list ProbeEvent) :
  let st := probeIrc serverConfig timeoutMs events in
  ok (result st) = false /\
  error (result st) = Some (nullPropertyMessage (str "on")) /\
  error (result st) <> Some (timeoutMessage timeoutMs) /\
  cleanups st = 0 /\
  callLog (wrapper st) = [].
Proof.
  cbv zeta. unfold probeIrc. cbn [createIrcClient new Client.client executor
    internalClient connection setConnection settle].
  destruct events; cbn; repeat split; try reflexivity;
    unfold timeoutMessage; intros H; inversion H.
Qed.

(** With the listeners in place, each of [registered], [error] and [close]
    runs [cleanup] once and calls [quit] once; when the timer fires first,
    [cleanup] does not run and [quit] is not called. *)
Lemma listening_probe_cleanups (timeoutMs : N) :
  let lib := {| calls := [Connect]; assignedNick := None |} in
  let nick := IrcServerConfig.nick libera in
  let quits st :=
    length (filter (fun call => match call with Quit _ => true | _ => false end)
              (callLog (wrapper st))) in
  (let st := race nick timeoutMs [EvRegistered] (listeningProbe lib) in
   ok (result st) = true /\ cleanups st = 1 /\ quits st = 1) /\
  (let st := race nick timeoutMs [EvError (Error (str "refused")); EvClose]
               (listeningProbe lib) in
   ok (result st) = false /\ error (result st) = Some (str "refused") /\
   cleanups st = 1 /\ quits st = 1) /\
  (let st := race nick timeoutMs [EvClose] (listeningProbe lib) in
   ok (result st) = false /\ error (result st) = Some closedMessage /\
   cleanups st = 1 /\ quits st = 1) /\
  (let st := race nick timeoutMs [] (listeningProbe lib) in
   ok (result st) = false /\ error (result st) = Some (timeoutMessage timeoutMs) /\
   cleanups st = 0 /\ quits st = 0).
Proof.
  cbv zeta. repeat split; reflexivity.
Qed.

End ProbeClaims.

(* ================================================================== *)
(** * Further properties: target keys and target resolution            *)
(* ================================================================== *)

Module TargetsExtras.

Import RegExp Targets TargetResolution Spec SpecMore JSFacts RegExpFacts TargetsClaims.

Lemma lowerChar_idempotent (c : ascii) : lowerChar (lowerChar c) = lowerChar c.
Proof. destruct c as [[] [] [] [] [] [] [] []]; reflexivity. Qed.

Lemma toLowerCase_idempotent (s : jsstring) :
  toLowerCase (toLowerCase s) = toLowerCase s.
Proof.
  unfold toLowerCase. rewrite map_map. apply map_ext. apply lowerChar_idempotent.
Qed.

Lemma lowerChar_hash (c : ascii) : isHash (lowerChar c) = isHash c.
Proof. destruct c as [[] [] [] [] [] [] [] []]; reflexivity. Qed.

Lemma startsWith_nil (s : jsstring) : startsWith s [] = true.
Proof. now destruct s. Qed.

Lemma startsWith_hash_lower (s : jsstring) :
  startsWith (toLowerCase s) (str "#") = startsWith s (str "#").
Proof.
  destruct s as [|c s]; [reflexivity|].
  unfold toLowerCase. cbn [map]. change (str "#") with ["#"%char].
  cbn [startsWith]. rewrite !startsWith_nil, !andb_true_r.
  exact (lowerChar_hash c).
Qed.

Lemma toLowerCase_app (a b : jsstring) :
  toLowerCase (a ++ b) = toLowerCase a ++ toLowerCase b.
Proof. apply map_app. Qed.

Lemma startsWith_split (s p : jsstring) :
  startsWith s p = true -> s = p ++ skipn (length p) s.
Proof.
  revert s. induction p as [|c p IH]; intros s H; [reflexivity|].
  destruct s as [|x s]; [discriminate|]. simpl in H.
  apply andb_true_iff in H as [Hx Hs]. apply Ascii.eqb_eq in Hx. subst x.
  simpl. now rewrite <- (IH s Hs).
Qed.

(** Two strings that agree up to their first colon and after it. *)
Lemma split_at_colon (a a' r r' : jsstring) :
  forallb (fun c => negb (isColon c)) a = true ->
  forallb (fun c => negb (isColon c)) a' = true ->
  a ++ ":"%char :: r = a' ++ ":"%char :: r' ->
  a = a' /\ r = r'.
Proof.
  revert a'. induction a as [|x a IH]; intros [|x' a'] Ha Ha' H; simpl in *.
  - inversion H. auto.
  - inversion H; subst x'. apply andb_true_iff in Ha' as [Hx _]. discriminate Hx.
  - inversion H; subst x. apply andb_true_iff in Ha as [Hx _]. discriminate Hx.
  - inversion H; subst x'.
    apply andb_true_iff in Ha as [_ Ha]. apply andb_true_iff in Ha' as [_ Ha'].
    destruct (IH a' Ha Ha' H2) as [E1 E2]. subst. auto.
Qed.

(** X1.  Keys are injective on account identifiers without colon: two equal
    keys come from the same account and from targets that agree up to
    case. *)
Theorem buildIrcTargetKey_injective (a a' t t' : jsstring) :
  forallb (fun c => negb (isColon c)) a = true ->
  forallb (fun c => negb (isColon c)) a' = true ->
  buildIrcTargetKey (Some a) t = buildIrcTargetKey (Some a') t' ->
  a = a' /\ toLowerCase t = toLowerCase t'.
Proof.
  intros Ha Ha' H. unfold buildIrcTargetKey in H.
  apply app_inv_head in H.
  now apply split_at_colon.
Qed.

Lemma buildIrcTargetKey_injective_witness :
  str "work" = str "work" /\ toLowerCase (str "#Ops") = toLowerCase (str "#OPS").
Proof.
  apply (@buildIrcTargetKey_injective (str "work") (str "work") (str "#Ops") (str "#OPS"));
    reflexivity.
Defined.

(** With a colon in the account identifier two different pairs share a
    key. *)
Lemma buildIrcTargetKey_colon_collision :
  buildIrcTargetKey (Some (str "a:b")) (str "c")
  = buildIrcTargetKey (Some (str "a")) (str "b:c").
Proof. reflexivity. Qed.

Lemma takeWhile_forallb (p : ascii -> bool) (s : jsstring) :
  forallb p (takeWhile p s) = true.
Proof.
  induction s as [|c s IH]; simpl; [reflexivity|].
  destruct (p c) eqn:Hc; simpl; [|reflexivity]. now rewrite Hc.
Qed.

Lemma firstn_length_app (u v : jsstring) : firstn (length u) (u ++ v) = u.
Proof.
  rewrite <- (Nat.add_0_r (length u)), firstn_app_2. simpl. apply app_nil_r.
Qed.

(** What a successful match of [/^irc:([^:]+):(.+)$/] says of the input. *)
Lemma exec_targetKey_inv (key : jsstring) (m : MatchResult) :
  exec targetKeyRegex key = Some m ->
  exists a t,
    key = str "irc:" ++ a ++ str ":" ++ t /\
    captures m = [(2, t); (1, a)] /\
    a <> [] /\ forallb (fun c => negb (isColon c)) a = true /\
    t <> [] /\ forallb (fun c => negb (isLineTerminator c)) t = true.
Proof.
  unfold targetKeyRegex. rewrite exec_anchored, matcher_seq, matcher_lit.
  destruct (startsWith key (str "irc:")) eqn:Hpre; [|discriminate].
  apply startsWith_split in Hpre.
  change (length (str "irc:")) with 4 in *.
  destruct (skipn 4 key) as [|x rest] eqn:Hrest; [discriminate|].
  rewrite matcher_seq, matcher_group, matcher_plus.
  destruct (atomMatches notColon x) eqn:Hx; [|discriminate].
  rewrite star_possessive.
  2:{ intros pos y rest' caps Hy. rewrite matcher_seq, matcher_one.
      cbn [atomMatches]. rewrite notColon_matches in Hy. unfold isColon in Hy.
      apply negb_true_iff in Hy. now rewrite Hy. }
  pose proof (takeWhile_dropWhile (atomMatches notColon) rest) as Hsplit.
  pose proof (takeWhile_forallb (atomMatches notColon) rest) as Hu.
  remember (takeWhile (atomMatches notColon) rest) as u eqn:Hu0. clear Hu0.
  destruct (dropWhile (atomMatches notColon) rest) as [|y v] eqn:Hv;
    [discriminate|].
  rewrite matcher_seq, matcher_one. cbn [atomMatches].
  destruct (Ascii.eqb y ":") eqn:Hy; [|discriminate].
  apply Ascii.eqb_eq in Hy. subst y.
  rewrite matcher_seq, matcher_group.
  destruct v as [|z w]; [discriminate|].
  rewrite matcher_plus. cbn [atomMatches].
  destruct (negb (isLineTerminator z)) eqn:Hz; [|discriminate].
  rewrite star_possessive by (intros; reflexivity).
  pose proof (takeWhile_dropWhile (atomMatches Dot) w) as Hsplit2.
  destruct (dropWhile (atomMatches Dot) w) as [|q w'] eqn:Hw; [|discriminate].
  rewrite matcher_eol. unfold accept. intros H. inversion H; subst m; clear H.
  rewrite app_nil_r in Hsplit2.
  assert (Hall : forallb (atomMatches Dot) w = true)
    by (now apply dropWhile_nil_iff).
  exists (x :: u), (z :: w). cbn [captures].
  split; [|split; [|split; [discriminate|split; [|split; [discriminate|]]]]].
  - rewrite Hpre at 1. rewrite <- Hsplit. reflexivity.
  - rewrite Hsplit2.
    assert (E1 : firstn (length u) rest = u)
      by (rewrite <- Hsplit; apply firstn_length_app).
    match goal with
    | |- context [firstn ?n (z :: w)] =>
        replace n with (S (length w)) by (destruct (length u); lia)
    end.
    cbn [firstn]. now rewrite E1, firstn_all.
  - cbn [forallb]. rewrite <- notColon_matches, Hx. cbn [andb].
    eapply forallb_impl; [|exact Hu]. intros c Hc. now rewrite <- notColon_matches.
  - cbn [forallb]. rewrite Hz. exact Hall.
Qed.

(** X2.  A key that parses has the shape [irc:<account>:<target>], the
    account non-empty and without colon, the target non-empty and without
    line terminator; building the key again from the parsed pair and parsing
    that gives the same account and the lower-cased target. *)
Theorem parseIrcTargetKey_shape (key : jsstring) (p : ParsedTargetKey) :
  parseIrcTargetKey key = Some p ->
  key = str "irc:" ++ accountId p ++ str ":" ++ Targets.target p /\
  accountId p <> [] /\
  forallb (fun c => negb (isColon c)) (accountId p) = true /\
  Targets.target p <> [] /\
  forallb (fun c => negb (isLineTerminator c)) (Targets.target p) = true /\
  parseIrcTargetKey (buildIrcTargetKey (Some (accountId p)) (Targets.target p))
  = Some {| accountId := accountId p;
            Targets.target := toLowerCase (Targets.target p) |}.
Proof.
  unfold parseIrcTargetKey at 1.
  destruct (exec targetKeyRegex key) as [m|] eqn:Hm; [|discriminate].
  intros H. inversion H; subst p; clear H.
  destruct (exec_targetKey_inv key Hm) as (a & t & Hkey & Hcaps & Ha & Hcolon & Ht & Hlt).
  unfold groupOrEmpty. rewrite Hcaps. cbn [group Nat.eqb accountId Targets.target].
  repeat split; auto.
  unfold parseIrcTargetKey, buildIrcTargetKey.
  destruct (@exec_targetKey a (toLowerCase t)) as (e & He); auto.
  - destruct t; [congruence | discriminate].
  - rewrite forallb_lower; [exact Hlt|].
    intros c. now rewrite lowerChar_lineTerminator.
  - rewrite He. reflexivity.
Qed.

Lemma parseIrcTargetKey_shape_witness :
  str "irc:work:#Ops" = str "irc:" ++ str "work" ++ str ":" ++ str "#Ops" /\
  parseIrcTargetKey (buildIrcTargetKey (Some (str "work")) (str "#Ops"))
  = Some {| accountId := str "work"; Targets.target := str "#ops" |}.
Proof.
  destruct (@parseIrcTargetKey_shape (str "irc:work:#Ops")
              {| accountId := str "work"; Targets.target := str "#Ops" |} eq_refl)
    as (H1 & _ & _ & _ & _ & H2).
  split; [exact H1 | exact H2].
Defined.

Lemma parse_assembled (a tl : jsstring) :
  a <> [] ->
  forallb (fun c => negb (isColon c)) a = true ->
  tl <> [] ->
  forallb (fun c => negb (isLineTerminator c)) tl = true ->
  parseIrcTargetKey (str "irc:" ++ a ++ str ":" ++ tl)
  = Some {| accountId := a; Targets.target := tl |}.
Proof.
  intros Ha Hc Ht Hlt. unfold parseIrcTargetKey.
  destruct (@exec_targetKey a tl Ha Hc Ht Hlt) as (e & He).
  now rewrite He.
Qed.

Lemma hasKeyShape_split (t : jsstring) :
  hasKeyShape t = true ->
  exists u v,
    t = str "irc:" ++ u ++ str ":" ++ v /\
    u <> [] /\ forallb (fun c => negb (isColon c)) u = true /\ v <> [].
Proof.
  unfold hasKeyShape. intros H. apply andb_true_iff in H as [Hpre H].
  apply startsWith_split in Hpre. change (length (str "irc:")) with 4 in Hpre.
  pose proof (takeWhile_dropWhile (fun c => negb (isColon c)) (skipn 4 t)) as Hsplit.
  pose proof (takeWhile_forallb (fun c => negb (isColon c)) (skipn 4 t)) as Hu.
  destruct (takeWhile (fun c => negb (isColon c)) (skipn 4 t)) as [|x u];
    [discriminate|].
  destruct (dropWhile (fun c => negb (isColon c)) (skipn 4 t)) as [|y [|z v]] eqn:Hd;
    try discriminate.
  apply dropWhile_head in Hd. apply negb_false_iff in Hd. unfold isColon in Hd.
  apply Ascii.eqb_eq in Hd. subst y.
  exists (x :: u), (z :: v). repeat split; try discriminate; [|exact Hu].
  rewrite Hpre at 1. now rewrite <- Hsplit.
Qed.

Lemma lower_nonempty (t : jsstring) : t <> [] -> toLowerCase t <> [].
Proof. destruct t; [congruence | discriminate]. Qed.

Lemma lower_noLineTerminator (t : jsstring) :
  forallb (fun c => negb (isLineTerminator c)) t = true ->
  forallb (fun c => negb (isLineTerminator c)) (toLowerCase t) = true.
Proof.
  intros H. rewrite forallb_lower; [exact H|].
  intros c. now rewrite lowerChar_lineTerminator.
Qed.

Lemma lower_noColon (t : jsstring) :
  forallb (fun c => negb (isColon c)) t = true ->
  forallb (fun c => negb (isColon c)) (toLowerCase t) = true.
Proof.
  intros H. rewrite forallb_lower; [exact H|].
  intros c. now rewrite lowerChar_colon.
Qed.

(** X3.  A key that [normalize] returns parses, provided the trimmed input
    is on one line; for a channel or a nick it parses to the default account
    and the lower-cased input. *)
Theorem normalized_key_parses (raw key : jsstring) :
  normalizeIrcMessagingTarget raw = Some key ->
  forallb (fun c => negb (isLineTerminator c)) (trim raw) = true ->
  exists p,
    parseIrcTargetKey key = Some p /\
    (hasKeyShape (trim raw) = false ->
     accountId p = str "default" /\ Targets.target p = toLowerCase (trim raw)).
Proof.
  unfold normalizeIrcMessagingTarget. intros H Hlt.
  destruct (trim raw) as [|c t] eqn:Ht; [discriminate|].
  rewrite test_prefixedRegex, test_nickRegex in H.
  destruct (hasKeyShape (c :: t)) eqn:Hshape.
  - destruct (hasKeyShape_split _ Hshape) as (u & v & E & Hu & Hcolon & Hv).
    rewrite E in H, Hlt. injection H as H. subst key.
    rewrite !forallb_app in Hlt.
    apply andb_true_iff in Hlt as [_ Hlt]. apply andb_true_iff in Hlt as [_ Hlt].
    apply andb_true_iff in Hlt as [_ Hlt].
    rewrite !toLowerCase_app.
    change (toLowerCase (str "irc:")) with (str "irc:").
    change (toLowerCase (str ":")) with (str ":").
    eexists. split; [|discriminate].
    apply parse_assembled;
      auto using lower_nonempty, lower_noLineTerminator, lower_noColon.
  - assert (Hkey : key = str "irc:" ++ str "default" ++ str ":" ++ toLowerCase (c :: t)).
    { destruct (startsWith (c :: t) (str "#")); [now inversion H|].
      destruct (isNick (c :: t)); [now inversion H | discriminate]. }
    rewrite Hkey. eexists. split.
    + apply parse_assembled; try discriminate; [reflexivity|].
      now apply lower_noLineTerminator.
    + intros _. split; reflexivity.
Qed.

Lemma normalized_key_parses_witness :
  exists p,
    parseIrcTargetKey (str "irc:default:#general") = Some p /\
    (hasKeyShape (trim (str " #General ")) = false ->
     accountId p = str "default" /\
     Targets.target p = toLowerCase (trim (str " #General "))).
Proof.
  apply (@normalized_key_parses (str " #General ") (str "irc:default:#general"));
    reflexivity.
Defined.

(** A channel name of two lines is accepted by [normalize] and its key
    does not parse. *)
Lemma normalized_key_of_two_lines :
  let raw := str "#a" ++ [ascii_of_nat 10] ++ str "b" in
  exists key,
    normalizeIrcMessagingTarget raw = Some key /\ parseIrcTargetKey key = None.
Proof. eexists. split; vm_compute; reflexivity. Qed.

Lemma nickFirst_notHash (c : ascii) :
  isLetter c || isNickSpecial c = true -> isHash c = false.
Proof.
  destruct c as [[] [] [] [] [] [] [] []]; intros H; try reflexivity; discriminate H.
Qed.

Lemma nickChar_plainName (c : ascii) :
  isLetter c || isDigit c || isNickSpecial c = true -> plainNameChar c = true.
Proof.
  destruct c as [[] [] [] [] [] [] [] []]; intros H; try reflexivity; discriminate H.
Qed.

Lemma nickChar_notSpace (c : ascii) :
  isLetter c || isDigit c || isNickSpecial c = true -> Ascii.eqb " " c = false.
Proof.
  destruct c as [[] [] [] [] [] [] [] []]; intros H; try reflexivity; discriminate H.
Qed.

Lemma isNick_all (t : jsstring) :
  isNick t = true ->
  forallb (fun x => isLetter x || isDigit x || isNickSpecial x) t = true.
Proof.
  destruct t as [|c t]; [discriminate|]. unfold isNick. cbn [forallb].
  rewrite !andb_true_iff. intros [Hc Ht]. split; [|exact Ht].
  apply orb_true_iff in Hc as [Hc|Hc]; rewrite Hc;
    [reflexivity | apply orb_true_r].
Qed.

Lemma isNick_noSpace (t : jsstring) : isNick t = true -> includes t " " = false.
Proof.
  intros H. apply isNick_all in H. unfold includes.
  induction t as [|c t IH]; [reflexivity|]. cbn [existsb forallb] in *.
  apply andb_true_iff in H as [Hc Ht].
  now rewrite (nickChar_notSpace c Hc), (IH Ht).
Qed.

Lemma test_nickStartRegex (t : jsstring) :
  test nickStartRegex t
  = match t with c :: _ => isLetter c || isNickSpecial c | [] => false end.
Proof.
  unfold test, nickStartRegex. rewrite exec_anchored.
  destruct t as [|c t]; [reflexivity|].
  rewrite matcher_one, nickFirst_matches.
  now destruct (isLetter c || isNickSpecial c).
Qed.

(** X4.  What [resolveIrcTarget] returns is classified consistently: the
    target of a channel starts with [#], is in lower case and is a channel
    for [isIrcChannel] and no DM for [isIrcDm]; the target of a DM is the
    trimmed input, case kept, a nick, a DM for [isIrcDm] and no channel for
    [isIrcChannel]. *)
Theorem resolveIrcTarget_classified (input : jsstring) (config : IrcAccountConfig.t)
    (t : IrcTarget) :
  resolveIrcTarget input config = Ok (Some t) ->
  match type t with
  | channel =>
      startsWith (TargetResolution.target t) (str "#") = true /\
      toLowerCase (TargetResolution.target t) = TargetResolution.target t /\
      isIrcChannel (TargetResolution.target t) = true /\
      isIrcDm (TargetResolution.target t) = false
  | dm =>
      TargetResolution.target t = trim input /\
      isNick (TargetResolution.target t) = true /\
      isIrcDm (TargetResolution.target t) = true /\
      isIrcChannel (TargetResolution.target t) = false
  end.
Proof.
  unfold resolveIrcTarget.
  destruct (trim input) as [|c s] eqn:Ht; [discriminate|].
  remember (c :: s) as w eqn:Hw.
  destruct (startsWith w (str "#")) eqn:Hhash.
  - unfold serverHost. destruct (IrcAccountConfig.server config); [|discriminate].
    cbn [bind]. intros H. injection H as H. subst t.
    cbn [type TargetResolution.target]. unfold isIrcChannel, isIrcDm.
    rewrite startsWith_hash_lower, Hhash, toLowerCase_idempotent. auto.
  - rewrite test_nickRegex.
    destruct (negb (includes w " ") && isNick w) eqn:Hnick.
    + apply andb_true_iff in Hnick as [_ Hnick].
      unfold serverHost. destruct (IrcAccountConfig.server config); [|discriminate].
      cbn [bind]. intros H. injection H as H. subst t.
      cbn [type TargetResolution.target]. unfold isIrcChannel, isIrcDm.
      rewrite Hhash, test_nickStartRegex. repeat split; auto.
      subst w. unfold isNick in Hnick. apply andb_true_iff in Hnick as [Hc _].
      now rewrite Hc.
    + destruct (exec networkRegex w) as [m|]; [|discriminate].
      remember (groupOrEmpty 2 m) as ch eqn:Hch.
      destruct (startsWith ch (str "#")) eqn:E2;
        intros H; injection H as H; subst t;
        cbn [type TargetResolution.target]; unfold isIrcChannel, isIrcDm.
      * rewrite startsWith_hash_lower, E2, toLowerCase_idempotent. auto.
      * assert (Hh : startsWith (str "#" ++ toLowerCase ch) (str "#") = true)
          by apply startsWith_app.
        assert (Hl : toLowerCase (str "#" ++ toLowerCase ch)
                     = str "#" ++ toLowerCase ch)
          by (now rewrite toLowerCase_app, toLowerCase_idempotent).
        split; [exact Hh|]. split; [exact Hl|]. split; [exact Hh|].
        match goal with
        | |- negb ?a && _ = false =>
            replace a with true by (symmetry; exact Hh)
        end.
        reflexivity.
Qed.

Lemma resolveIrcTarget_classified_witness :
  (startsWith (str "#ops") (str "#") = true /\
   toLowerCase (str "#ops") = str "#ops" /\
   isIrcChannel (str "#ops") = true /\ isIrcDm (str "#ops") = false) /\
  (str "Bob" = trim (str " Bob ") /\
   isNick (str "Bob") = true /\
   isIrcDm (str "Bob") = true /\ isIrcChannel (str "Bob") = false).
Proof.
  split.
  - apply (@resolveIrcTarget_classified (str "#Ops") workAccount
             {| type := channel; TargetResolution.target := str "#ops";
                network := None; server := Some (str "irc.libera.chat") |}).
    reflexivity.
  - apply (@resolveIrcTarget_classified (str " Bob ") workAccount
             {| type := dm; TargetResolution.target := str "Bob";
                network := None; server := Some (str "irc.libera.chat") |}).
    reflexivity.
Defined.

(** X5.  Whatever [normalize] accepts as a channel or a nick,
    [resolveIrcTarget] accepts too for an account with a server block, and
    the key built from the resolved target is the key [normalize] gave. *)
Theorem resolveIrcTarget_agrees_with_normalize
    (raw key : jsstring) (config : IrcAccountConfig.t) (s : IrcServerConfig.t) :
  IrcAccountConfig.server config = Some s ->
  hasKeyShape (trim raw) = false ->
  normalizeIrcMessagingTarget raw = Some key ->
  exists t,
    resolveIrcTarget raw config = Ok (Some t) /\
    server t = Some (IrcServerConfig.host s) /\
    buildIrcTargetKey None (TargetResolution.target t) = key.
Proof.
  intros Hs Hshape. unfold normalizeIrcMessagingTarget, resolveIrcTarget, serverHost.
  rewrite Hs. destruct (trim raw) as [|c t] eqn:Ht; [discriminate|].
  rewrite test_prefixedRegex, Hshape, test_nickRegex.
  destruct (startsWith (c :: t) (str "#")).
  - intros H. injection H as H. subst key. eexists. split; [reflexivity|].
    split; [reflexivity|]. cbn [TargetResolution.target].
    unfold buildIrcTargetKey. now rewrite toLowerCase_idempotent.
  - destruct (isNick (c :: t)) eqn:Hnick; [|discriminate].
    rewrite (isNick_noSpace _ Hnick). cbn [negb andb].
    intros H. injection H as H. subst key. eexists. split; [reflexivity|].
    split; reflexivity.
Qed.

Lemma resolveIrcTarget_agrees_with_normalize_witness :
  exists t,
    resolveIrcTarget (str " Bob ") workAccount = Ok (Some t) /\
    server t = Some (IrcServerConfig.host libera) /\
    buildIrcTargetKey None (TargetResolution.target t) = str "irc:default:bob".
Proof.
  apply (@resolveIrcTarget_agrees_with_normalize (str " Bob ") (str "irc:default:bob")
           workAccount libera); reflexivity.
Defined.

Lemma notHashColon_matches (x : ascii) :
  atomMatches (Class true hashOrColon) x = plainNameChar x.
Proof. destruct x as [[] [] [] [] [] [] [] []]; reflexivity. Qed.

Lemma hashOrColon_matches (x : ascii) :
  atomMatches (Class false hashOrColon) x = negb (plainNameChar x).
Proof. destruct x as [[] [] [] [] [] [] [] []]; reflexivity. Qed.

Lemma lineTerminator_blank (c : ascii) :
  negb (isWhiteSpace c) = true -> negb (isLineTerminator c) = true.
Proof.
  destruct c as [[] [] [] [] [] [] [] []]; intros H; try reflexivity; discriminate H.
Qed.

(** The match of [/^([^#:]+)[#:](.+)$/] on a network, a separator and a
    channel name. *)
Lemma exec_network (net chan : jsstring) (sep : ascii) :
  net <> [] ->
  forallb plainNameChar net = true ->
  plainNameChar sep = false ->
  chan <> [] ->
  forallb (fun c => negb (isLineTerminator c)) chan = true ->
  exists e,
    exec networkRegex (net ++ sep :: chan)
    = Some {| endIndex := e; captures := [(2, chan); (1, net)] |}.
Proof.
  intros Hn Hplain Hsep Hc Hlt.
  unfold networkRegex. rewrite exec_anchored, matcher_seq, matcher_group.
  rewrite plus_possessive.
  - replace (0 + length net - 0) with (length net) by lia.
    rewrite firstn_length_app.
    rewrite matcher_seq, matcher_one, hashOrColon_matches, Hsep. cbn [negb].
    rewrite matcher_seq, matcher_group, plus_possessive_all.
    + rewrite matcher_eol. unfold accept.
      match goal with
      | |- context [firstn ?n chan] => replace n with (length chan) by lia
      end.
      rewrite firstn_all. eexists. reflexivity.
    + intros pos x rest caps _. reflexivity.
    + exact Hc.
    + exact Hlt.
  - intros pos x rest caps Hx. rewrite matcher_seq, matcher_one.
    rewrite hashOrColon_matches. rewrite notHashColon_matches in Hx.
    now rewrite Hx.
  - exact Hn.
  - eapply forallb_impl; [|exact Hplain].
    intros c Hcc. now rewrite notHashColon_matches.
  - rewrite notHashColon_matches. exact Hsep.
Qed.

Lemma solid_trim (s : jsstring) : solid s = true -> trim s = s.
Proof.
  intros H. unfold trim. rewrite trimStart_id by exact H. now apply trimEnd_id.
Qed.

(** X6.  An input [<network>#<name>] or [<network>:<name>] without
    whitespace, the network holding neither [#] nor [:], resolves to the
    channel [#<name>] in lower case on that network, whether or not the
    account has a server block. *)
Theorem resolveIrcTarget_network_form
    (net chan : jsstring) (sep : ascii) (config : IrcAccountConfig.t) :
  net <> [] ->
  forallb plainNameChar net = true ->
  sep = "#"%char \/ sep = ":"%char ->
  chan <> [] ->
  solid (net ++ sep :: chan) = true ->
  resolveIrcTarget (net ++ sep :: chan) config
  = Ok (Some {| type := channel;
                TargetResolution.target := hashed chan;
                network := Some net;
                server := None |}).
Proof.
  intros Hn Hplain Hsep Hc Hsolid.
  assert (Hsep' : plainNameChar sep = false) by (destruct Hsep; subst; reflexivity).
  assert (Hhash : startsWith (net ++ sep :: chan) (str "#") = false).
  { destruct net as [|x net]; [congruence|]. cbn [forallb] in Hplain.
    apply andb_true_iff in Hplain as [Hx _]. unfold plainNameChar in Hx.
    apply andb_true_iff in Hx as [Hx _]. apply negb_true_iff in Hx.
    unfold isHash in Hx. change (str "#") with ["#"%char]. cbn [app startsWith].
    now rewrite Hx. }
  assert (Hnick : isNick (net ++ sep :: chan) = false).
  { destruct (isNick (net ++ sep :: chan)) eqn:E; [|reflexivity].
    apply isNick_all in E. rewrite forallb_app in E.
    apply andb_true_iff in E as [_ E]. cbn [forallb] in E.
    apply andb_true_iff in E as [E _]. apply nickChar_plainName in E. congruence. }
  assert (Hlt : forallb (fun c => negb (isLineTerminator c)) chan = true).
  { unfold solid in Hsolid. rewrite forallb_app in Hsolid.
    apply andb_true_iff in Hsolid as [_ Hs]. cbn [forallb] in Hs.
    apply andb_true_iff in Hs as [_ Hs].
    eapply forallb_impl; [|exact Hs]. apply lineTerminator_blank. }
  destruct (@exec_network net chan sep Hn Hplain Hsep' Hc Hlt) as (e & He).
  unfold resolveIrcTarget. rewrite (solid_trim _ Hsolid).
  rewrite Hhash, test_nickRegex, Hnick, andb_false_r, He.
  destruct (net ++ sep :: chan) as [|c w] eqn:Hw; [now destruct net|].
  reflexivity.
Qed.

Lemma resolveIrcTarget_network_form_witness :
  resolveIrcTarget (str "libera" ++ "#"%char :: str "General") workAccount
  = Ok (Some {| type := channel;
                TargetResolution.target := hashed (str "General");
                network := Some (str "libera");
                server := None |}).
Proof.
  apply resolveIrcTarget_network_form;
    try discriminate; try reflexivity. now left.
Defined.

End TargetsExtras.

(* ================================================================== *)
(** * Further properties: the delivery pipeline                        *)
(* ================================================================== *)

Module SendExtras.

Import Client Send SendHelpers Spec SpecMore JSFacts SendFacts.

(** X7.  [sendActionIrc], [sendNoticeIrc] and [editMessageIrc] never split:
    on a connected client each makes exactly one call that carries the whole
    text, however long it is. *)
Theorem helpers_never_split
    (c : IrcClient) (lib : IrcClientLike) (target text newText : jsstring) :
  isConnected c = true ->
  client c = Some lib ->
  (exists c', sendActionIrc c target text = Some (Ok c') /\
              callLog c' = calls lib ++ [Action target text]) /\
  (exists c', sendNoticeIrc c target text = Some (Ok c') /\
              callLog c' = calls lib ++ [Notice target text]) /\
  (exists c', editMessageIrc c target text newText = Some (Ok c') /\
              callLog c' =
                calls lib ++
                [Say target (text ++ str " (Correction: " ++ newText ++ str ")")]).
Proof.
  intros Hconn Hlib.
  unfold sendActionIrc, sendNoticeIrc, editMessageIrc, sendMessageIrc.
  rewrite Hconn. cbn [negb split noOptions truthy]. rewrite !orb_true_r.
  rewrite !(fun o t => @emit_ok o target t c lib Hlib).
  repeat split; eexists; split; reflexivity.
Qed.

Lemma helpers_never_split_witness :
  exists c',
    sendActionIrc readyClient (str "#ops") (repeat "a"%char 1000) = Some (Ok c') /\
    callLog c' = [] ++ [Action (str "#ops") (repeat "a"%char 1000)].
Proof.
  apply (@helpers_never_split readyClient {| calls := []; assignedNick := None |}
           (str "#ops") (repeat "a"%char 1000) []); reflexivity.
Defined.

Lemma dropWhile_snoc (p : ascii -> bool) (l : jsstring) (c : ascii) :
  p c = false -> dropWhile p (l ++ [c]) = dropWhile p l ++ [c].
Proof.
  intros Hc. induction l as [|x l IH]; simpl; [now rewrite Hc|].
  destruct (p x); [exact IH | reflexivity].
Qed.

Lemma trimEnd_cons (c : ascii) (s : jsstring) :
  isWhiteSpace c = false -> trimEnd (c :: s) = c :: trimEnd s.
Proof.
  intros Hc. unfold trimEnd. cbn [rev].
  rewrite dropWhile_snoc by exact Hc. rewrite rev_app_distr. reflexivity.
Qed.

Lemma endsBlank_trimEnd (s : jsstring) : endsBlank (trimEnd s) = false.
Proof.
  unfold endsBlank, trimEnd. rewrite rev_involutive.
  destruct (dropWhile isWhiteSpace (rev s)) as [|c t] eqn:E; [reflexivity|].
  simpl. exact (dropWhile_head _ _ E).
Qed.

Lemma startsBlank_trimStart (s : jsstring) : startsBlank (trimStart s) = false.
Proof.
  unfold trimStart.
  destruct (dropWhile isWhiteSpace s) as [|c t] eqn:E; [reflexivity|].
  simpl. exact (dropWhile_head _ _ E).
Qed.

Lemma startsBlank_chunk (r : jsstring) (n : nat) :
  startsBlank r = false -> startsBlank (trimEnd (firstn n r)) = false.
Proof.
  destruct r as [|c r]; [now rewrite firstn_nil|].
  destruct n as [|n]; [reflexivity|]. simpl startsBlank at 1. intros Hc.
  cbn [firstn]. now rewrite trimEnd_cons.
Qed.

(** The chunks the loop adds are trimmed at their end, all but the first
    of them at their start as well, and so is what remains. *)
Lemma splitLoop_trimmed (fuel : nat) :
  forall chunks r chunks' rest,
    splitLoop fuel chunks r = Some (chunks', rest) ->
    exists new,
      chunks' = chunks ++ new /\
      Forall (fun chunk => endsBlank chunk = false) new /\
      Forall (fun chunk => startsBlank chunk = false) (tl new) /\
      (startsBlank r = false -> Forall (fun chunk => startsBlank chunk = false) new) /\
      ((new = [] /\ rest = r) \/ (new <> [] /\ startsBlank rest = false)).
Proof.
  induction fuel as [|fuel IH]; intros chunks r chunks' rest; simpl.
  - destruct (Z.of_nat (length r) >? MAX_LENGTH)%Z; [discriminate|].
    intros H. inversion H; subst. exists []. rewrite app_nil_r.
    repeat split; auto.
  - destruct (Z.of_nat (length r) >? MAX_LENGTH)%Z eqn:Hgt.
    + intros H. apply Z.gtb_lt, Z.lt_gt in Hgt.
      destruct (splitIndex_spec r Hgt) as (Hi & _).
      destruct (IH _ _ _ _ H) as (new & E & Hends & Htl & Hstart & Hrest).
      set (chunk := trimEnd (slice r 0 (splitIndex r))) in *.
      exists (chunk :: new). rewrite E, <- app_assoc.
      pose proof (startsBlank_trimStart (sliceFrom r (splitIndex r))) as Hr'.
      repeat split.
      * constructor; [apply endsBlank_trimEnd | exact Hends].
      * exact (Hstart Hr').
      * intros Hr. constructor; [|exact (Hstart Hr')].
        subst chunk. rewrite slice_prefix by lia. now apply startsBlank_chunk.
      * right. split; [discriminate|].
        destruct Hrest as [[_ Hrest] | [_ Hrest]]; [now rewrite Hrest | exact Hrest].
    + intros H. inversion H; subst. exists []. rewrite app_nil_r.
      repeat split; auto.
Qed.

Lemma Forall_removelast (P : jsstring -> Prop) (l : list jsstring) :
  Forall P l -> Forall P (removelast l).
Proof.
  induction l as [|x l IH]; intros H; [constructor|].
  inversion H; subst. simpl. destruct l; [constructor|].
  constructor; auto.
Qed.

(** X8.  No chunk but the last ends with whitespace and no chunk but the
    first starts with whitespace. *)
Theorem chunks_are_trimmed (text : jsstring) (chunks : list jsstring) :
  chunksOf text = Some chunks ->
  Forall (fun chunk => endsBlank chunk = false) (removelast chunks) /\
  Forall (fun chunk => startsBlank chunk = false) (tl chunks).
Proof.
  unfold chunksOf.
  destruct (splitLoop (length text) [] text) as [[new' rest]|] eqn:Hloop;
    [|discriminate].
  destruct (splitLoop_trimmed _ _ _ Hloop) as (new & E & Hends & Htl & _ & Hrest).
  simpl in E. subst new'.
  destruct rest as [|c rest]; intros H; inversion H; subst chunks; clear H.
  - split; [now apply Forall_removelast | exact Htl].
  - rewrite removelast_last. split; [exact Hends|].
    destruct Hrest as [[Hnew _] | [Hnew Hrest]].
    + subst new. constructor.
    + destruct new as [|x new]; [congruence|]. simpl.
      simpl in Htl. apply Forall_app. split; [exact Htl|].
      constructor; [exact Hrest | constructor].
Qed.

Lemma chunks_are_trimmed_witness :
  Forall (fun chunk => endsBlank chunk = false)
    (removelast [repeat "a"%char 399; repeat "b"%char 10]) /\
  Forall (fun chunk => startsBlank chunk = false)
    (tl [repeat "a"%char 399; repeat "b"%char 10]).
Proof.
  apply (@chunks_are_trimmed (repeat "a"%char 399 ++ str "  " ++ repeat "b"%char 10)).
  vm_compute. reflexivity.
Defined.

(** Every turn of the loop uses up at least 302 characters of the text. *)
Lemma splitLoop_count (fuel : nat) :
  forall chunks r chunks' rest,
    splitLoop fuel chunks r = Some (chunks', rest) ->
    exists new,
      chunks' = chunks ++ new /\
      302 * length new + length rest <= length r.
Proof.
  induction fuel as [|fuel IH]; intros chunks r chunks' rest; simpl.
  - destruct (Z.of_nat (length r) >? MAX_LENGTH)%Z; [discriminate|].
    intros H. inversion H; subst. exists []. rewrite app_nil_r. simpl. auto.
  - destruct (Z.of_nat (length r) >? MAX_LENGTH)%Z eqn:Hgt.
    + intros H. apply Z.gtb_lt, Z.lt_gt in Hgt.
      destruct (splitIndex_spec r Hgt) as (Hi & _).
      destruct (IH _ _ _ _ H) as (new & E & Hcount).
      exists (trimEnd (slice r 0 (splitIndex r)) :: new).
      rewrite E, <- app_assoc. split; [reflexivity|].
      pose proof (trimStart_length (sliceFrom r (splitIndex r))) as Hle.
      rewrite sliceFrom_suffix, length_skipn in Hle by lia.
      rewrite sliceFrom_suffix in Hcount by lia.
      simpl length. lia.
    + intros H. inversion H; subst. exists []. rewrite app_nil_r. simpl. auto.
Qed.

Lemma chunksOf_count (text : jsstring) (chunks : list jsstring) :
  chunksOf text = Some chunks -> length chunks <= length text / 302 + 1.
Proof.
  unfold chunksOf.
  destruct (splitLoop (length text) [] text) as [[new' rest]|] eqn:Hloop;
    [|discriminate].
  destruct (splitLoop_count _ _ _ Hloop) as (new & E & Hcount).
  simpl in E. subst new'.
  assert (Hnew : length new <= length text / 302)
    by (apply Nat.div_le_lower_bound; lia).
  set (q := length text / 302) in *. clearbody q.
  destruct rest as [|c rest]; intros H; inversion H; subst chunks.
  - lia.
  - rewrite length_app. simpl. lia.
Qed.

(** X9.  On a connected client a send makes at least one call and at most
    one more than a 302nd of the length of the text: every chunk but the
    last uses up at least 302 characters. *)
Theorem sendMessageIrc_call_count
    (c : IrcClient) (lib : IrcClientLike) (target text : jsstring) (o : SendOptions) :
  isConnected c = true ->
  client c = Some lib ->
  exists c' messages,
    sendMessageIrc c target text o = Some (Ok c') /\
    callLog c' = calls lib ++ map (callFor o target) messages /\
    1 <= length messages <= length text / 302 + 1.
Proof.
  intros Hconn Hlib. unfold sendMessageIrc. rewrite Hconn. cbn [negb].
  destruct ((Z.of_nat (length text) <=? MAX_LENGTH)%Z || negb (truthy (split o)))
    eqn:Hone.
  - rewrite (@emit_ok o target text c lib Hlib).
    eexists. exists [text]. split; [reflexivity|].
    split; [reflexivity|]. simpl. lia.
  - apply orb_false_iff in Hone as [Hlen _]. apply Z.leb_gt in Hlen.
    unfold MAX_LENGTH in Hlen.
    destruct (chunksOf_spec text) as (chunks & gaps & Hchunks & _ & _ & _ & _ & Hne).
    rewrite Hchunks.
    destruct (@sendChunks_log o target (length chunks) chunks 0 c lib Hlib)
      as (c' & Hsend & Hlog & _).
    exists c', (messagesFor o chunks). rewrite Hsend.
    split; [reflexivity|]. split.
    + rewrite Hlog. unfold messagesFor. now rewrite map_map.
    + unfold messagesFor.
      rewrite length_map, length_combine, length_seq, Nat.min_id.
      split; [|exact (chunksOf_count _ Hchunks)].
      destruct chunks; [exfalso; apply Hne; [lia | reflexivity] | simpl; lia].
Qed.

Lemma sendMessageIrc_call_count_witness :
  exists c' messages,
    sendMessageIrc readyClient (str "#ops") (repeat "a"%char 1000) splitting
    = Some (Ok c') /\
    callLog c' = [] ++ map (callFor splitting (str "#ops")) messages /\
    1 <= length messages <= length (repeat "a"%char 1000) / 302 + 1.
Proof.
  apply (@sendMessageIrc_call_count readyClient
           {| calls := []; assignedNick := None |}); reflexivity.
Defined.

Lemma unbreakable_char (c x : ascii) :
  isWhiteSpace c || isPunctuation c = true ->
  negb (isWhiteSpace x) && negb (isPunctuation x) = true ->
  negb (Ascii.eqb x c) = true.
Proof.
  intros Hc Hx. destruct (Ascii.eqb x c) eqn:E; [|reflexivity].
  apply Ascii.eqb_eq in E. subst x.
  apply andb_true_iff in Hx as [H1 H2].
  apply negb_true_iff in H1, H2. now rewrite H1, H2 in Hc.
Qed.

Lemma unbreakable_absent (c : ascii) (r : jsstring) (fromIndex : Z) :
  isWhiteSpace c || isPunctuation c = true ->
  unbreakable r = true ->
  lastIndexOf r c fromIndex = (-1)%Z.
Proof.
  intros Hc Hr. apply lastIndexOf_absent.
  unfold unbreakable in Hr. rewrite forallb_forall in *.
  intros x Hx. exact (unbreakable_char c x Hc (Hr x Hx)).
Qed.

Lemma unbreakable_splitIndex (r : jsstring) :
  unbreakable r = true -> splitIndex r = MAX_LENGTH.
Proof.
  intros Hr. unfold splitIndex, lastPunctuation.
  rewrite !(fun c H => @unbreakable_absent c r MAX_LENGTH H Hr) by reflexivity.
  reflexivity.
Qed.

Lemma unbreakable_solid (r : jsstring) : unbreakable r = true -> solid r = true.
Proof.
  unfold unbreakable, solid. rewrite !forallb_forall. intros H x Hx.
  specialize (H x Hx). now apply andb_true_iff in H.
Qed.

Lemma unbreakable_skipn (n : nat) (r : jsstring) :
  unbreakable r = true -> unbreakable (skipn n r) = true.
Proof.
  unfold unbreakable. intros H. rewrite <- (firstn_skipn n r), forallb_app in H.
  now apply andb_true_iff in H.
Qed.

(** On a remainder that offers no boundary the loop cuts blocks of 400
    characters and drops nothing. *)
Lemma splitLoop_unbreakable (fuel : nat) :
  forall chunks r,
    unbreakable r = true ->
    length r <= fuel ->
    exists new rest,
      splitLoop fuel chunks r = Some (chunks ++ new, rest) /\
      concat new ++ rest = r /\
      Forall (fun chunk => length chunk = 400) new /\
      length rest <= 400 /\
      (r <> [] -> rest <> []).
Proof.
  induction fuel as [|fuel IH]; intros chunks r Hr Hfuel.
  - exists [], r. destruct r; [|simpl in Hfuel; lia].
    simpl. rewrite app_nil_r. repeat split; auto. lia.
  - simpl. destruct (Z.of_nat (length r) >? MAX_LENGTH)%Z eqn:Hgt.
    + apply Z.gtb_lt in Hgt. unfold MAX_LENGTH in Hgt.
      rewrite (unbreakable_splitIndex _ Hr).
      rewrite slice_prefix, sliceFrom_suffix by (unfold MAX_LENGTH; lia).
      change (Z.to_nat MAX_LENGTH) with 400.
      pose proof (unbreakable_solid _ Hr) as Hsolid.
      rewrite trimEnd_id by (now apply SendClaims.solid_firstn).
      rewrite trimStart_id by (now apply SendClaims.solid_skipn).
      destruct (IH (chunks ++ [firstn 400 r]) (skipn 400 r))
        as (new & rest & Hloop & Hcat & Hnew & Hrest & Hne).
      { now apply unbreakable_skipn. }
      { rewrite length_skipn. lia. }
      exists (firstn 400 r :: new), rest.
      rewrite <- app_assoc in Hloop.
      split; [exact Hloop|]. repeat split; auto.
      * cbn [concat]. rewrite <- app_assoc, Hcat. apply firstn_skipn.
      * constructor; [|exact Hnew]. rewrite length_firstn. lia.
      * intros _. apply Hne. intros E. apply (f_equal (@length ascii)) in E.
        rewrite length_skipn in E. cbn [length] in E. lia.
    + exists [], r. rewrite app_nil_r.
      assert (~ (Z.of_nat (length r) > MAX_LENGTH)%Z) as Hle.
      { intros H. apply Z.gt_lt, Z.gtb_lt in H. congruence. }
      unfold MAX_LENGTH in Hle. repeat split; auto. lia.
Qed.

(** X10.  A text without whitespace and without the five punctuation marks
    is cut into consecutive blocks: the chunks put together are the text,
    every chunk but the last has exactly 400 characters, and the last has
    between 1 and 400. *)
Theorem chunksOf_hard_cuts (text : jsstring) :
  unbreakable text = true ->
  text <> [] ->
  exists chunks final,
    chunksOf text = Some (chunks ++ [final]) /\
    concat chunks ++ final = text /\
    Forall (fun chunk => length chunk = 400) chunks /\
    1 <= length final <= 400.
Proof.
  intros Hr Hne. unfold chunksOf.
  destruct (@splitLoop_unbreakable (length text) [] text Hr (le_n _))
    as (new & rest & Hloop & Hcat & Hnew & Hrest & Hlast).
  rewrite Hloop. specialize (Hlast Hne).
  destruct rest as [|x rest]; [congruence|].
  exists new, (x :: rest). simpl app. repeat split; auto. simpl. lia.
Qed.

Lemma chunksOf_hard_cuts_witness :
  exists chunks final,
    chunksOf (repeat "a"%char 1000) = Some (chunks ++ [final]) /\
    concat chunks ++ final = repeat "a"%char 1000 /\
    Forall (fun chunk => length chunk = 400) chunks /\
    1 <= length final <= 400.
Proof.
  apply (@chunksOf_hard_cuts (repeat "a"%char 1000)); [reflexivity | discriminate].
Defined.

(** After the first turn the remainder starts with a character that is
    kept, so the chunk cut from it is not empty. *)
Lemma splitLoop_nonempty (fuel : nat) :
  forall chunks r chunks' rest,
    splitLoop fuel chunks r = Some (chunks', rest) ->
    startsBlank r = false ->
    exists new,
      chunks' = chunks ++ new /\
      Forall (fun chunk => chunk <> []) new.
Proof.
  induction fuel as [|fuel IH]; intros chunks r chunks' rest; simpl.
  - destruct (Z.of_nat (length r) >? MAX_LENGTH)%Z; [discriminate|].
    intros H _. inversion H; subst. exists []. rewrite app_nil_r. auto.
  - destruct (Z.of_nat (length r) >? MAX_LENGTH)%Z eqn:Hgt.
    + intros H Hr. apply Z.gtb_lt, Z.lt_gt in Hgt.
      destruct (splitIndex_spec r Hgt) as (Hi & _).
      destruct (IH _ _ _ _ H (startsBlank_trimStart _)) as (new & E & Hnew).
      exists (trimEnd (slice r 0 (splitIndex r)) :: new).
      rewrite E, <- app_assoc. split; [reflexivity|].
      constructor; [|exact Hnew].
      rewrite slice_prefix by lia.
      destruct r as [|x r]; [simpl in Hgt; unfold MAX_LENGTH in Hgt; lia|].
      simpl in Hr.
      destruct (Z.to_nat (splitIndex (x :: r))) as [|n] eqn:En; [lia|].
      cbn [firstn]. rewrite trimEnd_cons by exact Hr. discriminate.
    + intros H _. inversion H; subst. exists []. rewrite app_nil_r. auto.
Qed.

(** X11.  A text that does not start with whitespace is never cut into an
    empty chunk. *)
Theorem chunks_nonempty (text : jsstring) (chunks : list jsstring) :
  startsBlank text = false ->
  chunksOf text = Some chunks ->
  Forall (fun chunk => chunk <> []) chunks.
Proof.
  intros Hstart. unfold chunksOf.
  destruct (splitLoop (length text) [] text) as [[new' rest]|] eqn:Hloop;
    [|discriminate].
  destruct (splitLoop_nonempty _ _ _ Hloop Hstart) as (new & E & Hnew).
  simpl in E. subst new'.
  destruct rest as [|c rest]; intros H; inversion H; subst chunks; [exact Hnew|].
  apply Forall_app. split; [exact Hnew|]. constructor; [discriminate | constructor].
Qed.

Lemma chunks_nonempty_witness :
  Forall (fun chunk => chunk <> [])
    [repeat "a"%char 399; repeat "b"%char 10].
Proof.
  apply (@chunks_nonempty (repeat "a"%char 399 ++ str "  " ++ repeat "b"%char 10));
    vm_compute; reflexivity.
Defined.

(** A text that starts with 401 blanks gives an empty first chunk, sent as
    the bare continuation marker. *)
Lemma leading_blanks_give_empty_chunk :
  chunksOf (repeat " "%char 401 ++ str "a") = Some [[]; str "a"].
Proof. vm_compute. reflexivity. Qed.

End SendExtras.

(* ================================================================== *)
(** * Further properties: the client wrapper                           *)
(* ================================================================== *)

Module ClientExtras.

Import Client Send SendHelpers ClientEvents Spec SpecMore JSFacts.

(** X12.  After [disconnect()] the wrapper keeps its library client: the
    send path refuses every message without a call, while
    [reactMessageIrc], which does not test the connection, still reaches the
    library client after the [quit]. *)
Theorem send_after_disconnect
    (c : IrcClient) (lib : IrcClientLike) (reason : option jsstring)
    (target text : jsstring) (o : SendOptions) :
  isConnected c = true ->
  client c = Some lib ->
  exists quitReason c',
    callLog (disconnect reason c) = calls lib ++ [Quit quitReason] /\
    isConnected (disconnect reason c) = false /\
    isRegistered (disconnect reason c) = false /\
    sendMessageIrc (disconnect reason c) target text o = Some (Throw notConnected) /\
    reactMessageIrc (disconnect reason c) target text = Ok c' /\
    callLog c' = calls lib ++ [Quit quitReason; Action target text].
Proof.
  unfold isConnected. intros Hconn Hlib.
  unfold disconnect. rewrite Hconn, Hlib.
  eexists. eexists. split; [reflexivity|]. split; [reflexivity|].
  split; [reflexivity|]. split; [reflexivity|].
  unfold reactMessageIrc, Client.action, forward. cbn [client].
  split; [reflexivity|]. unfold callLog, called. cbn [client calls].
  now rewrite <- app_assoc.
Qed.

Lemma send_after_disconnect_witness :
  exists quitReason c',
    callLog (disconnect None readyClient) = [] ++ [Quit quitReason] /\
    isConnected (disconnect None readyClient) = false /\
    isRegistered (disconnect None readyClient) = false /\
    sendMessageIrc (disconnect None readyClient) (str "#ops") (str "hi") noOptions
    = Some (Throw notConnected) /\
    reactMessageIrc (disconnect None readyClient) (str "#ops") (str "hi") = Ok c' /\
    callLog c' = [] ++ [Quit quitReason; Action (str "#ops") (str "hi")].
Proof.
  apply (@send_after_disconnect readyClient {| calls := []; assignedNick := None |});
    reflexivity.
Defined.

(** X13.  A client that was disconnected can connect again: the library
    client is replaced by the new one, whose only call is [connect], and the
    wrapper is connected and, whatever it was before, not registered. *)
Theorem reconnect_after_disconnect
    (c : IrcClient) (old lib : IrcClientLike) (reason : option jsstring) :
  isConnected c = true ->
  client c = Some old ->
  exists c',
    connect (Ok lib) (disconnect reason c) = Ok c' /\
    callLog c' = calls lib ++ [Connect] /\
    isConnected c' = true /\
    isRegistered c' = false /\
    options c' = options c.
Proof.
  unfold isConnected. intros Hconn Hold.
  unfold disconnect. rewrite Hconn, Hold.
  eexists. split; [reflexivity|]. repeat split.
Qed.

Lemma reconnect_after_disconnect_witness :
  exists c',
    connect (Ok {| calls := []; assignedNick := None |}) (disconnect None readyClient)
    = Ok c' /\
    callLog c' = [] ++ [Connect] /\
    isConnected c' = true /\
    isRegistered c' = false /\
    options c' = options readyClient.
Proof.
  apply (@reconnect_after_disconnect readyClient
           {| calls := []; assignedNick := None |}); reflexivity.
Defined.

(** X14.  The CTCP handler never fails on a client that has its library
    client and leaves the flags of the wrapper alone.  It answers a request
    with at most one call, a CTCP response to the nick that asked and of the
    type that was asked; a PING is answered with its own parameters, and a
    PING without parameters, like a request of any other type than VERSION,
    PING, TIME and SOURCE, is not answered. *)
Theorem onCtcpRequest_answers
    (now : jsstring) (event : CtcpRequest) (c : IrcClient) (lib : IrcClientLike) :
  client c = Some lib ->
  exists c',
    onCtcpRequest now event c = Ok c' /\
    isConnected c' = isConnected c /\
    isRegistered c' = isRegistered c /\
    (callLog c' = calls lib \/
     exists answer,
       callLog c' = calls lib ++ [CtcpResponse (nick event) (type event) (Some answer)] /\
       (type event = str "PING" -> params event = Some answer)) /\
    (callLog c' = calls lib <->
     (type event = str "PING" /\ (params event = None \/ params event = Some [])) \/
     ~ In (type event) [str "VERSION"; str "PING"; str "TIME"; str "SOURCE"]).
Proof.
  intros Hlib. unfold onCtcpRequest, ctcpResponse, forward. rewrite Hlib.
  assert (Hgrow : forall call, calls lib ++ [call] = calls lib -> False).
  { intros call H. apply (f_equal (@length IrcCall)) in H.
    rewrite length_app in H. simpl in H. lia. }
  destruct (eqb (type event) (str "VERSION")) eqn:E1.
  { apply eqb_eq in E1. eexists. split; [reflexivity|]. repeat split.
    - right. eexists. rewrite E1. split; [reflexivity|]. discriminate.
    - intros H. exfalso. exact (Hgrow _ H).
    - rewrite E1. intros [[H _] | H]; [discriminate | exfalso; apply H; simpl; auto]. }
  apply eqb_neq in E1.
  destruct (eqb (type event) (str "PING")) eqn:E2.
  { apply eqb_eq in E2. destruct (params event) as [[|x p]|] eqn:Hp.
    - exists c. unfold callLog. rewrite Hlib. repeat split; auto.
    - eexists. split; [reflexivity|]. repeat split.
      + right. eexists. rewrite E2. split; reflexivity.
      + intros H. exfalso. exact (Hgrow _ H).
      + rewrite E2. intros [[_ [H | H]] | H]; try discriminate.
        exfalso. apply H. simpl. auto.
    - exists c. unfold callLog. rewrite Hlib. repeat split; auto. }
  apply eqb_neq in E2.
  destruct (eqb (type event) (str "TIME")) eqn:E3.
  { apply eqb_eq in E3. eexists. split; [reflexivity|]. repeat split.
    - right. eexists. rewrite E3. split; [reflexivity|]. discriminate.
    - intros H. exfalso. exact (Hgrow _ H).
    - rewrite E3. intros [[H _] | H]; [discriminate | exfalso; apply H; simpl; auto]. }
  apply eqb_neq in E3.
  destruct (eqb (type event) (str "SOURCE")) eqn:E4.
  { apply eqb_eq in E4. eexists. split; [reflexivity|]. repeat split.
    - right. eexists. rewrite E4. split; [reflexivity|]. discriminate.
    - intros H. exfalso. exact (Hgrow _ H).
    - rewrite E4. intros [[H _] | H]; [discriminate | exfalso; apply H; simpl; auto 6]. }
  apply eqb_neq in E4.
  exists c. unfold callLog. rewrite Hlib. repeat split; auto.
  intros _. right. cbn [In]. intros [H|[H|[H|[H|[]]]]]; congruence.
Qed.

Lemma onCtcpRequest_answers_witness :
  exists c',
    onCtcpRequest (str "now")
      {| nick := str "eve"; type := str "PING"; params := Some (str "42") |}
      readyClient = Ok c' /\
    callLog c' = [CtcpResponse (str "eve") (str "PING") (Some (str "42"))].
Proof.
  destruct (@onCtcpRequest_answers (str "now")
              {| nick := str "eve"; type := str "PING"; params := Some (str "42") |}
              readyClient {| calls := []; assignedNick := None |} eq_refl)
    as (c' & Hrun & _).
  exists c'. split; [exact Hrun|].
  vm_compute in Hrun. inversion Hrun. reflexivity.
Defined.

End ClientExtras.

(* ================================================================== *)
(** * Further properties: account resolution                           *)
(* ================================================================== *)

Module AccountsExtras.

Import Spec SpecMore JSFacts.

(** X15.  Whichever resolver returns an account, the account is an entry
    of the configuration and has a server block, the one of the
    configuration it carries: with an [accounts] map it is the entry stored
    under the identifier returned, without one it is the top-level block
    under the default identifier. *)
Theorem resolved_account_is_configured
    (DEFAULT_ACCOUNT_ID : jsstring) (normalizeAccountId : jsstring -> option jsstring)
    (cfg : OpenClawConfig.t) (input : option jsstring)
    (account : ResolvedIrcAccount.t) :
  Accounts.resolveIrcAccount DEFAULT_ACCOUNT_ID normalizeAccountId cfg input
  = Ok account \/
  AccountsResolver.resolveIrcAccount DEFAULT_ACCOUNT_ID normalizeAccountId cfg input
  = Ok account ->
  exists ircCfg server,
    OpenClawConfig.irc cfg = Some ircCfg /\
    ResolvedIrcAccount.serverConfig account = Some server /\
    IrcAccountConfig.server (ResolvedIrcAccount.config account) = Some server /\
    match OpenClawConfig.accounts ircCfg with
    | Some accounts =>
        get accounts (ResolvedIrcAccount.accountId account)
        = Some (ResolvedIrcAccount.config account)
    | None =>
        ResolvedIrcAccount.accountId account = DEFAULT_ACCOUNT_ID /\
        ResolvedIrcAccount.config account = OpenClawConfig.top ircCfg
    end.
Proof.
  unfold Accounts.resolveIrcAccount, AccountsResolver.resolveIrcAccount.
  destruct (OpenClawConfig.irc cfg) as [ircCfg|]; [|intros [H|H]; discriminate].
  destruct (IrcAccountConfig.server (OpenClawConfig.top ircCfg)) as [top|] eqn:Htop;
    destruct (OpenClawConfig.accounts ircCfg) as [accounts|] eqn:Hacc;
    cbn [isSome negb andb];
    intros [H|H]; try discriminate;
    repeat match type of H with
    | context [get accounts ?id] =>
        let Hget := fresh "Hget" in destruct (get accounts id) as [entry|] eqn:Hget
    | context [IrcAccountConfig.server ?e] =>
        let Hsrv := fresh "Hsrv" in
        destruct (IrcAccountConfig.server e) as [server|] eqn:Hsrv
    | context [negb (eqb ?a ?b)] => destruct (eqb a b)
    end;
    try discriminate; inversion H; subst account;
    cbn [ResolvedIrcAccount.accountId ResolvedIrcAccount.config
         ResolvedIrcAccount.serverConfig];
    eexists; eexists; (split; [reflexivity|]); rewrite Hacc;
    (split; [reflexivity|]); repeat split; assumption.
Qed.

Lemma resolved_account_is_configured_witness :
  exists ircCfg server,
    OpenClawConfig.irc accountsOnly = Some ircCfg /\
    Some libera = Some server /\
    IrcAccountConfig.server workAccount = Some server /\
    match OpenClawConfig.accounts ircCfg with
    | Some accounts => get accounts (str "work") = Some workAccount
    | None => str "work" = str "default" /\ workAccount = OpenClawConfig.top ircCfg
    end.
Proof.
  apply (@resolved_account_is_configured (str "default") (fun _ => None)
           accountsOnly (Some (str "work"))
           {| ResolvedIrcAccount.accountId := str "work";
              ResolvedIrcAccount.config := workAccount;
              ResolvedIrcAccount.serverConfig := Some libera |}).
  right. reflexivity.
Defined.

(** X16.  With a top-level server block the two resolvers give the same
    answer, account or error, to every request that names an account. *)
Theorem resolvers_agree_on_named_account
    (DEFAULT_ACCOUNT_ID : jsstring) (normalizeAccountId : jsstring -> option jsstring)
    (cfg : OpenClawConfig.t) (ircCfg : OpenClawConfig.IrcSection)
    (server : IrcServerConfig.t) (c : ascii) (id : jsstring) :
  OpenClawConfig.irc cfg = Some ircCfg ->
  IrcAccountConfig.server (OpenClawConfig.top ircCfg) = Some server ->
  Accounts.resolveIrcAccount DEFAULT_ACCOUNT_ID normalizeAccountId cfg (Some (c :: id))
  = AccountsResolver.resolveIrcAccount DEFAULT_ACCOUNT_ID normalizeAccountId cfg
      (Some (c :: id)).
Proof.
  intros Hirc Hsrv.
  unfold Accounts.resolveIrcAccount, AccountsResolver.resolveIrcAccount.
  rewrite Hirc, Hsrv. reflexivity.
Qed.

Lemma resolvers_agree_on_named_account_witness :
  Accounts.resolveIrcAccount (str "default") (fun _ => None) withTopServer
    (Some (str "work"))
  = AccountsResolver.resolveIrcAccount (str "default") (fun _ => None) withTopServer
      (Some (str "work")).
Proof.
  apply (@resolvers_agree_on_named_account (str "default") (fun _ => None)
           withTopServer
           {| OpenClawConfig.top := workAccount;
              OpenClawConfig.accounts := Some [(str "work", workAccount)] |}
           libera);
    reflexivity.
Defined.

(** Without a name the two differ: accounts.ts falls back on the only
    enabled account, accounts-resolver.ts on the default identifier. *)
Lemma resolvers_differ_without_name :
  Accounts.resolveIrcAccount (str "default") (fun _ => None) withTopServer None
  = Ok {| ResolvedIrcAccount.accountId := str "work";
          ResolvedIrcAccount.config := workAccount;
          ResolvedIrcAccount.serverConfig := Some libera |} /\
  AccountsResolver.resolveIrcAccount (str "default") (fun _ => None) withTopServer None
  = Throw (Error (accountNotFoundMessage (str "default") [str "work"])).
Proof. split; reflexivity. Qed.

(** X17.  In accounts.ts a request without a name resolves to the only
    account of the map that is not disabled, provided its key is its own
    normal form and the configuration has a top-level server block. *)
Theorem sole_enabled_account_is_default
    (DEFAULT_ACCOUNT_ID : jsstring) (normalizeAccountId : jsstring -> option jsstring)
    (cfg : OpenClawConfig.t) (ircCfg : OpenClawConfig.IrcSection)
    (accounts : Dict IrcAccountConfig.t) (top server : IrcServerConfig.t)
    (key : jsstring) (account : IrcAccountConfig.t) :
  OpenClawConfig.irc cfg = Some ircCfg ->
  IrcAccountConfig.server (OpenClawConfig.top ircCfg) = Some top ->
  OpenClawConfig.accounts ircCfg = Some accounts ->
  filter (fun entry => notDisabled (IrcAccountConfig.enabled (snd entry))) accounts
  = [(key, account)] ->
  get accounts key = Some account ->
  Accounts.normalized normalizeAccountId key = key ->
  IrcAccountConfig.server account = Some server ->
  Accounts.resolveDefaultIrcAccountId DEFAULT_ACCOUNT_ID normalizeAccountId cfg = key /\
  Accounts.resolveIrcAccount DEFAULT_ACCOUNT_ID normalizeAccountId cfg None
  = Ok {| ResolvedIrcAccount.accountId := key;
          ResolvedIrcAccount.config := account;
          ResolvedIrcAccount.serverConfig := Some server |}.
Proof.
  intros Hirc Htop Hacc Hfilter Hget Hnorm Hsrv.
  assert (Hdefault :
    Accounts.resolveDefaultIrcAccountId DEFAULT_ACCOUNT_ID normalizeAccountId cfg = key).
  { unfold Accounts.resolveDefaultIrcAccountId, Accounts.listIrcAccountIds.
    rewrite Hirc, Hacc, Hfilter. exact Hnorm. }
  split; [exact Hdefault|].
  unfold Accounts.resolveIrcAccount. rewrite Hirc, Htop, Hacc, Hdefault, Hget, Hsrv.
  reflexivity.
Qed.

Lemma sole_enabled_account_is_default_witness :
  Accounts.resolveDefaultIrcAccountId (str "default") (fun _ => None) oneDisabled
  = str "work" /\
  Accounts.resolveIrcAccount (str "default") (fun _ => None) oneDisabled None
  = Ok {| ResolvedIrcAccount.accountId := str "work";
          ResolvedIrcAccount.config := workAccount;
          ResolvedIrcAccount.serverConfig := Some libera |}.
Proof.
  eapply (@sole_enabled_account_is_default (str "default") (fun _ => None) oneDisabled);
    reflexivity.
Defined.

End AccountsExtras.

(* ================================================================== *)
(** * Further properties: the configuration helpers                    *)
(* ================================================================== *)

Module ConfigExtras.

Import ConfigHelpers Spec SpecMore JSFacts.

(** X18.  [isAccountConfigured] looks at the host and the nick only: it
    holds exactly when the server block it is given, or else the one of the
    account, exists and has a non-empty host and a non-empty nick.  The
    clause on the port and on TLS never decides. *)
Theorem isAccountConfigured_iff
    (account : IrcAccountConfig.t) (serverConfig : option IrcServerConfig.t) :
  isAccountConfigured account serverConfig = true <->
  exists server,
    (serverConfig = Some server \/
     serverConfig = None /\ IrcAccountConfig.server account = Some server) /\
    IrcServerConfig.host server <> [] /\
    IrcServerConfig.nick server <> [].
Proof.
  unfold isAccountConfigured.
  assert (Hport : forall server,
    truthyNumber (IrcServerConfig.port server)
    || (notDisabled (IrcServerConfig.tls server) && truthyNumber (Some 6697%N))
    || (negb (match IrcServerConfig.tls server with Some true => true | _ => false end)
        && truthyNumber (Some 6667%N)) = true).
  { intros server. destruct (IrcServerConfig.tls server) as [[]|]; cbn;
      now rewrite ?orb_true_r. }
  assert (Hne : forall s : jsstring, nonEmpty s = true <-> s <> []).
  { intros [|c s]; simpl; split; congruence. }
  split.
  - destruct serverConfig as [server|];
      [|destruct (IrcAccountConfig.server account) as [server|] eqn:Hsrv;
        [|discriminate]];
      rewrite Hport, andb_true_r, andb_true_iff, !Hne; intros [Hh Hn];
      exists server; auto.
  - intros (server & [Hs | [Hs Ha]] & Hh & Hn); subst serverConfig;
      rewrite ?Ha, Hport, andb_true_r, andb_true_iff, !Hne; auto.
Qed.

Lemma isAccountConfigured_iff_witness : isAccountConfigured workAccount None = true.
Proof.
  apply (proj2 (@isAccountConfigured_iff workAccount None)).
  exists libera. split; [right; split; reflexivity|]. split; discriminate.
Defined.

Lemma lowerChar_whiteSpace (c : ascii) : isWhiteSpace (lowerChar c) = isWhiteSpace c.
Proof. destruct c as [[] [] [] [] [] [] [] []]; reflexivity. Qed.

Lemma dropWhile_lower (s : jsstring) :
  dropWhile isWhiteSpace (toLowerCase s) = toLowerCase (dropWhile isWhiteSpace s).
Proof.
  unfold toLowerCase. induction s as [|c s IH]; [reflexivity|]. simpl.
  rewrite lowerChar_whiteSpace. now destruct (isWhiteSpace c).
Qed.

Lemma trim_lower (s : jsstring) : trim (toLowerCase s) = toLowerCase (trim s).
Proof.
  unfold trim, trimEnd, trimStart. rewrite dropWhile_lower.
  unfold toLowerCase at 1. rewrite <- map_rev.
  fold (toLowerCase (rev (dropWhile isWhiteSpace s))).
  rewrite dropWhile_lower. unfold toLowerCase. now rewrite map_rev.
Qed.

Lemma trimStart_fixed (s : jsstring) : startsBlank s = false -> trimStart s = s.
Proof. destruct s as [|c s]; [reflexivity|]. unfold trimStart. simpl. now intros ->. Qed.

Lemma trimEnd_fixed (s : jsstring) : endsBlank s = false -> trimEnd s = s.
Proof.
  unfold endsBlank, trimEnd. intros H.
  change (dropWhile isWhiteSpace (rev s)) with (trimStart (rev s)).
  rewrite trimStart_fixed by exact H. apply rev_involutive.
Qed.

Lemma trim_idempotent (s : jsstring) : trim (trim s) = trim s.
Proof.
  unfold trim at 1.
  assert (Hstart : startsBlank (trim s) = false).
  { unfold trim. pose proof (SendExtras.startsBlank_trimStart s) as H.
    destruct (trimStart s) as [|c t]; [reflexivity|]. simpl in H.
    now rewrite SendExtras.trimEnd_cons. }
  rewrite (trimStart_fixed _ Hstart). apply trimEnd_fixed.
  unfold trim. apply SendExtras.endsBlank_trimEnd.
Qed.

Lemma nonEmpty_lower (s : jsstring) : nonEmpty (toLowerCase s) = nonEmpty s.
Proof. now destruct s. Qed.

(** The entries that pass the filter, lower-cased, pass the three steps
    unchanged. *)
Lemma format_kept (kept : list jsstring) :
  Forall (fun e => nonEmpty e = true /\ trim e = e) kept ->
  formatAllowFrom (map toLowerCase kept) = map toLowerCase kept.
Proof.
  unfold formatAllowFrom. induction 1 as [|e kept [Hne Htrim] _ IH]; [reflexivity|].
  cbn [map]. rewrite trim_lower, Htrim. cbn [filter].
  rewrite nonEmpty_lower, Hne. cbn [map].
  now rewrite IH, TargetsExtras.toLowerCase_idempotent.
Qed.

(** X19.  [formatAllowFrom] gives a normal form: every entry it returns is
    non-empty, trimmed and lower-case, and formatting its result again
    changes nothing. *)
Theorem formatAllowFrom_normal_form (allowFrom : list jsstring) :
  Forall (fun e => e <> [] /\ trim e = e /\ toLowerCase e = e)
    (formatAllowFrom allowFrom) /\
  formatAllowFrom (formatAllowFrom allowFrom) = formatAllowFrom allowFrom.
Proof.
  assert (Hkept : Forall (fun e => nonEmpty e = true /\ trim e = e)
                    (filter nonEmpty (map trim allowFrom))).
  { apply Forall_forall. intros e He. apply filter_In in He as [He Hne].
    split; [exact Hne|]. apply in_map_iff in He as (raw & <- & _).
    apply trim_idempotent. }
  split.
  - unfold formatAllowFrom. apply Forall_map.
    eapply Forall_impl; [|exact Hkept]. intros e [Hne Htrim]. cbn beta.
    split; [destruct e; [discriminate | discriminate]|].
    split; [now rewrite trim_lower, Htrim | apply TargetsExtras.toLowerCase_idempotent].
  - unfold formatAllowFrom at 2. now apply format_kept.
Qed.

End ConfigExtras.

(* ================================================================== *)
(** * Further properties: joining channels and finding their settings  *)
(* ================================================================== *)

Module MonitorExtras.

Import Client Monitor NetworkConfig Spec SpecMore JSFacts.

(** X21.  The channels joined are those of the entries that are not
    disabled, under their key if it starts with [#] and under [#] followed
    by the key otherwise. *)
Theorem channelsToJoin_iff (networks : Dict IrcNetworkEntry.t) (channel : jsstring) :
  In channel (channelsToJoin networks) <->
  exists name network channels key channelConfig,
    In (name, network) networks /\
    IrcNetworkEntry.channels network = Some channels /\
    In (key, channelConfig) channels /\
    IrcChannelConfig.enabled channelConfig <> Some false /\
    channel = (if startsWith key (str "#") then key else str "#" ++ key).
Proof.
  unfold channelsToJoin. rewrite in_flat_map. split.
  - intros ([name network] & Hnet & Hin). cbn [snd] in Hin.
    apply in_map_iff in Hin as ([key channelConfig] & <- & Hin).
    apply filter_In in Hin as [Hin Hen]. cbn [fst snd] in *.
    destruct (IrcNetworkEntry.channels network) as [channels|] eqn:Hch;
      [|destruct Hin].
    exists name, network, channels, key, channelConfig.
    repeat split; auto. intros E. rewrite E in Hen. discriminate.
  - intros (name & network & channels & key & channelConfig
            & Hnet & Hch & Hin & Hen & ->).
    exists (name, network). split; [exact Hnet|]. cbn [snd]. rewrite Hch.
    apply in_map_iff. exists (key, channelConfig). split; [reflexivity|].
    apply filter_In. split; [exact Hin|]. cbn [snd].
    destruct (IrcChannelConfig.enabled channelConfig) as [[]|]; auto.
Qed.

Lemma channelsToJoin_iff_witness :
  exists name network channels key channelConfig,
    In (name, network) opsNetwork /\
    IrcNetworkEntry.channels network = Some channels /\
    In (key, channelConfig) channels /\
    IrcChannelConfig.enabled channelConfig <> Some false /\
    str "#ops" = (if startsWith key (str "#") then key else str "#" ++ key).
Proof.
  apply (proj1 (@channelsToJoin_iff opsNetwork (str "#ops"))). left. reflexivity.
Defined.

Lemma get_found (A : Type) (d : Dict A) (key : jsstring) (v : A) :
  get d key = Some v -> In (key, v) d.
Proof.
  induction d as [|[k w] d IH]; simpl; [discriminate|].
  destruct (eqb k key) eqn:E.
  - apply eqb_eq in E. intros H. inversion H. subst. now left.
  - intros H. right. now apply IH.
Qed.

Lemma findChannel_found (networks : Dict IrcNetworkEntry.t) (target : jsstring)
    (channelConfig : IrcChannelConfig.t) :
  findChannel networks target = Some channelConfig ->
  exists name network channels,
    In (name, network) networks /\
    IrcNetworkEntry.channels network = Some channels /\
    get channels target = Some channelConfig.
Proof.
  induction networks as [|[name network] networks IH]; simpl; [discriminate|].
  destruct (IrcNetworkEntry.channels network) as [channels|] eqn:Hch.
  - destruct (get channels target) as [found|] eqn:Hget.
    + intros H. inversion H. subst found.
      exists name, network, channels. auto.
    + intros H. destruct (IH H) as (n & nw & chs & Hin & Hc & Hg).
      exists n, nw, chs. auto.
  - simpl. intros H. destruct (IH H) as (n & nw & chs & Hin & Hc & Hg).
    exists n, nw, chs. auto.
Qed.

(** X22.  [resolveIrcNetworkConfig] answers only for a target that starts
    with [#], and only with the entry stored under exactly that key in the
    channels of one of the networks. *)
Theorem resolveIrcNetworkConfig_exact_key
    (config : IrcAccountConfig.t) (target : jsstring)
    (channelConfig : IrcChannelConfig.t) :
  resolveIrcNetworkConfig config target = Some channelConfig ->
  startsWith target (str "#") = true /\
  exists networks name network channels,
    IrcAccountConfig.networks config = Some networks /\
    In (name, network) networks /\
    IrcNetworkEntry.channels network = Some channels /\
    In (target, channelConfig) channels.
Proof.
  unfold resolveIrcNetworkConfig.
  destruct (startsWith target (str "#")); [|discriminate]. cbn [negb].
  intros H. split; [reflexivity|].
  destruct (IrcAccountConfig.networks config) as [networks|]; [|discriminate].
  destruct (findChannel_found _ _ H) as (name & network & channels & Hin & Hch & Hget).
  exists networks, name, network, channels. repeat split; auto.
  now apply get_found.
Qed.

(** The account of [opsEnv] with its channel stored under [#ops]. *)
Lemma resolveIrcNetworkConfig_exact_key_witness :
  startsWith (str "#ops") (str "#") = true /\
  exists networks name network channels,
    IrcAccountConfig.networks hashedOps = Some networks /\
    In (name, network) networks /\
    IrcNetworkEntry.channels network = Some channels /\
    In (str "#ops",
        {| IrcChannelConfig.allow := None;
           IrcChannelConfig.requireMention := None;
           IrcChannelConfig.enabled := None;
           IrcChannelConfig.users := Some [str "alice"] |}) channels.
Proof.
  apply (@resolveIrcNetworkConfig_exact_key hashedOps). reflexivity.
Defined.

(** X23.  A channel whose key lacks the [#] is joined as [#key] but has no
    settings: when no key of the configuration starts with [#],
    [resolveIrcNetworkConfig] answers for no target at all, the names the
    monitor joins included. *)
Theorem hashless_keys_are_never_found
    (config : IrcAccountConfig.t) (networks : Dict IrcNetworkEntry.t)
    (target : jsstring) :
  IrcAccountConfig.networks config = Some networks ->
  forallb (fun key => negb (startsWith key (str "#"))) (channelKeys networks) = true ->
  resolveIrcNetworkConfig config target = None.
Proof.
  intros Hnet Hkeys.
  destruct (resolveIrcNetworkConfig config target) as [channelConfig|] eqn:E;
    [|reflexivity].
  unfold resolveIrcNetworkConfig in E.
  destruct (startsWith target (str "#")) eqn:Hhash; [|discriminate].
  cbn [negb] in E. rewrite Hnet in E.
  destruct (findChannel_found _ _ E) as (name & network & channels & Hin & Hch & Hget).
  apply get_found in Hget.
  rewrite forallb_forall in Hkeys.
  assert (Hkey : In target (channelKeys networks)).
  { unfold channelKeys. apply in_flat_map. exists (name, network).
    split; [exact Hin|]. cbn [snd]. rewrite Hch. unfold keys.
    apply in_map_iff. exists (target, channelConfig). auto. }
  apply Hkeys in Hkey. rewrite Hhash in Hkey. discriminate.
Qed.

Lemma hashless_keys_are_never_found_witness :
  resolveIrcNetworkConfig (config opsEnv) (str "#ops") = None.
Proof.
  apply (@hashless_keys_are_never_found (config opsEnv) opsNetwork (str "#ops"));
    reflexivity.
Defined.

(** The configuration of [opsEnv] stores its channel under [ops]: the
    monitor joins [#ops], for which no settings are found. *)
Lemma ops_joined_without_settings :
  channelsToJoin opsNetwork = [str "#ops"] /\
  resolveIrcNetworkConfig (config opsEnv) (str "#ops") = None /\
  resolveIrcNetworkConfig (config opsEnv) (str "ops") = None.
Proof. repeat split; reflexivity. Qed.

End MonitorExtras.

(* ================================================================== *)
(** * Further properties: the high-level sender                        *)
(* ================================================================== *)

Module WrapperExtras.

Import Client Spec SpecMore JSFacts.

Lemma getIrcClient_held (env : SendWrapper.Env) (activeClients : SendWrapper.Registry)
    (accountId : option jsstring) (held : IrcClient) (registry : SendWrapper.Registry) :
  SendWrapper.getIrcClient env activeClients accountId = Ok (held, registry) ->
  registry = activeClients /\
  exists account,
    AccountsResolver.resolveIrcAccount (SendWrapper.DEFAULT_ACCOUNT_ID env)
      (SendWrapper.normalizeAccountId env) (SendWrapper.loadedConfig env) accountId
    = Ok account /\
    get activeClients (ResolvedIrcAccount.accountId account) = Some held.
Proof.
  unfold SendWrapper.getIrcClient.
  destruct (AccountsResolver.resolveIrcAccount _ _ _ accountId) as [account|e];
    [|discriminate].
  cbn [bind].
  destruct (get activeClients (ResolvedIrcAccount.accountId account)) as [c|] eqn:Hget.
  - intros H. inversion H. subst. split; [reflexivity|]. exists account. auto.
  - destruct (MonitorClaims.monitorIrcProvider_throws
                (SendWrapper.DEFAULT_ACCOUNT_ID env) (SendWrapper.normalizeAccountId env)
                (SendWrapper.library env) (SendWrapper.monitorConfig env) accountId)
      as (e & He).
    rewrite He. discriminate.
Qed.

(** X25.  From the empty registry the module starts with, every send
    through the wrapper throws: either the account does not resolve, or
    starting the monitor for it fails. *)
Theorem wrapper_send_from_empty_registry
    (env : SendWrapper.Env) (to text : jsstring) (opts : SendWrapper.IrcSendOpts) :
  exists e, SendWrapper.sendMessageIrc env [] to text opts = Throw e.
Proof.
  destruct (SendWrapper.sendMessageIrc env [] to text opts)
    as [[[sent client'] registry]|e] eqn:E; [|now exists e].
  unfold SendWrapper.sendMessageIrc in E.
  destruct (SendWrapper.getIrcClient env [] (SendWrapper.accountId opts))
    as [[held registry']|e] eqn:Hget; [|discriminate].
  destruct (getIrcClient_held _ _ _ Hget) as (_ & account & _ & Hheld).
  discriminate.
Qed.

End WrapperExtras.

(* ================================================================== *)
(** * Further properties: targets of an account without server block   *)
(* ================================================================== *)

Module ResolutionExtras.

Import RegExp Targets TargetResolution Spec SpecMore JSFacts TargetsClaims.

(** X27.  [resolveIrcTarget] throws in one case only: the account has no
    server block and the trimmed input is a channel name or a nick; the
    error is then the [TypeError] of reading [host] from [undefined].
    Inputs of the form [<network>#<name>] never throw. *)
Theorem resolveIrcTarget_throws_iff
    (input : jsstring) (config : IrcAccountConfig.t) (e : JsError) :
  resolveIrcTarget input config = Throw e <->
  IrcAccountConfig.server config = None /\
  (startsWith (trim input) (str "#") = true \/ isNick (trim input) = true) /\
  e = TypeError (undefinedPropertyMessage (str "host")).
Proof.
  unfold resolveIrcTarget, serverHost. rewrite test_nickRegex.
  destruct (trim input) as [|c t] eqn:Ht.
  { split; [discriminate|]. intros (_ & [H|H] & _); discriminate. }
  destruct (startsWith (c :: t) (str "#")) eqn:Hhash.
  { destruct (IrcAccountConfig.server config) as [s|]; cbn [bind].
    - split; [discriminate|]. intros (H & _); discriminate.
    - split.
      + intros H. inversion H. auto.
      + intros (_ & _ & ->). reflexivity. }
  destruct (isNick (c :: t)) eqn:Hnick.
  { rewrite (TargetsExtras.isNick_noSpace _ Hnick). cbn [negb andb].
    destruct (IrcAccountConfig.server config) as [s|]; cbn [bind].
    - split; [discriminate|]. intros (H & _); discriminate.
    - split.
      + intros H. inversion H. auto.
      + intros (_ & _ & ->). reflexivity. }
  rewrite andb_false_r.
  split.
  - destruct (exec networkRegex (c :: t)); discriminate.
  - intros (_ & [H|H] & _); discriminate.
Qed.

Lemma resolveIrcTarget_throws_iff_witness :
  resolveIrcTarget (str " #Ops ")
    {| IrcAccountConfig.enabled := None;
       IrcAccountConfig.server := None;
       IrcAccountConfig.networks := None |}
  = Throw (TypeError (undefinedPropertyMessage (str "host"))).
Proof.
  apply (proj2 (@resolveIrcTarget_throws_iff (str " #Ops ")
                  {| IrcAccountConfig.enabled := None;
                     IrcAccountConfig.server := None;
                     IrcAccountConfig.networks := None |}
                  (TypeError (undefinedPropertyMessage (str "host"))))).
  split; [reflexivity|]. split; [left; reflexivity | reflexivity].
Defined.

End ResolutionExtras.

(* ================================================================== *)
(** * Further properties: keys are fixed points of [normalize]         *)
(* ================================================================== *)

Module NormalizeExtras.

Import RegExp Targets Spec SpecMore JSFacts RegExpFacts TargetsClaims.

Lemma hasKeyShape_intro (u v : jsstring) (x : ascii) :
  u <> [] ->
  forallb (fun c => negb (isColon c)) u = true ->
  isLineTerminator x = false ->
  hasKeyShape (str "irc:" ++ u ++ ":"%char :: x :: v) = true.
Proof.
  intros Hu Hcolon Hx. unfold hasKeyShape.
  rewrite (startsWith_app (str "irc:")). cbn [andb].
  change (skipn 4 (str "irc:" ++ u ++ ":"%char :: x :: v)) with (u ++ ":"%char :: x :: v).
  destruct (@takeWhile_all (fun c => negb (isColon c)) u (":"%char :: x :: v) Hcolon eq_refl)
    as [-> ->].
  destruct u; [congruence|]. now rewrite Hx.
Qed.

Lemma hasKeyShape_elim (t : jsstring) :
  hasKeyShape t = true ->
  exists u x v,
    t = str "irc:" ++ u ++ ":"%char :: x :: v /\
    u <> [] /\
    forallb (fun c => negb (isColon c)) u = true /\
    isLineTerminator x = false.
Proof.
  unfold hasKeyShape. intros H. apply andb_true_iff in H as [Hpre H].
  apply TargetsExtras.startsWith_split in Hpre.
  change (length (str "irc:")) with 4 in Hpre.
  pose proof (takeWhile_dropWhile (fun c => negb (isColon c)) (skipn 4 t)) as Hsplit.
  pose proof (TargetsExtras.takeWhile_forallb (fun c => negb (isColon c)) (skipn 4 t))
    as Hcolon.
  destruct (takeWhile (fun c => negb (isColon c)) (skipn 4 t)) as [|a u] eqn:Htake;
    [discriminate|].
  destruct (dropWhile (fun c => negb (isColon c)) (skipn 4 t)) as [|y [|x v]] eqn:Hdrop;
    try discriminate.
  apply dropWhile_head in Hdrop. apply negb_false_iff, Ascii.eqb_eq in Hdrop. subst y.
  exists (a :: u), x, v. rewrite Hsplit. split; [exact Hpre|].
  split; [discriminate|]. split; [exact Hcolon|]. now apply negb_true_iff in H.
Qed.

Lemma hasKeyShape_lower (t : jsstring) :
  hasKeyShape t = true -> hasKeyShape (toLowerCase t) = true.
Proof.
  intros H. destruct (@hasKeyShape_elim t H) as (u & x & v & -> & Hu & Hcolon & Hx).
  rewrite TargetsExtras.toLowerCase_app, (TargetsExtras.toLowerCase_app u).
  change (toLowerCase (str "irc:")) with (str "irc:").
  change (toLowerCase (":"%char :: x :: v)) with (":"%char :: lowerChar x :: toLowerCase v).
  apply hasKeyShape_intro.
  - now apply TargetsExtras.lower_nonempty.
  - now apply TargetsExtras.lower_noColon.
  - now rewrite lowerChar_lineTerminator.
Qed.

Lemma trimmed_endsBlank (s : jsstring) : trim s = s -> endsBlank s = false.
Proof. intros H. rewrite <- H. apply SendExtras.endsBlank_trimEnd. Qed.

Lemma trim_default_key (s : jsstring) :
  s <> [] -> trim s = s -> trim (str "irc:default:" ++ s) = str "irc:default:" ++ s.
Proof.
  intros Hs Htrim. unfold trim.
  rewrite ConfigExtras.trimStart_fixed by reflexivity.
  apply ConfigExtras.trimEnd_fixed.
  pose proof (@trimmed_endsBlank s Htrim) as Hend.
  unfold endsBlank in *. rewrite rev_app_distr.
  destruct (rev s) as [|a l] eqn:Hrev; [|exact Hend].
  apply (f_equal (@rev ascii)) in Hrev. rewrite rev_involutive in Hrev.
  contradiction.
Qed.

Lemma first_of_target (c : ascii) (t : jsstring) :
  startsWith (c :: t) (str "#") = true \/ isNick (c :: t) = true ->
  isLineTerminator (lowerChar c) = false.
Proof.
  rewrite lowerChar_lineTerminator. intros [H|H].
  - simpl in H. destruct (Ascii.eqb c "#") eqn:E; [|discriminate].
    apply Ascii.eqb_eq in E. now subst c.
  - simpl in H. apply andb_true_iff in H as [H _].
    destruct c as [[] [] [] [] [] [] [] []]; try reflexivity; discriminate H.
Qed.

(** X28.  [normalize] is idempotent: a key it returns is returned unchanged
    when it is normalised again. *)
Theorem normalize_idempotent (raw key : jsstring) :
  normalizeIrcMessagingTarget raw = Some key ->
  normalizeIrcMessagingTarget key = Some key.
Proof.
  unfold normalizeIrcMessagingTarget at 1.
  pose proof (ConfigExtras.trim_idempotent raw) as Hfixed.
  destruct (trim raw) as [|c t] eqn:Ht; [discriminate|].
  rewrite test_prefixedRegex, test_nickRegex.
  assert (Hlower : trim (toLowerCase (c :: t)) = toLowerCase (c :: t))
    by (now rewrite ConfigExtras.trim_lower, Hfixed).
  assert (Hdone : forall k,
    trim k = k -> k <> [] -> hasKeyShape k = true -> toLowerCase k = k ->
    normalizeIrcMessagingTarget k = Some k).
  { intros k Hk Hne Hshape Hlow. unfold normalizeIrcMessagingTarget.
    rewrite Hk. destruct k; [congruence|].
    now rewrite test_prefixedRegex, Hshape, Hlow. }
  assert (Hdefault :
    startsWith (c :: t) (str "#") = true \/ isNick (c :: t) = true ->
    normalizeIrcMessagingTarget (buildIrcTargetKey None (c :: t))
    = Some (buildIrcTargetKey None (c :: t))).
  { intros Hkind. unfold buildIrcTargetKey.
    change (str "irc:" ++ str "default" ++ str ":" ++ toLowerCase (c :: t))
      with (str "irc:default:" ++ toLowerCase (c :: t)).
    apply Hdone.
    - apply trim_default_key; [discriminate | exact Hlower].
    - discriminate.
    - change (str "irc:default:" ++ toLowerCase (c :: t))
        with (str "irc:" ++ str "default" ++ ":"%char :: lowerChar c :: toLowerCase t).
      apply hasKeyShape_intro; [discriminate | reflexivity|].
      now apply (first_of_target c t).
    - rewrite TargetsExtras.toLowerCase_app, TargetsExtras.toLowerCase_idempotent.
      reflexivity. }
  destruct (hasKeyShape (c :: t)) eqn:Hshape.
  { intros H. injection H as H. subst key. apply Hdone.
    - exact Hlower.
    - discriminate.
    - exact (@hasKeyShape_lower (c :: t) Hshape).
    - exact (TargetsExtras.toLowerCase_idempotent (c :: t)). }
  destruct (startsWith (c :: t) (str "#")) eqn:Hhash.
  { intros H. injection H as H. subst key. exact (Hdefault (or_introl eq_refl)). }
  destruct (isNick (c :: t)) eqn:Hnick; [|discriminate].
  intros H. injection H as H. subst key. exact (Hdefault (or_intror eq_refl)).
Qed.

Lemma normalize_idempotent_witness :
  normalizeIrcMessagingTarget (str "irc:default:#general") = Some (str "irc:default:#general").
Proof.
  apply (@normalize_idempotent (str "  #General ")). vm_compute. reflexivity.
Defined.

End NormalizeExtras.

(* ================================================================== *)
(** * Further properties: the allowlist                                *)
(* ================================================================== *)

Module AllowlistExtras.

Import Monitor Spec SpecMore JSFacts.

(** X29.  [isUserAllowed] does not look at the case of the nick or of the
    hostname: it gives the same answer for both in lower case, whatever the
    configuration. *)
Theorem isUserAllowed_ignores_case
    (nick hostname : jsstring) (config : option PolicyConfig) :
  isUserAllowed (toLowerCase nick) (toLowerCase hostname) config
  = isUserAllowed nick hostname config.
Proof.
  unfold isUserAllowed.
  destruct (usersOf config) as [|u users]; [reflexivity|].
  rewrite !TargetsExtras.toLowerCase_idempotent.
  destruct (existsb _ (u :: users)); [reflexivity|].
  destruct hostname; reflexivity.
Qed.

End AllowlistExtras.

(* ================================================================== *)
(** * What [normalize] accepts                                         *)
(* ================================================================== *)

Module NormalizeClaims.

Import RegExp Targets Spec SpecAmended JSFacts RegExpFacts TargetsClaims.

Lemma takeWhile_lower_any (p : ascii -> bool) (s : jsstring) :
  (forall c, p (lowerChar c) = p c) ->
  takeWhile p (toLowerCase s) = toLowerCase (takeWhile p s).
Proof.
  intros Hp. unfold toLowerCase. induction s as [|c s IH]; [reflexivity|].
  cbn [map takeWhile]. rewrite Hp. destruct (p c); [|reflexivity].
  cbn [map]. now rewrite IH.
Qed.

Lemma dropWhile_lower_any (p : ascii -> bool) (s : jsstring) :
  (forall c, p (lowerChar c) = p c) ->
  dropWhile p (toLowerCase s) = toLowerCase (dropWhile p s).
Proof.
  intros Hp. unfold toLowerCase. induction s as [|c s IH]; [reflexivity|].
  cbn [map dropWhile]. rewrite Hp. now destruct (p c).
Qed.

Lemma notColon_lower (c : ascii) :
  negb (isColon (lowerChar c)) = negb (isColon c).
Proof. now rewrite lowerChar_colon. Qed.

(** Behind a prefix in lower case the key shape does not depend on the
    case of the letters. *)
Lemma hasKeyShape_lower_eq (t : jsstring) :
  prefixInLowerCase t = true ->
  hasKeyShape (toLowerCase t) = hasKeyShape t.
Proof.
  unfold prefixInLowerCase. intros Hprefix.
  destruct (startsWith (toLowerCase t) (str "irc:")) eqn:Hlow.
  - cbn [negb orb] in Hprefix. unfold hasKeyShape. rewrite Hlow, Hprefix.
    cbn [andb]. cbv zeta.
    assert (Hskip : skipn 4 (toLowerCase t) = toLowerCase (skipn 4 t))
      by (unfold toLowerCase; apply skipn_map).
    rewrite Hskip.
    rewrite (takeWhile_lower_any _ _ notColon_lower), (dropWhile_lower_any _ _ notColon_lower).
    destruct (takeWhile (fun c => negb (isColon c)) (skipn 4 t)) as [|a u];
      [reflexivity|].
    destruct (dropWhile (fun c => negb (isColon c)) (skipn 4 t)) as [|y [|x v]];
      try reflexivity.
    cbn [toLowerCase map]. now rewrite lowerChar_lineTerminator.
  - destruct (hasKeyShape t) eqn:Hshape.
    + apply NormalizeExtras.hasKeyShape_lower in Hshape.
      unfold hasKeyShape in Hshape. rewrite Hlow in Hshape. discriminate.
    + unfold hasKeyShape. now rewrite Hlow.
Qed.

(** C6, as amended.  [normalize] trims its input.  When the prefix [irc:],
    if the input has it in some letter case, is written in lower case, a
    string of the shape [irc:<account>:<target>] is returned lower-cased, a
    string that starts with [#], whatever follows, and a bare nick become
    keys of the default account, and everything else is refused.  Whatever
    the case of the prefix, an input with whitespace inside that neither
    starts with [#] nor has the key shape is refused. *)
Theorem normalize_characterised (raw : jsstring) :
  prefixInLowerCase (trim raw) = true ->
  normalizeIrcMessagingTarget raw = normalizeAmended raw /\
  (solid (trim raw) = false ->
   hasKeyShape (toLowerCase (trim raw)) = false ->
   startsWith (trim raw) (str "#") = false ->
   normalizeIrcMessagingTarget raw = None).
Proof.
  intros Hprefix.
  assert (H : normalizeIrcMessagingTarget raw = normalizeAmended raw).
  { unfold normalizeIrcMessagingTarget, normalizeAmended.
    rewrite (hasKeyShape_lower_eq _ Hprefix).
    destruct (trim raw) as [|c t] eqn:Ht; [reflexivity|].
    rewrite test_prefixedRegex, test_nickRegex.
    destruct (hasKeyShape (c :: t)); [reflexivity|].
    destruct (startsWith (c :: t) (str "#")); [reflexivity|].
    destruct (isNick (c :: t)); reflexivity. }
  split; [exact H|].
  intros Hsolid Hshape Hhash. rewrite H. unfold normalizeAmended.
  rewrite Hshape, Hhash.
  destruct (isNick (trim raw)) eqn:Hnick; [|reflexivity].
  apply isNick_solid in Hnick. congruence.
Qed.

Lemma normalize_characterised_witness :
  normalizeIrcMessagingTarget (str " irc:Work:#General ")
  = normalizeAmended (str " irc:Work:#General ") /\
  (solid (trim (str " irc:Work:#General ")) = false ->
   hasKeyShape (toLowerCase (trim (str " irc:Work:#General "))) = false ->
   startsWith (trim (str " irc:Work:#General ")) (str "#") = false ->
   normalizeIrcMessagingTarget (str " irc:Work:#General ") = None).
Proof.
  apply (@normalize_characterised (str " irc:Work:#General ")). reflexivity.
Defined.

(** What the amended statement gives on a key, a channel, a nick and a
    sentence. *)
Lemma normalize_on_examples :
  normalizeIrcMessagingTarget (str " irc:Work:#General ") = Some (str "irc:work:#general") /\
  normalizeIrcMessagingTarget (str "#General") = Some (str "irc:default:#general") /\
  normalizeIrcMessagingTarget (str "Bob") = Some (str "irc:default:bob") /\
  normalizeIrcMessagingTarget (str "not a target") = None.
Proof. repeat split; vm_compute; reflexivity. Qed.

End NormalizeClaims.

(* ================================================================== *)
(** * Further properties: joining several channels                     *)
(* ================================================================== *)

Module JoinExtras.

Import Client ClientEvents Spec SpecMore.

Lemma joinChannels_log (channels : list jsstring) :
  forall c lib,
    client c = Some lib ->
    exists c',
      joinChannels channels c = Ok c' /\
      callLog c' = calls lib ++ map Join channels /\
      connected c' = connected c /\ registered c' = registered c.
Proof.
  induction channels as [|channel channels IH]; intros c lib Hc.
  - exists c. simpl. unfold callLog. rewrite Hc, app_nil_r. auto.
  - simpl. unfold join, forward. rewrite Hc. simpl.
    destruct (IH {| options := options c;
                    client := Some (called (Join channel) lib);
                    connected := connected c;
                    registered := registered c |}
                (called (Join channel) lib) eq_refl)
      as (c' & Hjoin & Hlog & Hconn & Hreg).
    exists c'. rewrite Hjoin, Hlog. simpl. rewrite <- app_assoc. auto.
Qed.

(** X20.  [joinChannels] on a client just constructed throws for every
    non-empty list: nothing is joined before [connect()].  After
    [connect()], the library loading, it returns for every list: the
    library client has received [connect] and then exactly one [join] per
    channel, in the order of the list, and the wrapper is connected and not
    registered. *)
Theorem joinChannels_needs_connect
    (options : IrcClientOptions) (lib : IrcClientLike) (channels : list jsstring) :
  (channels <> [] -> joinChannels channels (new options) = Throw notConnected) /\
  exists c' c'',
    connect (Ok lib) (new options) = Ok c' /\
    joinChannels channels c' = Ok c'' /\
    callLog c'' = calls lib ++ Connect :: map Join channels /\
    isConnected c'' = true /\
    isRegistered c'' = false.
Proof.
  split.
  - destruct channels as [|channel channels]; [congruence|]. reflexivity.
  - destruct (@joinChannels_log channels
                {| Client.options := options;
                   client := Some (called Connect lib);
                   connected := true;
                   registered := false |}
                (called Connect lib) eq_refl)
      as (c'' & Hjoin & Hlog & Hconn & Hreg).
    eexists. exists c''. split; [reflexivity|]. split; [exact Hjoin|].
    split; [|split; [exact Hconn | exact Hreg]].
    rewrite Hlog. cbn [calls called]. now rewrite <- app_assoc.
Qed.

End JoinExtras.
